(** * Hierarchy Flow visual: the data-to-layout pipeline and its view state

    A shallow embedding of [src/hierarchy/src/visual.ts]: the children index,
    the filter pipeline, collapse-aware visibility, hierarchy construction with
    the synthetic root, and the pan/zoom view transform; then hit testing,
    keyboard focus, the row cache of [update] and the sparkline range.

    Conventions of the embedding.
    - A JS [string] is a [string]; [null]/[undefined] is [None].
    - A JS [number] is a rational [Q] (exact arithmetic; NaN and infinities
      have no counterpart).
    - A JS [Set<string>] is the list of its members in insertion order, a JS
      [Map<string,V>] the list of its entries in insertion order.
    - A stack (an array used with [push]/[pop]) is a list whose head is the
      top of the stack.
    - A loop that may run forever is a fuelled function returning [option];
      [None] stands for a loop that does not come back. *)

From Stdlib Require Import List String Ascii Bool Arith ZArith QArith Qminmax Qround Lia Lqa.
Import ListNotations.

Local Close Scope Q_scope.
Local Open Scope string_scope.
Local Open Scope nat_scope.
Local Open Scope list_scope.

(** ** JavaScript string primitives used by the visual *)

Module Js.

(** White space removed by [String.prototype.trim], on ASCII input. *)
Definition isWhite (c : ascii) : bool :=
  let n := nat_of_ascii c in
  (Nat.leb 9 n && Nat.leb n 13) || Nat.eqb n 32.

Fixpoint trimStart (s : string) : string :=
  match s with
  | EmptyString => EmptyString
  | String c s' => if isWhite c then trimStart s' else s
  end.

Definition reverse (s : string) : string :=
  string_of_list_ascii (rev (list_ascii_of_string s)).

Definition trim (s : string) : string :=
  reverse (trimStart (reverse (trimStart s))).

Definition lowerChar (c : ascii) : ascii :=
  let n := nat_of_ascii c in
  if Nat.leb 65 n && Nat.leb n 90 then ascii_of_nat (n + 32) else c.

(** [String.prototype.toLowerCase], on ASCII input. *)
Fixpoint toLowerCase (s : string) : string :=
  match s with
  | EmptyString => EmptyString
  | String c s' => String (lowerChar c) (toLowerCase s')
  end.

(** [text.includes(q)]. *)
Fixpoint includes (q text : string) : bool :=
  match text with
  | EmptyString => prefix q EmptyString
  | String _ rest => prefix q text || includes q rest
  end.

(** Truthiness of a string: the empty string is falsy. *)
Definition truthy (s : string) : bool := negb (String.eqb s "").

(** Truthiness of a [string | null]: yields the string when it is truthy. *)
Definition truthyOpt (o : option string) : option string :=
  match o with
  | Some s => if truthy s then Some s else None
  | None => None
  end.

End Js.

(** ** [Set<string>] and [Map<string,V>] *)

Module StrSet.

Definition t := list string.

Definition empty : t := [].

Definition has (x : string) (s : t) : bool := existsb (String.eqb x) s.

Definition add (x : string) (s : t) : t := if has x s then s else s ++ [x].

Definition delete (x : string) (s : t) : t :=
  filter (fun y => negb (String.eqb x y)) s.

Definition size (s : t) : nat := List.length s.

(** Two sets with the same members, whatever the insertion order. *)
Definition same (s1 s2 : t) : Prop := forall x, has x s1 = has x s2.

End StrSet.

Module StrMap.

Definition t (V : Type) := list (string * V).

Fixpoint get {V} (k : string) (m : t V) : option V :=
  match m with
  | [] => None
  | (k', v) :: m' => if String.eqb k k' then Some v else get k m'
  end.

Definition has {V} (k : string) (m : t V) : bool :=
  match get k m with Some _ => true | None => false end.

(** [m.set(k, v)]: an existing key keeps its place, a new one goes last. *)
Fixpoint set {V} (k : string) (v : V) (m : t V) : t V :=
  match m with
  | [] => [(k, v)]
  | (k', v') :: m' =>
      if String.eqb k k' then (k', v) :: m' else (k', v') :: set k v m'
  end.

Definition keys {V} (m : t V) : list string := map fst m.

End StrMap.

(** ** Rows *)

Module NodeRow.

(** [type NodeRow].  The display payload ([value], [sparkline], [tooltip],
    [selectionId]) is carried along by the pipeline and never read by it;
    it is left out. *)
Record t := mk {
  id : string;
  parentId : option string;
  label : string;
  dropdown : option string
}.

(** The parent reference when [r.parentId] is truthy. *)
Definition parentKey (r : t) : option string := Js.truthyOpt (parentId r).

Definition withParent (p : option string) (r : t) : t :=
  mk (id r) p (label r) (dropdown r).

End NodeRow.

(** ** Row ingestion *)

(** One index [i] of the categorical data view, as [parseDataView] reads it:
    the hierarchy, parent, field and dropdown category values, each already
    rendered by [String(...)], [None] for [null] or [undefined]. *)
Record RawRow := {
  rawId : option string;
  rawParent : option string;
  rawFields : list (option string);
  rawDropdown : option string
}.

(** [parts.join(" / ")] *)
Fixpoint joinSlash (parts : list string) : string :=
  match parts with
  | [] => ""
  | [p] => p
  | p :: rest => p ++ " / " ++ joinSlash rest
  end.

(** The body of the row loop of [parseDataView]; [None] is [continue]. *)
Definition parseRow (raw : RawRow) : option NodeRow.t :=
  let id := Js.trim (match rawId raw with Some s => s | None => "" end) in
  if negb (Js.truthy id) then None
  else
    let parentId :=
      match rawParent raw with
      | None => None
      | Some p => if String.eqb (Js.trim p) "" then None else Some (Js.trim p)
      end in
    let label :=
      if Nat.ltb 0 (List.length (rawFields raw)) then
        let joined :=
          joinSlash
            (filter Js.truthy
               (map (fun v => match v with None => "" | Some s => Js.trim s end)
                    (rawFields raw))) in
        if Js.truthy joined then joined else id
      else id in
    Some (NodeRow.mk id parentId label (rawDropdown raw)).

(** The rows [parseDataView] returns for the indices of the data view, once
    the hierarchy and parent categories are found (it returns [null]
    before the loop otherwise). *)
Definition parseDataView (raws : list RawRow) : list NodeRow.t :=
  fold_left
    (fun rows raw =>
       match parseRow raw with
       | Some r => rows ++ [r]
       | None => rows
       end)
    raws [].

(** ** The children index and the id index *)

Definition ChildrenMap := StrMap.t (list string).

(** [new Map(rows.map(r => [r.id, r]))] *)
Definition indexById (rows : list NodeRow.t) : StrMap.t NodeRow.t :=
  fold_left (fun m r => StrMap.set (NodeRow.id r) r m) rows [].

(** [new Set(rows.map(r => r.id))] *)
Definition idSetOf (rows : list NodeRow.t) : StrSet.t :=
  fold_left (fun s r => StrSet.add (NodeRow.id r) s) rows StrSet.empty.

Definition buildChildrenMap (rows : list NodeRow.t) : ChildrenMap :=
  fold_left
    (fun m r =>
       match NodeRow.parentKey r with
       | None => m
       | Some p =>
           let arr := match StrMap.get p m with Some a => a | None => [] end in
           StrMap.set p (arr ++ [NodeRow.id r]) m
       end)
    rows [].

(** [this.childrenMap.get(id) ?? []] *)
Definition childrenOf (cm : ChildrenMap) (id : string) : list string :=
  match StrMap.get id cm with Some a => a | None => [] end.

(** ** The option monad of possibly non-returning loops *)

Definition bind {A B} (x : option A) (k : A -> option B) : option B :=
  match x with Some a => k a | None => None end.

Notation "x <- e ;; k" := (bind e (fun x => k))
  (at level 61, e at next level, right associativity).

(** ** Loops shared by the filters *)

(** One step of every ancestor walk:
    [p = byId.get(cur)?.parentId; if (!p || !byId.has(p)) break; cur = p]. *)
Definition stepUp (byId : StrMap.t NodeRow.t) (cur : string) : option string :=
  match StrMap.get cur byId with
  | None => None
  | Some r =>
      match NodeRow.parentKey r with
      | None => None
      | Some p => if StrMap.has p byId then Some p else None
      end
  end.

(** [while (true) { ...break; currentId = parentId }]: the topmost indexed
    ancestor of [cur]. *)
Fixpoint climbToRoot (fuel : nat) (byId : StrMap.t NodeRow.t) (cur : string)
  : option string :=
  match fuel with
  | O => None
  | S f =>
      match stepUp byId cur with
      | Some p => climbToRoot f byId p
      | None => Some cur
      end
  end.

(** [while (currentId) { include.add(currentId); ...break; currentId = next }].
    With [guarded], the member is added only [if (byId.has(currentId))], as in
    [filterToParentBranch]. *)
Fixpoint addAncestors (guarded : bool) (fuel : nat) (byId : StrMap.t NodeRow.t)
    (cur : string) (include : StrSet.t) : option StrSet.t :=
  match fuel with
  | O => None
  | S f =>
      if Js.truthy cur then
        let include' :=
          if guarded && negb (StrMap.has cur byId) then include
          else StrSet.add cur include in
        match stepUp byId cur with
        | Some p => addAncestors guarded f byId p include'
        | None => Some include'
        end
      else Some include
  end.

(** [for (const c of children) if (!include.has(c)) { include.add(c); stack.push(c) }] *)
Fixpoint pushNew (children : list string) (stack : list string) (include : StrSet.t)
  : list string * StrSet.t :=
  match children with
  | [] => (stack, include)
  | c :: cs =>
      if StrSet.has c include then pushNew cs stack include
      else pushNew cs (c :: stack) (StrSet.add c include)
  end.

(** [while (stack.length) { id = stack.pop(); ...pushNew... }] *)
Fixpoint addDescendants (fuel : nat) (cm : ChildrenMap) (stack : list string)
    (include : StrSet.t) : option StrSet.t :=
  match fuel with
  | O => None
  | S f =>
      match stack with
      | [] => Some include
      | id :: rest =>
          let '(stack', include') := pushNew (childrenOf cm id) rest include in
          addDescendants f cm stack' include'
      end
  end.

(** [for (const c of children) stack.push(c)] *)
Definition pushAll (children : list string) (stack : list string) : list string :=
  rev children ++ stack.

(** The reachability walk of [applySearchFilter] and [computeVisibleRows]:
    [while (stack.length) { id = stack.pop(); if (seen.has(id)) continue;
       seen.add(id); if (collapsed.has(id)) continue; push all children }]. *)
Fixpoint walk (fuel : nat) (cm : ChildrenMap) (collapsed : StrSet.t)
    (stack : list string) (seen : StrSet.t) : option StrSet.t :=
  match fuel with
  | O => None
  | S f =>
      match stack with
      | [] => Some seen
      | id :: rest =>
          if StrSet.has id seen then walk f cm collapsed rest seen
          else
            let seen' := StrSet.add id seen in
            if StrSet.has id collapsed then walk f cm collapsed rest seen'
            else walk f cm collapsed (pushAll (childrenOf cm id) rest) seen'
      end
  end.

(** All child entries of the index, with repetitions. *)
Definition allChildren (cm : ChildrenMap) : list string :=
  List.concat (map snd cm).

(** Fuel after which an ancestor walk over [rows] has revisited an id. *)
Definition climbFuel (rows : list NodeRow.t) : nat := S (List.length rows).

(** Fuel that the stack loops never exhaust. *)
Definition stackFuel (cm : ChildrenMap) (stack : list string) : nat :=
  S (List.length stack + List.length (allChildren cm)).

(** ** The filter pipeline *)

Definition keepIncluded (include : StrSet.t) (rows : list NodeRow.t) : list NodeRow.t :=
  filter (fun r => StrSet.has (NodeRow.id r) include) rows.

(** [applySearchFilter(rows, query)], reading [this.childrenMap]. *)
Definition applySearchFilter (cm : ChildrenMap) (rows : list NodeRow.t) (query : string)
  : option (list NodeRow.t) :=
  let q := Js.toLowerCase (Js.trim query) in
  if negb (Js.truthy q) then Some rows
  else
    let fullById := indexById rows in
    matchedRoots <-
      fold_left
        (fun acc r =>
           s <- acc ;;
           if negb (Js.includes q (Js.toLowerCase (NodeRow.label r))) then Some s
           else
             top <- climbToRoot (climbFuel rows) fullById (NodeRow.id r) ;;
             Some (StrSet.add top s))
        rows (Some StrSet.empty) ;;
    if Nat.eqb (StrSet.size matchedRoots) 0 then Some []
    else
      let stack := rev matchedRoots in
      include <- walk (stackFuel cm stack) cm StrSet.empty stack StrSet.empty ;;
      Some (keepIncluded include rows).

(** [filterToNodeBranch(rows, nodeId)] *)
Definition filterToNodeBranch (cm : ChildrenMap) (rows : list NodeRow.t) (nodeId : string)
  : option (list NodeRow.t) :=
  let byId := indexById rows in
  if negb (StrMap.has nodeId byId) then Some rows
  else
    include <- addAncestors false (climbFuel rows) byId nodeId StrSet.empty ;;
    let stack := [nodeId] in
    include <- addDescendants (stackFuel cm stack) cm stack include ;;
    Some (keepIncluded include rows).

Definition optEqb (o : option string) (s : string) : bool :=
  match o with Some x => String.eqb x s | None => false end.

(** [filterToParentBranch(rows, parentId)] *)
Definition filterToParentBranch (cm : ChildrenMap) (rows : list NodeRow.t) (parentId : string)
  : option (list NodeRow.t) :=
  let byId := indexById rows in
  let children :=
    map NodeRow.id (filter (fun r => optEqb (NodeRow.parentId r) parentId) rows) in
  if Nat.eqb (List.length children) 0 then Some rows
  else
    include <- addAncestors true (climbFuel rows) byId parentId StrSet.empty ;;
    let stack := rev children in
    let include := fold_left (fun s c => StrSet.add c s) children include in
    include <- addDescendants (stackFuel cm stack) cm stack include ;;
    Some (keepIncluded include rows).

Definition dropdownMatches (value : string) (r : NodeRow.t) : bool :=
  let dropdownValue :=
    Js.trim (match NodeRow.dropdown r with Some d => d | None => "" end) in
  String.eqb dropdownValue value
  || String.eqb (NodeRow.label r) value
  || String.eqb (NodeRow.id r) value.

(** [filterToDropdownBranch(rows, value)] *)
Definition filterToDropdownBranch (cm : ChildrenMap) (rows : list NodeRow.t) (value : string)
  : option (list NodeRow.t) :=
  let byId := indexById rows in
  let matchedRoots :=
    fold_left
      (fun s r =>
         let candidate :=
           match NodeRow.parentKey r with
           | Some p => if StrMap.has p byId then p else NodeRow.id r
           | None => NodeRow.id r
           end in
         StrSet.add candidate s)
      (filter (dropdownMatches value) rows) StrSet.empty in
  if Nat.eqb (StrSet.size matchedRoots) 0 then Some []
  else
    include <-
      fold_left
        (fun acc id =>
           include <- acc ;;
           if negb (StrMap.has id byId) then Some include
           else
             include <- addAncestors false (climbFuel rows) byId id include ;;
             let stack := [id] in
             addDescendants (stackFuel cm stack) cm stack include)
        matchedRoots (Some StrSet.empty) ;;
    Some (keepIncluded include rows).

(** ** The visual's state *)

Inductive ViewMode := TreeView | TableView.

Inductive Orientation := TD | LR.

Module LayoutNode.

(** [type LayoutNode]; the payload and the [parent]/[children] back
    references are left out. *)
Record t := mk {
  id : string;
  label : string;
  x : Q;
  y : Q;
  depth : Z
}.

End LayoutNode.

Definition Link := (LayoutNode.t * LayoutNode.t)%type.

Definition source (l : Link) : LayoutNode.t := fst l.
Definition target (l : Link) : LayoutNode.t := snd l.

(** The settings read by the pipeline: [settings.layout] and
    [settings.controls.doubleClickZoomPercent]. *)
Record VisualSettings := {
  orientation : Orientation;
  levelSpacing : Q;
  siblingSpacing : Q;
  cardWidth : Q;
  cardHeight : Q;
  doubleClickZoomPercent : Q
}.

(** Text shown in the [.pbi-msg] element. *)
Inductive Message := NoMatches | InvalidHierarchy.

(** The fields of [class Visual] that the pipeline reads or writes. *)
Record Visual := {
  settings : VisualSettings;
  viewMode : ViewMode;
  tx : Q;
  ty : Q;
  scale : Q;
  nodes : list LayoutNode.t;
  links : list Link;
  tableRows : list LayoutNode.t;
  lastViewportW : Q;
  lastViewportH : Q;
  searchQuery : string;
  hierarchyFilterValue : option string;
  parentFilterValue : option string;
  dropdownFilterValue : option string;
  allRows : list NodeRow.t;
  childrenMap : ChildrenMap;
  collapsedIds : StrSet.t;
  allowInteractions : bool;
  message : option Message
}.

Definition setOutputs (ns : list LayoutNode.t) (ls : list Link) (ts : list LayoutNode.t)
    (v : Visual) : Visual :=
  {| settings := settings v; viewMode := viewMode v;
     tx := tx v; ty := ty v; scale := scale v;
     nodes := ns; links := ls; tableRows := ts;
     lastViewportW := lastViewportW v; lastViewportH := lastViewportH v;
     searchQuery := searchQuery v;
     hierarchyFilterValue := hierarchyFilterValue v;
     parentFilterValue := parentFilterValue v;
     dropdownFilterValue := dropdownFilterValue v;
     allRows := allRows v; childrenMap := childrenMap v;
     collapsedIds := collapsedIds v;
     allowInteractions := allowInteractions v; message := message v |}.

Definition setTransform (tx' ty' scale' : Q) (v : Visual) : Visual :=
  {| settings := settings v; viewMode := viewMode v;
     tx := tx'; ty := ty'; scale := scale';
     nodes := nodes v; links := links v; tableRows := tableRows v;
     lastViewportW := lastViewportW v; lastViewportH := lastViewportH v;
     searchQuery := searchQuery v;
     hierarchyFilterValue := hierarchyFilterValue v;
     parentFilterValue := parentFilterValue v;
     dropdownFilterValue := dropdownFilterValue v;
     allRows := allRows v; childrenMap := childrenMap v;
     collapsedIds := collapsedIds v;
     allowInteractions := allowInteractions v; message := message v |}.

Definition setMessage (m : option Message) (v : Visual) : Visual :=
  {| settings := settings v; viewMode := viewMode v;
     tx := tx v; ty := ty v; scale := scale v;
     nodes := nodes v; links := links v; tableRows := tableRows v;
     lastViewportW := lastViewportW v; lastViewportH := lastViewportH v;
     searchQuery := searchQuery v;
     hierarchyFilterValue := hierarchyFilterValue v;
     parentFilterValue := parentFilterValue v;
     dropdownFilterValue := dropdownFilterValue v;
     allRows := allRows v; childrenMap := childrenMap v;
     collapsedIds := collapsedIds v;
     allowInteractions := allowInteractions v; message := m |}.

Definition setCollapsedIds (c : StrSet.t) (v : Visual) : Visual :=
  {| settings := settings v; viewMode := viewMode v;
     tx := tx v; ty := ty v; scale := scale v;
     nodes := nodes v; links := links v; tableRows := tableRows v;
     lastViewportW := lastViewportW v; lastViewportH := lastViewportH v;
     searchQuery := searchQuery v;
     hierarchyFilterValue := hierarchyFilterValue v;
     parentFilterValue := parentFilterValue v;
     dropdownFilterValue := dropdownFilterValue v;
     allRows := allRows v; childrenMap := childrenMap v;
     collapsedIds := c;
     allowInteractions := allowInteractions v; message := message v |}.

Definition setFilters (q : string) (h p d : option string) (v : Visual) : Visual :=
  {| settings := settings v; viewMode := viewMode v;
     tx := tx v; ty := ty v; scale := scale v;
     nodes := nodes v; links := links v; tableRows := tableRows v;
     lastViewportW := lastViewportW v; lastViewportH := lastViewportH v;
     searchQuery := q;
     hierarchyFilterValue := h;
     parentFilterValue := p;
     dropdownFilterValue := d;
     allRows := allRows v; childrenMap := childrenMap v;
     collapsedIds := collapsedIds v;
     allowInteractions := allowInteractions v; message := message v |}.

(** [applyDropdownFilters(rows)]: hierarchy, then parent, then dropdown. *)
Definition applyDropdownFilters (this : Visual) (rows : list NodeRow.t)
  : option (list NodeRow.t) :=
  let result := rows in
  result <-
    match Js.truthyOpt (hierarchyFilterValue this) with
    | Some h => filterToNodeBranch (childrenMap this) result h
    | None => Some result
    end ;;
  result <-
    match Js.truthyOpt (parentFilterValue this) with
    | Some p => filterToParentBranch (childrenMap this) result p
    | None => Some result
    end ;;
  match Js.truthyOpt (dropdownFilterValue this) with
  | Some d => filterToDropdownBranch (childrenMap this) result d
  | None => Some result
  end.

(** A row of [sourceRows] is a root when [!r.parentId || !idSet.has(r.parentId)]. *)
Definition isRootIn (idSet : StrSet.t) (r : NodeRow.t) : bool :=
  match NodeRow.parentKey r with
  | None => true
  | Some p => negb (StrSet.has p idSet)
  end.

(** [computeVisibleRows(rows, collapsed)] *)
Definition computeVisibleRows (this : Visual) (rows : list NodeRow.t) (collapsed : StrSet.t)
  : option (list NodeRow.t) :=
  dropdownRows <- applyDropdownFilters this rows ;;
  filteredRows <- applySearchFilter (childrenMap this) dropdownRows (searchQuery this) ;;
  let sourceRows := filteredRows in
  let idSet := idSetOf sourceRows in
  let roots := filter (isRootIn idSet) sourceRows in
  let stack := fold_left (fun st r => NodeRow.id r :: st) roots [] in
  visible <-
    walk (stackFuel (childrenMap this) stack) (childrenMap this) collapsed stack
      StrSet.empty ;;
  Some (keepIncluded visible sourceRows).

(** The two halves of [computeVisibleRows], named for the proofs: the rows the
    walk starts from ([sourceRows]) and the walk itself. *)
Definition sourceRowsOf (this : Visual) (rows : list NodeRow.t) : option (list NodeRow.t) :=
  dropdownRows <- applyDropdownFilters this rows ;;
  applySearchFilter (childrenMap this) dropdownRows (searchQuery this).

Definition visibleFrom (cm : ChildrenMap) (collapsed : StrSet.t)
    (sourceRows : list NodeRow.t) : option (list NodeRow.t) :=
  let idSet := idSetOf sourceRows in
  let roots := filter (isRootIn idSet) sourceRows in
  let stack := fold_left (fun st r => NodeRow.id r :: st) roots [] in
  visible <- walk (stackFuel cm stack) cm collapsed stack StrSet.empty ;;
  Some (keepIncluded visible sourceRows).

(** ** Hierarchy construction: the part played by d3-hierarchy

    [visual.ts] imports [stratify], [tree] and [HierarchyNode] from the
    d3-hierarchy package, which is not part of the repository's sources. *)

Module D3.

(** Modelled from the spec: a constructed hierarchy, as the data it was
    built from and its root row. *)
Record HierarchyNode := {
  data : list NodeRow.t;
  root : NodeRow.t
}.

(** Modelled from the spec: the duplicate-id check of [stratify]. *)
Fixpoint hasDuplicates (ids : list string) : bool :=
  match ids with
  | [] => false
  | i :: rest => StrSet.has i rest || hasDuplicates rest
  end.

(** Modelled from the spec: the check of [stratify] for a parent reference
    that resolves to no node of the working set. *)
Definition hasDangling (working : list NodeRow.t) : bool :=
  let ids := map NodeRow.id working in
  existsb
    (fun r =>
       match NodeRow.parentKey r with
       | Some p => negb (StrSet.has p ids)
       | None => false
       end)
    working.

(** Modelled from the spec: does walking the parent references from [cur]
    come back to [start]?  Used by the cycle check of [stratify]. *)
Fixpoint reaches (fuel : nat) (byId : StrMap.t NodeRow.t) (start cur : string) : bool :=
  match fuel with
  | O => false
  | S f =>
      match StrMap.get cur byId with
      | None => false
      | Some r =>
          match NodeRow.parentKey r with
          | None => false
          | Some p => String.eqb p start || reaches f byId start p
          end
      end
  end.

(** Modelled from the spec: the cycle check of [stratify], a node that is
    its own ancestor. *)
Definition hasCycle (working : list NodeRow.t) : bool :=
  let byId := indexById working in
  existsb
    (fun r => reaches (List.length working) byId (NodeRow.id r) (NodeRow.id r))
    working.

(** Modelled from the spec: [stratify] of d3-hierarchy, which is missing
    from the sources.  Section 4.4: constructing the tree must detect and
    reject duplicate ids, cycles (a node that is its own ancestor) and
    parent references that resolve to a node not present in the working
    set; the layout operates on a single connected tree, so exactly one
    parentless row is required.  [None] is the exception that
    [computeLayout] catches. *)
Definition stratify (working : list NodeRow.t) : option HierarchyNode :=
  if hasDuplicates (map NodeRow.id working) then None
  else if hasDangling working then None
  else if hasCycle working then None
  else
    match filter (fun r => match NodeRow.parentKey r with None => true | Some _ => false end)
                 working with
    | [r] => Some {| data := working; root := r |}
    | _ => None
    end.

(** Modelled from the spec: the children of a node of the constructed tree,
    in data order. *)
Definition kids (working : list NodeRow.t) (n : NodeRow.t) : list NodeRow.t :=
  filter (fun c => optEqb (NodeRow.parentKey c) (NodeRow.id n)) working.

(** Modelled from the spec: the pre-order traversal behind [eachBefore]. *)
Fixpoint preorder (fuel : nat) (working : list NodeRow.t) (n : NodeRow.t) (depth : nat)
  : list (NodeRow.t * nat) :=
  match fuel with
  | O => []
  | S f => (n, depth) :: flat_map (fun c => preorder f working c (S depth)) (kids working n)
  end.

(** Modelled from the spec: the level-by-level traversal behind [each]. *)
Fixpoint levels (fuel : nat) (working : list NodeRow.t) (level : list (NodeRow.t * nat))
  : list (NodeRow.t * nat) :=
  match fuel with
  | O => []
  | S f =>
      match level with
      | [] => []
      | _ =>
          level ++
          levels f working
            (flat_map (fun nd => map (fun c => (c, S (snd nd))) (kids working (fst nd)))
                      level)
      end
  end.

(** Modelled from the spec: [node.eachBefore] of d3-hierarchy, missing from
    the sources: the nodes in pre-order, each with its [depth] (0 at the
    root of the constructed tree, Section 3). *)
Definition eachBefore (h : HierarchyNode) : list (NodeRow.t * nat) :=
  preorder (List.length (data h)) (data h) (root h) 0.

(** Modelled from the spec: [node.each] of d3-hierarchy, missing from the
    sources: the nodes in breadth-first order, each with its [depth]. *)
Definition each (h : HierarchyNode) : list (NodeRow.t * nat) :=
  levels (List.length (data h)) (data h) [(root h, 0)].

End D3.

(** ** Layout *)

Definition syntheticRootId : string := "__root__".

(** [idx = working.findIndex(x => x.id === rid);
     if (idx >= 0) working[idx] = { ...working[idx], parentId: syntheticRootId }] *)
Fixpoint reparentFirst (rid : string) (working : list NodeRow.t) : list NodeRow.t :=
  match working with
  | [] => []
  | x :: rest =>
      if String.eqb (NodeRow.id x) rid
      then NodeRow.withParent (Some syntheticRootId) x :: rest
      else x :: reparentFirst rid rest
  end.

(** The bounding box accumulated by [fitToViewport]; [None] is the initial
    [(Infinity, Infinity, -Infinity, -Infinity)]. *)
Definition growBox (cw ch : Q) (box : option (Q * Q * Q * Q)) (n : LayoutNode.t)
  : option (Q * Q * Q * Q) :=
  let x0 := (LayoutNode.x n - cw / (2#1))%Q in
  let y0 := (LayoutNode.y n - ch / (2#1))%Q in
  let x1 := (x0 + cw)%Q in
  let y1 := (y0 + ch)%Q in
  match box with
  | None => Some (x0, y0, x1, y1)
  | Some (minX, minY, maxX, maxY) =>
      Some (Qmin minX x0, Qmin minY y0, Qmax maxX x1, Qmax maxY y1)
  end.

(** [a <= b] and [a > b] on numbers. *)
Definition Qleb (a b : Q) : bool := Qle_bool a b.

Definition Qgtb (a b : Q) : bool := negb (Qle_bool a b).

(** [fitToViewport()] *)
Definition fitToViewport (this : Visual) : Visual :=
  if Nat.eqb (List.length (nodes this)) 0
     || Qleb (lastViewportW this) 0 || Qleb (lastViewportH this) 0
  then this
  else
    let s := settings this in
    match fold_left (growBox (cardWidth s) (cardHeight s)) (nodes this) None with
    | None => this
    | Some (minX, minY, maxX, maxY) =>
        let contentW := (maxX - minX)%Q in
        let contentH := (maxY - minY)%Q in
        let pad := (24#1)%Q in
        let availableW := Qmax 1 (lastViewportW this - pad * (2#1))%Q in
        let availableH := Qmax 1 (lastViewportH this - pad * (2#1))%Q in
        let sx := (availableW / Qmax 1 contentW)%Q in
        let sy := (availableH / Qmax 1 contentH)%Q in
        let scale' := Qmin (2#1) (Qmax (2#10) (Qmin sx sy)) in
        let cx := ((minX + maxX) / (2#1))%Q in
        let cy := ((minY + maxY) / (2#1))%Q in
        setTransform (lastViewportW this / (2#1) - cx * scale')%Q
                     (lastViewportH this / (2#1) - cy * scale')%Q
                     scale' this
    end.

Definition swapXY (n : LayoutNode.t) : LayoutNode.t :=
  LayoutNode.mk (LayoutNode.id n) (LayoutNode.label n)
                (LayoutNode.y n) (LayoutNode.x n) (LayoutNode.depth n).

Section Layout.

(** The positions assigned by d3-hierarchy's tidy tree,
    [tree().nodeSize([dx, dy])(root)], read at a node: taken as a
    parameter, since the package is not part of the sources and no
    property below depends on the coordinates it picks. *)
Variable treeLayout : Q -> Q -> D3.HierarchyNode -> NodeRow.t -> Q * Q.

(** [computeLayout(rows, autoFit)] *)
Definition computeLayout (this : Visual) (rows : list NodeRow.t) (autoFit : bool)
  : bool * Visual :=
  let s := settings this in
  let idSet := idSetOf rows in
  let roots := filter (isRootIn idSet) rows in
  let working := rows in
  let '(working, syntheticRoot) :=
    if negb (Nat.eqb (List.length roots) 1) then
      let synthetic := NodeRow.mk syntheticRootId None "All" None in
      let working := working ++ [synthetic] in
      (fold_left (fun w r => reparentFirst (NodeRow.id r) w) roots working,
       Some syntheticRootId)
    else (working, None) in
  match D3.stratify working with
  | None =>
      (false, setMessage (Some InvalidHierarchy) (setOutputs [] [] [] this))
  | Some root =>
      let laidOut :=
        treeLayout (cardWidth s + siblingSpacing s)%Q
                   (cardHeight s + levelSpacing s)%Q root in
      let depthOffset := match syntheticRoot with Some _ => 1%Z | None => 0%Z end in
      let ln := fun nd : NodeRow.t * nat =>
        LayoutNode.mk (NodeRow.id (fst nd)) (NodeRow.label (fst nd))
                      (fst (laidOut (fst nd))) (snd (laidOut (fst nd)))
                      (Z.of_nat (snd nd) - depthOffset) in
      let flat := map ln (D3.eachBefore root) in
      let ordered := flat in
      let links :=
        flat_map
          (fun nd => map (fun c => (ln nd, ln (c, S (snd nd))))
                         (D3.kids (D3.data root) (fst nd)))
          (D3.each root) in
      let '(ns, ls, ts) :=
        match syntheticRoot with
        | Some sid =>
            (filter (fun n => negb (String.eqb (LayoutNode.id n) sid)) flat,
             filter (fun l => negb (String.eqb (LayoutNode.id (source l)) sid)) links,
             filter (fun n => negb (String.eqb (LayoutNode.id n) sid)) ordered)
        | None => (flat, links, ordered)
        end in
      let '(ns, ls, ts) :=
        match orientation s with
        | LR => (map swapXY ns,
                 map (fun l => (swapXY (source l), swapXY (target l))) ls,
                 map swapXY ts)
        | TD => (ns, ls, ts)
        end in
      let this := setOutputs ns ls ts this in
      (true, if autoFit then fitToViewport this else this)
  end.

(** [getNodeScreenPoint(nodeId)] *)
Definition getNodeScreenPoint (this : Visual) (nodeId : option string) : option (Q * Q) :=
  match Js.truthyOpt nodeId with
  | None => None
  | Some nid =>
      match find (fun n => String.eqb (LayoutNode.id n) nid) (nodes this) with
      | None => None
      | Some node =>
          Some (LayoutNode.x node * scale this + tx this,
                LayoutNode.y node * scale this + ty this)%Q
      end
  end.

(** [keepNodeScreenPosition(nodeId, screenPoint)] *)
Definition keepNodeScreenPosition (this : Visual) (nodeId : string) (screenPoint : Q * Q)
  : Visual :=
  match find (fun n => String.eqb (LayoutNode.id n) nodeId) (nodes this) with
  | None => this
  | Some node =>
      setTransform (fst screenPoint - LayoutNode.x node * scale this)%Q
                   (snd screenPoint - LayoutNode.y node * scale this)%Q
                   (scale this) this
  end.

Definition anyFilterShown (this : Visual) : bool :=
  Js.truthy (searchQuery this)
  || match Js.truthyOpt (hierarchyFilterValue this) with Some _ => true | None => false end
  || match Js.truthyOpt (parentFilterValue this) with Some _ => true | None => false end.

(** [computeLayoutFromState(autoFit = true, focusNodeId?)] *)
Definition computeLayoutFromState (this : Visual) (autoFit : bool)
    (focusNodeId : option string) : option (bool * Visual) :=
  visibleRows <- computeVisibleRows this (allRows this) (collapsedIds this) ;;
  if Nat.eqb (List.length visibleRows) 0 then
    let this := setOutputs [] [] [] this in
    let this :=
      if anyFilterShown this then setMessage (Some NoMatches) this else this in
    Some (true, this)
  else
    let focusScreen := if autoFit then None else getNodeScreenPoint this focusNodeId in
    let '(ok, this) := computeLayout this visibleRows autoFit in
    if negb ok then Some (false, this)
    else
      match autoFit, Js.truthyOpt focusNodeId, focusScreen with
      | false, Some nid, Some pt => Some (true, keepNodeScreenPosition this nid pt)
      | _, _, _ => Some (true, this)
      end.

(** [toggleCollapse(nodeId)] *)
Definition toggleCollapse (this : Visual) (nodeId : string) : option Visual :=
  let hasChildren :=
    Nat.ltb 0 (match StrMap.get nodeId (childrenMap this) with
               | Some a => List.length a
               | None => 0
               end) in
  if negb hasChildren then Some this
  else
    let this :=
      if StrSet.has nodeId (collapsedIds this)
      then setCollapsedIds (StrSet.delete nodeId (collapsedIds this)) this
      else setCollapsedIds (StrSet.add nodeId (collapsedIds this)) this in
    r <- computeLayoutFromState this false (Some nodeId) ;;
    Some (snd r).

End Layout.

(** ** Filter and collapse mutators *)

Section Mutators.

Variable treeLayout : Q -> Q -> D3.HierarchyNode -> NodeRow.t -> Q * Q.

(** The tail shared by the four filter setters:
    [clearMessage(); computeLayoutFromState(true)]. *)
Definition refilter (this : Visual) : option Visual :=
  let this := setMessage None this in
  r <- computeLayoutFromState treeLayout this true None ;;
  Some (snd r).

Definition orNull (value : string) : option string :=
  if Js.truthy value then Some value else None.

Definition sameOpt (a b : option string) : bool :=
  match a, b with
  | Some x, Some y => String.eqb x y
  | None, None => true
  | _, _ => false
  end.

(** [setSearchQuery(value)] *)
Definition setSearchQuery (this : Visual) (value : string) : option Visual :=
  let trimmed := Js.trim value in
  if String.eqb (searchQuery this) trimmed then Some this
  else
    refilter (setFilters trimmed (hierarchyFilterValue this) (parentFilterValue this)
                         (dropdownFilterValue this) this).

(** [setHierarchyFilter(value)] *)
Definition setHierarchyFilter (this : Visual) (value : string) : option Visual :=
  let next := orNull value in
  if sameOpt (hierarchyFilterValue this) next then Some this
  else
    refilter (setFilters (searchQuery this) next (parentFilterValue this)
                         (dropdownFilterValue this) this).

(** [setParentFilter(value)] *)
Definition setParentFilter (this : Visual) (value : string) : option Visual :=
  let next := orNull value in
  if sameOpt (parentFilterValue this) next then Some this
  else
    refilter (setFilters (searchQuery this) (hierarchyFilterValue this) next
                         (dropdownFilterValue this) this).

(** [setDropdownFilter(value)] *)
Definition setDropdownFilter (this : Visual) (value : string) : option Visual :=
  let next := orNull value in
  if sameOpt (dropdownFilterValue this) next then Some this
  else
    refilter (setFilters (searchQuery this) (hierarchyFilterValue this)
                         (parentFilterValue this) next this).

(** [collapseAll()] *)
Definition collapseAll (this : Visual) : option Visual :=
  let collapsed :=
    fold_left (fun s k => StrSet.add k s) (StrMap.keys (childrenMap this)) StrSet.empty in
  r <- computeLayoutFromState treeLayout (setCollapsedIds collapsed this) true None ;;
  Some (snd r).

(** [expandAll()] *)
Definition expandAll (this : Visual) : option Visual :=
  r <- computeLayoutFromState treeLayout (setCollapsedIds StrSet.empty this) true None ;;
  Some (snd r).

End Mutators.

(** ** Pan and zoom *)

(** [zoomBy(factor)] *)
Definition zoomBy (this : Visual) (factor : Q) : Visual :=
  match viewMode this with
  | TableView => this
  | TreeView =>
      let prev := scale this in
      let next := Qmin (4#1) (Qmax (2#10) (scale this * factor)) in
      let cx := (lastViewportW this / (2#1))%Q in
      let cy := (lastViewportH this / (2#1))%Q in
      setTransform (cx - (cx - tx this) * (next / prev))%Q
                   (cy - (cy - ty this) * (next / prev))%Q
                   next this
  end.

(** The [commitZoom] closure of [createToolbar]; [num] is the parsed entry,
    [None] when [Number.isFinite(num)] fails. *)
Definition commitZoom (this : Visual) (num : option Q) : Visual :=
  match viewMode this with
  | TableView => this
  | TreeView =>
      match num with
      | None => this
      | Some num =>
          let clamped := Qmin (400#1) (Qmax (20#1) num) in
          let next := (clamped / (100#1))%Q in
          let prev := scale this in
          if Qeq_bool next prev then this
          else
            let cx := (lastViewportW this / (2#1))%Q in
            let cy := (lastViewportH this / (2#1))%Q in
            setTransform (cx - (cx - tx this) * (next / prev))%Q
                         (cy - (cy - ty this) * (next / prev))%Q
                         next this
      end
  end.

(** The [wheel] listener; [(mx, my)] is the pointer relative to the canvas. *)
Definition onWheel (this : Visual) (mx my deltaY : Q) : Visual :=
  match viewMode this with
  | TableView => this
  | TreeView =>
      let delta := (- deltaY)%Q in
      let zoomFactor := if Qgtb delta 0 then (11#10)%Q else (9#10)%Q in
      let prev := scale this in
      let next := Qmin (4#1) (Qmax (2#10) (scale this * zoomFactor)) in
      setTransform (mx - (mx - tx this) * (next / prev))%Q
                   (my - (my - ty this) * (next / prev))%Q
                   next this
  end.

(** The [dblclick] listener; [hit] is the node under the pointer, if any, and
    [toggleHit] whether the pointer is on its collapse toggle. *)
Definition onDblClick (this : Visual) (hit : option LayoutNode.t) (toggleHit : bool)
  : Visual :=
  match viewMode this with
  | TableView => this
  | TreeView =>
      if negb (allowInteractions this) then this
      else
        match hit with
        | None => this
        | Some node =>
            if toggleHit then this
            else
              let zoomPercent := Qmax (10#1) (doubleClickZoomPercent (settings this)) in
              let factor := (zoomPercent / (100#1))%Q in
              let next := Qmin (4#1) (Qmax (2#10) (scale this * factor)) in
              let cx := (lastViewportW this / (2#1))%Q in
              let cy := (lastViewportH this / (2#1))%Q in
              setTransform (cx - LayoutNode.x node * next)%Q
                           (cy - LayoutNode.y node * next)%Q
                           next this
        end
  end.

(** The panning branch of the [pointermove] listener. *)
Definition onPan (this : Visual) (dx dy : Q) : Visual :=
  match viewMode this with
  | TableView => this
  | TreeView => setTransform (tx this + dx)%Q (ty this + dy)%Q (scale this) this
  end.

(** The operations that write the view transform. *)
Inductive ViewOp :=
| OpFit
| OpWheel (mx my deltaY : Q)
| OpZoomIn
| OpZoomOut
| OpCommitZoom (num : option Q)
| OpDblClick (hit : option LayoutNode.t) (toggleHit : bool)
| OpPan (dx dy : Q)
| OpKeepNode (nodeId : string) (screenPoint : Q * Q).

Definition applyViewOp (this : Visual) (op : ViewOp) : Visual :=
  match op with
  | OpFit => fitToViewport this
  | OpWheel mx my deltaY => onWheel this mx my deltaY
  | OpZoomIn => zoomBy this (11#10)
  | OpZoomOut => zoomBy this (9#10)
  | OpCommitZoom num => commitZoom this num
  | OpDblClick hit toggleHit => onDblClick this hit toggleHit
  | OpPan dx dy => onPan this dx dy
  | OpKeepNode nodeId screenPoint => keepNodeScreenPosition this nodeId screenPoint
  end.

Definition scaleInRange (this : Visual) : Prop :=
  ((2#10) <= scale this)%Q /\ (scale this <= (4#1))%Q.

(** ** The zoom label *)


(** ** Hit testing *)

(** An entry of [this.nodeRects] and of [this.toggleRects]. *)
Record NodeRect := {
  rectNode : LayoutNode.t;
  rectX : Q;
  rectY : Q;
  rectW : Q;
  rectH : Q
}.

Record ToggleRect := {
  toggleNodeId : string;
  toggleX : Q;
  toggleY : Q;
  toggleW : Q;
  toggleH : Q
}.

(** The two rectangle lists that [renderTree] rebuilds for hit testing. *)
Record HitRects := {
  nodeRects : list NodeRect;
  toggleRects : list ToggleRect
}.

(** [(this.childrenMap.get(id)?.length ?? 0) > 0] *)
Definition hasChildren (cm : ChildrenMap) (id : string) : bool :=
  Nat.ltb 0 (match StrMap.get id cm with
             | Some a => List.length a
             | None => 0
             end).

(** The node loop of [renderTree], as far as it fills [nodeRects] and
    [toggleRects]; the drawing calls are left out. *)
Definition renderTree (this : Visual) : HitRects :=
  let s := settings this in
  fold_left
    (fun acc n =>
       let x := (LayoutNode.x n - cardWidth s / (2#1))%Q in
       let y := (LayoutNode.y n - cardHeight s / (2#1))%Q in
       let w := cardWidth s in
       let h := cardHeight s in
       let toggleSize := (14#1)%Q in
       let toggles :=
         if hasChildren (childrenMap this) (LayoutNode.id n) then
           let tW := toggleSize in
           let tH := toggleSize in
           let tX := (x + w - tW - (6#1))%Q in
           let tY := (y + (6#1))%Q in
           toggleRects acc ++
           [{| toggleNodeId := LayoutNode.id n;
               toggleX := tX; toggleY := tY; toggleW := tW; toggleH := tH |}]
         else toggleRects acc in
       {| nodeRects :=
            nodeRects acc ++
            [{| rectNode := n; rectX := x; rectY := y; rectW := w; rectH := h |}];
          toggleRects := toggles |})
    (nodes this) {| nodeRects := []; toggleRects := [] |}.

(** [wx >= x && wx <= x + w && wy >= y && wy <= y + h] *)
Definition inRect (wx wy x y w h : Q) : bool :=
  Qle_bool x wx && Qle_bool wx (x + w)%Q && Qle_bool y wy && Qle_bool wy (y + h)%Q.

(** [type Hit] *)
Record Hit := {
  hitNode : LayoutNode.t;
  worldX : Q;
  worldY : Q;
  localX : Q;
  localY : Q
}.

(** [hitTest(clientX, clientY)]; [(sx, sy)] is the pointer relative to the
    canvas.  The rectangles are scanned from the last one drawn. *)
Definition hitTest (this : Visual) (rects : HitRects) (sx sy : Q) : option Hit :=
  let wx := ((sx - tx this) / scale this)%Q in
  let wy := ((sy - ty this) / scale this)%Q in
  match find (fun r => inRect wx wy (rectX r) (rectY r) (rectW r) (rectH r))
             (rev (nodeRects rects)) with
  | Some r =>
      Some {| hitNode := rectNode r; worldX := wx; worldY := wy;
              localX := (wx - rectX r)%Q; localY := (wy - rectY r)%Q |}
  | None => None
  end.

(** [isToggleHit(nodeId, worldX, worldY)] *)
Definition isToggleHit (rects : HitRects) (nodeId : string) (wx wy : Q) : bool :=
  existsb
    (fun t =>
       String.eqb (toggleNodeId t) nodeId
       && inRect wx wy (toggleX t) (toggleY t) (toggleW t) (toggleH t))
    (rev (toggleRects rects)).


(** ** Keyboard focus *)

(** The focus and selection fields of [class Visual]. *)
Record Interaction := {
  focusedNodeId : option string;
  focusedIndex : nat;
  selectedIds : StrSet.t
}.

(** What a handler can end in: a new state, a [TypeError] (reading [.id] of
    [undefined]), or no return at all. *)
Inductive Outcome (A : Type) :=
| Ok (a : A)
| TypeError
| NoReturn.

Arguments Ok {A} a.
Arguments TypeError {A}.
Arguments NoReturn {A}.

(** [list.findIndex(p)]; [None] is [-1]. *)
Fixpoint findIndex {A} (p : A -> bool) (l : list A) : option nat :=
  match l with
  | [] => None
  | a :: rest =>
      if p a then Some 0
      else match findIndex p rest with Some i => Some (S i) | None => None end
  end.

(** [n.id === this.focusedNodeId] *)
Definition isFocused (focus : option string) (n : LayoutNode.t) : bool :=
  match focus with
  | Some f => String.eqb (LayoutNode.id n) f
  | None => false
  end.

(** [this.viewMode === "table" ? this.tableRows : this.nodes] *)
Definition focusList (this : Visual) : list LayoutNode.t :=
  match viewMode this with
  | TableView => tableRows this
  | TreeView => nodes this
  end.

(** [this.focusedNodeId = list[idx].id; this.focusedIndex = idx] *)
Definition focusAt (list : list LayoutNode.t) (idx : nat) (i : Interaction)
  : Outcome Interaction :=
  match nth_error list idx with
  | None => TypeError
  | Some n =>
      Ok {| focusedNodeId := Some (LayoutNode.id n); focusedIndex := idx;
            selectedIds := selectedIds i |}
  end.

(** [ensureFocus()] *)
Definition ensureFocus (this : Visual) (i : Interaction) : Outcome Interaction :=
  let list := focusList this in
  if Nat.eqb (List.length list) 0 then
    Ok {| focusedNodeId := None; focusedIndex := 0; selectedIds := selectedIds i |}
  else
    let idx :=
      match findIndex (isFocused (focusedNodeId i)) list with
      | Some idx => idx
      | None => 0
      end in
    focusAt list idx i.

Definition keyIn (key : string) (keys : list string) : bool :=
  existsb (String.eqb key) keys.

Section Keyboard.

Variable treeLayout : Q -> Q -> D3.HierarchyNode -> NodeRow.t -> Q * Q.

(** [onKeyDown(e)], on [e.key]. *)
Definition onKeyDown (this : Visual) (i : Interaction) (key : string)
  : Outcome (Visual * Interaction) :=
  let list := focusList this in
  if Nat.eqb (List.length list) 0 then Ok (this, i)
  else
    let idx :=
      match findIndex (isFocused (focusedNodeId i)) list with
      | Some idx => idx
      | None => 0
      end in
    let move (idx : nat) :=
      match focusAt list idx i with
      | Ok i' => Ok (this, i')
      | TypeError => TypeError
      | NoReturn => NoReturn
      end in
    if keyIn key ["ArrowDown"; "ArrowRight"] then
      move (Nat.min (List.length list - 1) (idx + 1))
    else if keyIn key ["ArrowUp"; "ArrowLeft"] then
      move (Nat.max 0 (idx - 1))
    else if String.eqb key "Home" then move 0
    else if String.eqb key "End" then move (List.length list - 1)
    else if keyIn key ["Enter"; " "] then
      if negb (allowInteractions this) then Ok (this, i)
      else
        match nth_error list idx with
        | None => TypeError
        | Some n =>
            Ok (this,
                {| focusedNodeId := Some (LayoutNode.id n); focusedIndex := idx;
                   selectedIds := StrSet.add (LayoutNode.id n) StrSet.empty |})
        end
    else if keyIn key ["+"; "="] then
      match nth_error list idx with
      | None => TypeError
      | Some n =>
          let i' := {| focusedNodeId := Some (LayoutNode.id n); focusedIndex := idx;
                       selectedIds := selectedIds i |} in
          if StrSet.has (LayoutNode.id n) (collapsedIds this) then
            match toggleCollapse treeLayout this (LayoutNode.id n) with
            | Some this' => Ok (this', i')
            | None => NoReturn
            end
          else Ok (this, i')
      end
    else if keyIn key ["-"; "_"] then
      match nth_error list idx with
      | None => TypeError
      | Some n =>
          let i' := {| focusedNodeId := Some (LayoutNode.id n); focusedIndex := idx;
                       selectedIds := selectedIds i |} in
          if negb (StrSet.has (LayoutNode.id n) (collapsedIds this)) then
            match toggleCollapse treeLayout this (LayoutNode.id n) with
            | Some this' => Ok (this', i')
            | None => NoReturn
            end
          else Ok (this, i')
      end
    else Ok (this, i).

End Keyboard.

(** ** The data path of [update]: cache and expansion *)

(** A value of a measure column: [number | string]. *)
Inductive Scalar :=
| Num (q : Q)
| Str (s : string).

(** A [NodeRow] with the display payload that [NodeRow.t] leaves out;
    [selectionId] is identified by the index it was built from. *)
Record DataRow := {
  row : NodeRow.t;
  value : option Scalar;
  sparkline : option Scalar;
  tooltip : option Scalar;
  selectionId : nat
}.

Definition rowId (r : DataRow) : string := NodeRow.id (row r).

(** [hasAllIds(baseRows, subset)] *)
Definition hasAllIds (baseRows subset : list DataRow) : bool :=
  let ids := idSetOf (map row baseRows) in
  forallb (fun r => StrSet.has (rowId r) ids) subset.

(** [expandRowsForFilter(filteredRows, fullRows)], reading
    [this.fullChildrenMap]. *)
Definition expandRowsForFilter (fullChildrenMap : ChildrenMap)
    (filteredRows fullRows : list DataRow) : option (list DataRow) :=
  if Nat.eqb (List.length filteredRows) 0 then Some []
  else
    let fullById := indexById (map row fullRows) in
    let filteredById :=
      fold_left (fun m r => StrMap.set (rowId r) r m) filteredRows [] in
    rootIds <-
      fold_left
        (fun acc r =>
           s <- acc ;;
           top <- climbToRoot (climbFuel (map row fullRows)) fullById (rowId r) ;;
           Some (StrSet.add top s))
        filteredRows (Some StrSet.empty) ;;
    let stack := rev rootIds in
    include <-
      walk (stackFuel fullChildrenMap stack) fullChildrenMap StrSet.empty stack
        StrSet.empty ;;
    Some
      (map
         (fun r =>
            match StrMap.get (rowId r) filteredById with
            | None =>
                {| row := row r; value := None; sparkline := None; tooltip := None;
                   selectionId := selectionId r |}
            | Some filtered =>
                {| row := row r; value := value filtered;
                   sparkline := sparkline filtered; tooltip := tooltip filtered;
                   selectionId := selectionId filtered |}
            end)
         (filter (fun r => StrSet.has (rowId r) include) fullRows)).

Module DataStore.

(** What [this.childrenMap] refers to: the very [Map] object held by
    [this.fullChildrenMap], or a [Map] of its own. *)
Inductive MapRef :=
| SharedWithFull
| Own (m : ChildrenMap).

(** The data fields of [class Visual] that [update] writes. *)
Record t := mk {
  fullRows : list DataRow;
  fullChildrenMap : ChildrenMap;
  allRows : list DataRow;
  childrenMap : MapRef
}.

(** The field initialisers: two distinct empty maps. *)
Definition init : t :=
  {| fullRows := []; fullChildrenMap := []; allRows := []; childrenMap := Own [] |}.

(** The map that a read of [this.childrenMap] sees. *)
Definition readChildrenMap (s : t) : ChildrenMap :=
  match childrenMap s with
  | SharedWithFull => fullChildrenMap s
  | Own m => m
  end.

(** The data path of [update(options)]: [model] is what [parseDataView]
    returned ([[]] also standing for [null]) and [isFiltered] is
    [dv.metadata.isDataFilterApplied === true]. *)
Definition updateData (s : t) (isFiltered : bool) (model : list DataRow) : option t :=
  if Nat.eqb (List.length model) 0 then
    (* this.allRows = []; this.childrenMap.clear(); *)
    Some
      match childrenMap s with
      | SharedWithFull =>
          {| fullRows := fullRows s; fullChildrenMap := [];
             allRows := []; childrenMap := SharedWithFull |}
      | Own _ =>
          {| fullRows := fullRows s; fullChildrenMap := fullChildrenMap s;
             allRows := []; childrenMap := Own [] |}
      end
  else
    let hasCache := Nat.ltb 0 (List.length (fullRows s)) in
    let reduced := hasCache && Nat.ltb (List.length model) (List.length (fullRows s)) in
    let canUseCache := isFiltered && hasCache && reduced && hasAllIds (fullRows s) model in
    let fullRows' := if canUseCache then fullRows s else model in
    let fullChildrenMap' :=
      if canUseCache then fullChildrenMap s else buildChildrenMap (map row model) in
    allRows' <-
      (if canUseCache then expandRowsForFilter fullChildrenMap' model fullRows'
       else Some model) ;;
    Some
      {| fullRows := fullRows'; fullChildrenMap := fullChildrenMap';
         allRows := allRows';
         childrenMap :=
           if Nat.ltb 0 (List.length fullChildrenMap') then SharedWithFull
           else Own (buildChildrenMap (map row allRows')) |}.

End DataStore.

(** ** The sparkline range *)

(** [typeof v === "number" && Number.isFinite(v)] *)
Definition finiteNumber (v : option Scalar) : option Q :=
  match v with
  | Some (Num q) => Some q
  | _ => None
  end.

(** [Math.min(...values)] and [Math.max(...values)] on a non-empty array;
    [None] stands for the infinite result on an empty one. *)
Definition mathMin (values : list Q) : option Q :=
  match values with
  | [] => None
  | v :: vs => Some (fold_left Qmin vs v)
  end.

Definition mathMax (values : list Q) : option Q :=
  match values with
  | [] => None
  | v :: vs => Some (fold_left Qmax vs v)
  end.

(** [setSparklineRange(rows)]: the new [(sparklineMin, sparklineMax)]. *)
Definition setSparklineRange (rows : list DataRow) : option Q * option Q :=
  let values :=
    fold_left
      (fun values r =>
         match finiteNumber (sparkline r) with
         | Some q => values ++ [q]
         | None => values
         end)
      rows [] in
  if Nat.eqb (List.length values) 0 then (None, None)
  else (mathMin values, mathMax values).

(** The fraction of the indicator line that [renderTree] draws for a numeric
    sparkline [v]: [range === 0 ? 1 : (v - min) / range], before clamping;
    [None] when [sparklineMin] is [null]. *)
Definition sparklineFraction (range : option Q * option Q) (v : Q) : option Q :=
  match fst range with
  | None => None
  | Some mn =>
      let mx := match snd range with Some mx => mx | None => mn end in
      let range := (mx - mn)%Q in
      Some (if Qeq_bool range 0 then (1#1)%Q else ((v - mn) / range)%Q)
  end.

(** ** Definitions used by the statements and their proofs *)

(** Child entries still to be pushed: those listed under a key not yet seen. *)
Fixpoint pending (cm : ChildrenMap) (seen : StrSet.t) : nat :=
  match cm with
  | [] => 0
  | (k, vs) :: m => (if StrSet.has k seen then 0 else List.length vs) + pending m seen
  end.

(** Children not yet included, counted with repetitions. *)
Definition fresh (cm : ChildrenMap) (include : StrSet.t) : nat :=
  List.length (filter (fun c => negb (StrSet.has c include)) (allChildren cm)).

(** The state that the filter stage and the walk read, collapse set apart. *)
Definition sameInputs (v v' : Visual) : Prop :=
  allRows v' = allRows v /\
  childrenMap v' = childrenMap v /\
  searchQuery v' = searchQuery v /\
  hierarchyFilterValue v' = hierarchyFilterValue v /\
  parentFilterValue v' = parentFilterValue v /\
  dropdownFilterValue v' = dropdownFilterValue v.

Definition toggled (nodeId : string) (c : StrSet.t) : StrSet.t :=
  if StrSet.has nodeId c then StrSet.delete nodeId c else StrSet.add nodeId c.

(** [DefaultLayoutSettings] and the default of
    [controls.doubleClickZoomPercent]. *)
Definition DefaultVisualSettings : VisualSettings :=
  {| orientation := TD;
     levelSpacing := (70#1)%Q;
     siblingSpacing := (18#1)%Q;
     cardWidth := (120#1)%Q;
     cardHeight := (40#1)%Q;
     doubleClickZoomPercent := (130#1)%Q |}.

(** The field initialisers of [class Visual]. *)
Definition newVisual : Visual :=
  {| settings := DefaultVisualSettings; viewMode := TreeView;
     tx := (20#1)%Q; ty := (20#1)%Q; scale := (1#1)%Q;
     nodes := []; links := []; tableRows := [];
     lastViewportW := (0#1)%Q; lastViewportH := (0#1)%Q;
     searchQuery := "";
     hierarchyFilterValue := None;
     parentFilterValue := None;
     dropdownFilterValue := None;
     allRows := []; childrenMap := [];
     collapsedIds := StrSet.empty;
     allowInteractions := true; message := None |}.

(** What [update] stores for a data view it does not serve from the cache:
    [allRows = model], [childrenMap = buildChildrenMap(model)], and the
    viewport size. *)
Definition setData (w h : Q) (model : list NodeRow.t) (v : Visual) : Visual :=
  {| settings := settings v; viewMode := viewMode v;
     tx := tx v; ty := ty v; scale := scale v;
     nodes := nodes v; links := links v; tableRows := tableRows v;
     lastViewportW := w; lastViewportH := h;
     searchQuery := searchQuery v;
     hierarchyFilterValue := hierarchyFilterValue v;
     parentFilterValue := parentFilterValue v;
     dropdownFilterValue := dropdownFilterValue v;
     allRows := model; childrenMap := buildChildrenMap model;
     collapsedIds := collapsedIds v;
     allowInteractions := allowInteractions v; message := message v |}.

(** A row as [parseDataView] builds it without field or dropdown columns:
    the label is the id. *)
Definition plainRow (id : string) (parentId : option string) : NodeRow.t :=
  NodeRow.mk id parentId id None.

(** Stand-in for the tidy-tree positions in closed examples. *)
Definition originLayout : Q -> Q -> D3.HierarchyNode -> NodeRow.t -> Q * Q :=
  fun _ _ _ _ => ((0#1)%Q, (0#1)%Q).

Definition syntheticRow : NodeRow.t := NodeRow.mk syntheticRootId None "All" None.

(** [working] and [syntheticRootId] as [computeLayout] has them before
    [stratify] runs. *)
Definition workingSet (rows : list NodeRow.t) : list NodeRow.t * option string :=
  let roots := filter (isRootIn (idSetOf rows)) rows in
  if negb (Nat.eqb (List.length roots) 1) then
    (fold_left (fun w r => reparentFirst (NodeRow.id r) w) roots (rows ++ [syntheticRow]),
     Some syntheticRootId)
  else (rows, None).

(** A root as it sits in the working set once the synthetic root is there. *)
Definition underSynthetic (idSet : StrSet.t) (r : NodeRow.t) : NodeRow.t :=
  if isRootIn idSet r then NodeRow.withParent (Some syntheticRootId) r else r.

(** The part of a layout node fixed by the hierarchy alone. *)
Definition nodeShape (n : LayoutNode.t) : string * Z :=
  (LayoutNode.id n, LayoutNode.depth n).

Definition linkShape (l : Link) : (string * Z) * (string * Z) :=
  (nodeShape (source l), nodeShape (target l)).

Definition keepId (sroot : option string) (i : string) : bool :=
  match sroot with
  | Some sid => negb (String.eqb i sid)
  | None => true
  end.

Definition depthOffset (sroot : option string) : Z :=
  match sroot with Some _ => 1%Z | None => 0%Z end.

Definition nodeShapes (h : D3.HierarchyNode) (sroot : option string) : list (string * Z) :=
  filter (fun s => keepId sroot (fst s))
    (map (fun nd => (NodeRow.id (fst nd), (Z.of_nat (snd nd) - depthOffset sroot)%Z))
         (D3.eachBefore h)).

Definition linkShapes (h : D3.HierarchyNode) (sroot : option string)
  : list ((string * Z) * (string * Z)) :=
  filter (fun s => keepId sroot (fst (fst s)))
    (flat_map
       (fun nd =>
          map (fun c => ((NodeRow.id (fst nd), (Z.of_nat (snd nd) - depthOffset sroot)%Z),
                         (NodeRow.id c, (Z.of_nat (S (snd nd)) - depthOffset sroot)%Z)))
              (D3.kids (D3.data h) (fst nd)))
       (D3.each h)).

(** The depth of a row in the forest of the visible rows: 0 for a root (no
    parent, or a parent that is not visible), one more than its parent's
    otherwise. *)
Inductive RealDepth (rows : list NodeRow.t) : NodeRow.t -> nat -> Prop :=
| depth_root r :
    In r rows -> isRootIn (idSetOf rows) r = true -> RealDepth rows r 0
| depth_child r p d :
    In r rows -> In p rows -> NodeRow.parentKey r = Some (NodeRow.id p) ->
    RealDepth rows p d -> RealDepth rows r (S d).

(** What the traversals of the working set maintain: the synthetic root sits
    at depth 0, and a real row one level below its real depth. *)
Definition shifted (rows : list NodeRow.t) (m : NodeRow.t) (k : nat) : Prop :=
  (m = syntheticRow /\ k = 0) \/
  exists m0 j, In m0 rows /\ NodeRow.id m0 = NodeRow.id m /\ k = S j /\ RealDepth rows m0 j.

(** A layout node that stands for a row of [rows] at its real depth. *)
Definition realNode (rows : list NodeRow.t) (n : LayoutNode.t) : Prop :=
  LayoutNode.id n <> syntheticRootId /\
  exists row d, In row rows /\ NodeRow.id row = LayoutNode.id n /\
                RealDepth rows row d /\ LayoutNode.depth n = Z.of_nat d.

Definition exampleRows : list NodeRow.t :=
  [plainRow "A" None; plainRow "B" (Some "A"); plainRow "C" (Some "A");
   plainRow "D" (Some "B")].

(** A fresh visual that has received [rows] in an 800 by 600 viewport. *)
Definition visualOf (rows : list NodeRow.t) : Visual :=
  setData (800#1)%Q (600#1)%Q rows newVisual.

Definition exampleVisual : Visual := visualOf exampleRows.

Definition twoRootRows : list NodeRow.t := [plainRow "A" None; plainRow "B" None].


Definition unresolvedRows : list NodeRow.t :=
  [plainRow "A" None; plainRow "B" (Some "X")].

(** One row whose dropdown tag starts with a blank. *)
Definition taggedRows : list NodeRow.t := [NodeRow.mk "A" None "A" (Some " x")].

(** The members of the visible set: the ids of the rows [computeVisibleRows]
    returns. *)
Definition visibleIds (v : Visual) : option (list string) :=
  option_map (map NodeRow.id) (computeVisibleRows v (allRows v) (collapsedIds v)).

(** Parent references are well founded: some ranking of the ids goes down
    from every row to its parent, whenever that parent is the id of a row. *)
Definition WellRanked (rows : list NodeRow.t) : Prop :=
  exists rank : string -> nat,
    forall r p,
      In r rows -> NodeRow.parentKey r = Some p -> In p (map NodeRow.id rows) ->
      rank p < rank (NodeRow.id r).

(** The ids already walked through are distinct ids of rows, all ranked above
    the current one; so the walk is over before the fuel is. *)
Definition walkedThrough (rows : list NodeRow.t) (rank : string -> nat)
    (cur : string) (seen : list string) : Prop :=
  NoDup seen /\ incl seen (map NodeRow.id rows) /\
  forall s, In s seen -> rank cur < rank s.

(** [ClimbsIn byId n cur top]: started at [cur], the loop
    [while (true) { ...break; currentId = parentId }] leaves through its
    [break] after [n] moves, with [currentId = top]. *)
Inductive ClimbsIn (byId : StrMap.t NodeRow.t) : nat -> string -> string -> Prop :=
| climbs_stop cur :
    stepUp byId cur = None -> ClimbsIn byId 0 cur cur
| climbs_up n cur p top :
    stepUp byId cur = Some p -> ClimbsIn byId n p top -> ClimbsIn byId (S n) cur top.

(** ** Definitions used by the further statements *)

(** The ids the reachability walk can reach from [starts]: the starts, and
    the children (in the index) of a reached id that is not collapsed. *)
Inductive Reachable (cm : ChildrenMap) (collapsed : StrSet.t) (starts : list string)
  : string -> Prop :=
| reach_start x : In x starts -> Reachable cm collapsed starts x
| reach_child u x :
    Reachable cm collapsed starts u ->
    StrSet.has u collapsed = false ->
    In x (childrenOf cm u) ->
    Reachable cm collapsed starts x.

(** The ids below [a] in the children index, [a] included. *)
Inductive Below (cm : ChildrenMap) (a : string) : string -> Prop :=
| below_self : Below cm a a
| below_child u x : Below cm a u -> In x (childrenOf cm u) -> Below cm a x.

(** The ids the ancestor walk passes through from [cur], [cur] included. *)
Inductive Above (byId : StrMap.t NodeRow.t) (cur : string) : string -> Prop :=
| above_self : Above byId cur cur
| above_parent a p : Above byId cur a -> stepUp byId a = Some p -> Above byId cur p.

(** The roots of a row set, as [computeVisibleRows] and [computeLayout] pick
    them. *)
Definition rootsOf (rows : list NodeRow.t) : list NodeRow.t :=
  filter (isRootIn (idSetOf rows)) rows.

(** The test of [applySearchFilter] on one row. *)
Definition searchMatches (query : string) (r : NodeRow.t) : bool :=
  Js.includes (Js.toLowerCase (Js.trim query)) (Js.toLowerCase (NodeRow.label r)).

(** The collapse set [collapseAll] installs: [new Set(this.childrenMap.keys())]. *)
Definition allParentIds (cm : ChildrenMap) : StrSet.t :=
  fold_left (fun s k => StrSet.add k s) (StrMap.keys cm) StrSet.empty.

(** A data view index with two field columns and padded values. *)
Definition paddedRaw : RawRow :=
  {| rawId := Some " B "; rawParent := Some "  ";
     rawFields := [Some " x "; None; Some "y"]; rawDropdown := None |}.

(** The root candidate that [filterToDropdownBranch] records for a matching
    row: [r.parentId && byId.has(r.parentId) ? r.parentId : r.id]. *)
Definition dropdownCandidate (byId : StrMap.t NodeRow.t) (r : NodeRow.t) : string :=
  match NodeRow.parentKey r with
  | Some p => if StrMap.has p byId then p else NodeRow.id r
  | None => NodeRow.id r
  end.

(** The edges of a node's card in layout coordinates, as [fitToViewport]
    ([x0], [y0], [x1], [y1]) and [renderTree] ([x], [y], [x + w], [y + h])
    compute them. *)
Definition cardLeft (s : VisualSettings) (n : LayoutNode.t) : Q :=
  (LayoutNode.x n - cardWidth s / (2#1))%Q.

Definition cardTop (s : VisualSettings) (n : LayoutNode.t) : Q :=
  (LayoutNode.y n - cardHeight s / (2#1))%Q.

Definition cardRight (s : VisualSettings) (n : LayoutNode.t) : Q :=
  (cardLeft s n + cardWidth s)%Q.

Definition cardBottom (s : VisualSettings) (n : LayoutNode.t) : Q :=
  (cardTop s n + cardHeight s)%Q.

(** Where a layout point is drawn under the view transform. *)
Definition toScreenX (this : Visual) (x : Q) : Q := (x * scale this + tx this)%Q.
Definition toScreenY (this : Visual) (y : Q) : Q := (y * scale this + ty this)%Q.

(** What one of the four filter setters leaves of the state the pipeline
    reads: the data and the collapse set as they were, the filters as
    given. *)
Definition inputsWith (q : string) (h p d : option string) (v v' : Visual) : Prop :=
  allRows v' = allRows v /\
  childrenMap v' = childrenMap v /\
  collapsedIds v' = collapsedIds v /\
  searchQuery v' = q /\
  hierarchyFilterValue v' = h /\
  parentFilterValue v' = p /\
  dropdownFilterValue v' = d.

(** The example rows laid out (at the origin) in a fresh visual. *)
Definition laidOutExample : Visual :=
  snd (computeLayout originLayout exampleVisual exampleRows false).

(** Two cards side by side in an 800 by 600 viewport. *)
Definition twoCards : Visual :=
  setOutputs
    [LayoutNode.mk "A" "A" (0#1)%Q (0#1)%Q 0%Z; LayoutNode.mk "B" "B" (138#1)%Q (0#1)%Q 0%Z]
    [] [] (visualOf twoRootRows).

(** A fresh interaction state: no focus, nothing selected. *)
Definition newInteraction : Interaction :=
  {| focusedNodeId := None; focusedIndex := 0; selectedIds := StrSet.empty |}.

(** A row without measures, selected by its position. *)
Definition bareRow (id : string) (parentId : option string) (i : nat) : DataRow :=
  {| row := plainRow id parentId; value := None; sparkline := None; tooltip := None;
     selectionId := i |}.

(** The example rows as a data view delivers them. *)
Definition exampleData : list DataRow :=
  [bareRow "A" None 0; bareRow "B" (Some "A") 1; bareRow "C" (Some "A") 2;
   bareRow "D" (Some "B") 3].

(** What a filter on D delivers: the one row, now with a value. *)
Definition filteredData : list DataRow :=
  [{| row := plainRow "D" (Some "B"); value := Some (Num (7#1)%Q); sparkline := None;
      tooltip := None; selectionId := 0 |}].

(** Three rows, two of them with a numeric sparkline. *)
Definition sparkRows : list DataRow :=
  [{| row := plainRow "A" None; value := None; sparkline := Some (Num (3#1)%Q);
      tooltip := None; selectionId := 0 |};
   {| row := plainRow "B" (Some "A"); value := None; sparkline := Some (Str "n/a");
      tooltip := None; selectionId := 1 |};
   {| row := plainRow "C" (Some "A"); value := None; sparkline := Some (Num (9#1)%Q);
      tooltip := None; selectionId := 2 |}].

(** * Properties *)

(** ** Sets and maps *)

Lemma has_In (x : string) (s : StrSet.t) : StrSet.has x s = true <-> In x s.
Proof.
  unfold StrSet.has. rewrite existsb_exists. split.
  - intros [y [Hin Heq]]. apply String.eqb_eq in Heq. now subst.
  - intros Hin. exists x. split; [assumption | apply String.eqb_refl].
Qed.

Lemma has_false_not_In (x : string) (s : StrSet.t) : StrSet.has x s = false <-> ~ In x s.
Proof.
  rewrite <- has_In. destruct (StrSet.has x s); split; congruence.
Qed.

Lemma has_app (x : string) (s1 s2 : StrSet.t) :
  StrSet.has x (s1 ++ s2) = StrSet.has x s1 || StrSet.has x s2.
Proof. unfold StrSet.has. apply existsb_app. Qed.

Lemma has_add (x y : string) (s : StrSet.t) :
  StrSet.has x (StrSet.add y s) = String.eqb x y || StrSet.has x s.
Proof.
  unfold StrSet.add. destruct (StrSet.has y s) eqn:Hy.
  - destruct (String.eqb_spec x y) as [->|]; simpl; [now rewrite Hy | reflexivity].
  - rewrite has_app. simpl. rewrite orb_false_r. apply orb_comm.
Qed.

Lemma has_delete (x y : string) (s : StrSet.t) :
  StrSet.has x (StrSet.delete y s) = negb (String.eqb x y) && StrSet.has x s.
Proof.
  unfold StrSet.delete, StrSet.has. induction s as [|z s IH]; simpl.
  - now rewrite andb_false_r.
  - destruct (String.eqb_spec y z) as [->|Hyz]; simpl.
    + rewrite IH. destruct (String.eqb_spec x z); simpl; reflexivity.
    + rewrite IH. destruct (String.eqb_spec x z) as [->|]; simpl; [|reflexivity].
      destruct (String.eqb_spec z y); [congruence | reflexivity].
Qed.

Lemma get_set {V} (k k' : string) (v : V) (m : StrMap.t V) :
  StrMap.get k (StrMap.set k' v m) = if String.eqb k k' then Some v else StrMap.get k m.
Proof.
  induction m as [|[k0 v0] m IH]; simpl.
  - reflexivity.
  - destruct (String.eqb_spec k' k0) as [->|Hk]; simpl.
    + destruct (String.eqb k k0); reflexivity.
    + rewrite IH. destruct (String.eqb_spec k k0) as [->|]; [|reflexivity].
      destruct (String.eqb_spec k0 k'); [congruence | reflexivity].
Qed.

Lemma find_over_app {A} (f : A -> bool) (l1 l2 : list A) :
  find f (l1 ++ l2) = match find f l1 with Some a => Some a | None => find f l2 end.
Proof.
  induction l1 as [|a l1 IH]; simpl; [reflexivity|].
  destruct (f a); [reflexivity | exact IH].
Qed.

Lemma get_indexById_acc (k : string) (rows : list NodeRow.t) (m : StrMap.t NodeRow.t) :
  StrMap.get k (fold_left (fun m r => StrMap.set (NodeRow.id r) r m) rows m) =
  match find (fun r => String.eqb k (NodeRow.id r)) (rev rows) with
  | Some r => Some r
  | None => StrMap.get k m
  end.
Proof.
  revert m. induction rows as [|r rows IH]; intros m; simpl.
  - reflexivity.
  - rewrite IH, find_over_app.
    destruct (find _ (rev rows)); [reflexivity|]. simpl.
    rewrite get_set. destruct (String.eqb k (NodeRow.id r)); reflexivity.
Qed.

(** [byId.get(k)] is the last row carrying the id [k]. *)
Lemma get_indexById (k : string) (rows : list NodeRow.t) :
  StrMap.get k (indexById rows) = find (fun r => String.eqb k (NodeRow.id r)) (rev rows).
Proof.
  unfold indexById. rewrite get_indexById_acc. simpl.
  destruct (find _ (rev rows)); reflexivity.
Qed.

Lemma get_indexById_Some (k : string) (rows : list NodeRow.t) (r : NodeRow.t) :
  StrMap.get k (indexById rows) = Some r -> In r rows /\ NodeRow.id r = k.
Proof.
  rewrite get_indexById. intros H. apply find_some in H. destruct H as [Hin Heq].
  apply String.eqb_eq in Heq. split; [now apply in_rev | now symmetry].
Qed.

Lemma has_indexById (k : string) (rows : list NodeRow.t) :
  StrMap.has k (indexById rows) = true <-> In k (map NodeRow.id rows).
Proof.
  unfold StrMap.has. rewrite get_indexById. split.
  - destruct (find _ (rev rows)) eqn:Hf; [|discriminate]. intros _.
    apply find_some in Hf. destruct Hf as [Hin Heq]. apply String.eqb_eq in Heq.
    subst k. apply in_map. now apply in_rev.
  - intros Hin. apply in_map_iff in Hin. destruct Hin as [r [Heq Hin]].
    destruct (find _ (rev rows)) eqn:Hf; [reflexivity|].
    apply in_rev in Hin. apply (find_none _ _ Hf r) in Hin.
    subst k. now rewrite String.eqb_refl in Hin.
Qed.

Lemma has_idSetOf_acc (k : string) (rows : list NodeRow.t) (s : StrSet.t) :
  StrSet.has k (fold_left (fun s r => StrSet.add (NodeRow.id r) s) rows s) =
  StrSet.has k s || StrSet.has k (map NodeRow.id rows).
Proof.
  revert s. induction rows as [|r rows IH]; intros s; simpl.
  - now rewrite orb_false_r.
  - rewrite IH, has_add. destruct (String.eqb k (NodeRow.id r)), (StrSet.has k s); reflexivity.
Qed.

Lemma has_idSetOf (k : string) (rows : list NodeRow.t) :
  StrSet.has k (idSetOf rows) = true <-> In k (map NodeRow.id rows).
Proof.
  unfold idSetOf. rewrite has_idSetOf_acc. simpl. apply has_In.
Qed.

(** ** Row ingestion *)

Lemma parseDataView_acc (raws : list RawRow) (acc : list NodeRow.t) (r : NodeRow.t) :
  In r (fold_left
          (fun rows raw =>
             match parseRow raw with
             | Some r => rows ++ [r]
             | None => rows
             end) raws acc) ->
  In r acc \/ exists raw, In raw raws /\ parseRow raw = Some r.
Proof.
  revert acc. induction raws as [|raw raws IH]; intros acc Hin; simpl in Hin; [now left|].
  apply IH in Hin. destruct Hin as [Hin|[raw' [Hraw Hp]]].
  - destruct (parseRow raw) as [r'|] eqn:Hp; [|now left].
    apply in_app_iff in Hin. destruct Hin as [Hin|[<-|[]]]; [now left|].
    right. exists raw. split; [now left | assumption].
  - right. exists raw'. split; [now right | assumption].
Qed.

(** Ingestion yields rows with a non-empty id and a parent reference that is
    [null] or non-empty. *)
Lemma parseDataView_rows (raws : list RawRow) (r : NodeRow.t) :
  In r (parseDataView raws) ->
  NodeRow.id r <> "" /\ NodeRow.parentKey r = NodeRow.parentId r.
Proof.
  intros Hin. apply parseDataView_acc in Hin. destruct Hin as [[]|[raw [_ Hp]]].
  unfold parseRow in Hp.
  destruct (Js.truthy (Js.trim _)) eqn:Hid; [|discriminate]. cbn [negb] in Hp.
  injection Hp as <-. cbn [NodeRow.id NodeRow.parentId]. split.
  - unfold Js.truthy in Hid. apply negb_true_iff, String.eqb_neq in Hid. exact Hid.
  - unfold NodeRow.parentKey. cbn [NodeRow.parentId].
    destruct (rawParent raw) as [p|]; [|reflexivity].
    destruct (String.eqb (Js.trim p) "") eqn:Hp; [reflexivity|].
    simpl. unfold Js.truthy. now rewrite Hp.
Qed.

Lemma parseDataView_ids_nonempty (raws : list RawRow) :
  ~ In "" (map NodeRow.id (parseDataView raws)).
Proof.
  intros Hin. apply in_map_iff in Hin. destruct Hin as [r [Hid Hr]].
  apply parseDataView_rows in Hr. destruct Hr as [Hne _]. contradiction.
Qed.

(** Without field and dropdown columns the label of a row is its id: the
    rows A, B (under A), C (under A), D (under B) come out as [exampleRows]. *)
Lemma parseDataView_example :
  parseDataView
    [ {| rawId := Some "A"; rawParent := None; rawFields := []; rawDropdown := None |};
      {| rawId := Some "B"; rawParent := Some "A"; rawFields := []; rawDropdown := None |};
      {| rawId := Some "C"; rawParent := Some "A"; rawFields := []; rawDropdown := None |};
      {| rawId := Some "D"; rawParent := Some "B"; rawFields := []; rawDropdown := None |} ]
  = exampleRows.
Proof. reflexivity. Qed.

(** ** The hierarchy filter on an unknown id *)

(** C10: a hierarchy-filter id that is the id of no row of the current row
    set makes [filterToNodeBranch] return that row set unchanged. *)
Theorem filterToNodeBranch_unknown_id :
  forall (cm : ChildrenMap) (rows : list NodeRow.t) (nodeId : string),
    ~ In nodeId (map NodeRow.id rows) ->
    filterToNodeBranch cm rows nodeId = Some rows.
Proof.
  intros cm rows nodeId Hnot. unfold filterToNodeBranch.
  destruct (StrMap.has nodeId (indexById rows)) eqn:Hhas; [|reflexivity].
  apply has_indexById in Hhas. contradiction.
Qed.

Lemma filterToNodeBranch_unknown_id_witness :
  filterToNodeBranch (buildChildrenMap exampleRows) exampleRows "Z" = Some exampleRows.
Proof.
  apply (filterToNodeBranch_unknown_id (buildChildrenMap exampleRows) exampleRows "Z").
  simpl. intros [H|[H|[H|[H|[]]]]]; discriminate H.
Defined.

(** ** Zoom anchoring and the scale range *)

Local Open Scope Q_scope.

(** The algebra behind every anchored zoom: with the new translate
    [a - (a - t0) * (s1 / s0)], the layout point under the anchor stays put. *)
Lemma anchor_fixed (s0 t0 a s1 p : Q) :
  ~ s0 == 0 ->
  p * s0 + t0 == a ->
  p * s1 + (a - (a - t0) * (s1 / s0)) == a.
Proof.
  intros Hs0 Hp. rewrite <- Hp. field. exact Hs0.
Qed.

Lemma clamp_in_range (s : Q) :
  (2#10) <= Qmin (4#1) (Qmax (2#10) s) /\ Qmin (4#1) (Qmax (2#10) s) <= (4#1).
Proof.
  split.
  - apply Q.min_glb; [discriminate | apply Q.le_max_l].
  - apply Q.le_min_l.
Qed.

Lemma fit_scale_in_range (s : Q) :
  (2#10) <= Qmin (2#1) (Qmax (2#10) s) /\ Qmin (2#1) (Qmax (2#10) s) <= (2#1).
Proof.
  split.
  - apply Q.min_glb; [discriminate | apply Q.le_max_l].
  - apply Q.le_min_l.
Qed.

Lemma percent_in_range (num : Q) :
  (2#10) <= Qmin (400#1) (Qmax (20#1) num) / (100#1) /\
  Qmin (400#1) (Qmax (20#1) num) / (100#1) <= (4#1).
Proof.
  split.
  - apply Qle_shift_div_l; [reflexivity|].
    apply Q.min_glb; [discriminate|].
    apply Qle_trans with (20#1); [discriminate | apply Q.le_max_l].
  - apply Qle_shift_div_r; [reflexivity|].
    apply Qle_trans with (400#1); [apply Q.le_min_l | discriminate].
Qed.

(** What [fitToViewport] does to the scale: nothing, or a value in [0.2, 2]. *)
Lemma fitToViewport_scale (v : Visual) :
  fitToViewport v = v \/
  ((2#10) <= scale (fitToViewport v) /\ scale (fitToViewport v) <= (2#1)).
Proof.
  unfold fitToViewport.
  destruct (_ || _ || _); [now left|].
  destruct (fold_left _ _ _) as [[[[minX minY] maxX] maxY]|]; [|now left].
  right. simpl. apply fit_scale_in_range.
Qed.

Lemma fitToViewport_in_range (v : Visual) :
  scaleInRange v -> scaleInRange (fitToViewport v).
Proof.
  intros Hv. destruct (fitToViewport_scale v) as [->|[Hlo Hhi]]; [assumption|].
  split; [assumption|]. apply Qle_trans with (2#1); [assumption | discriminate].
Qed.

Lemma zoomBy_in_range (v : Visual) (factor : Q) :
  scaleInRange v -> scaleInRange (zoomBy v factor).
Proof.
  intros Hv. unfold zoomBy. destruct (viewMode v); [|assumption].
  unfold scaleInRange. simpl. apply clamp_in_range.
Qed.

Lemma commitZoom_in_range (v : Visual) (num : option Q) :
  scaleInRange v -> scaleInRange (commitZoom v num).
Proof.
  intros Hv. unfold commitZoom. destruct (viewMode v); [|assumption].
  destruct num as [num|]; [|assumption].
  destruct (Qeq_bool _ _); [assumption|].
  unfold scaleInRange. simpl. apply percent_in_range.
Qed.

Lemma onWheel_in_range (v : Visual) (mx my deltaY : Q) :
  scaleInRange v -> scaleInRange (onWheel v mx my deltaY).
Proof.
  intros Hv. unfold onWheel. destruct (viewMode v); [|assumption].
  unfold scaleInRange. simpl. apply clamp_in_range.
Qed.

Lemma onDblClick_in_range (v : Visual) (hit : option LayoutNode.t) (toggleHit : bool) :
  scaleInRange v -> scaleInRange (onDblClick v hit toggleHit).
Proof.
  intros Hv. unfold onDblClick. destruct (viewMode v); [|assumption].
  destruct (allowInteractions v); simpl; [|assumption].
  destruct hit as [node|]; [|assumption].
  destruct toggleHit; [assumption|].
  unfold scaleInRange. simpl. apply clamp_in_range.
Qed.

Lemma onPan_in_range (v : Visual) (dx dy : Q) :
  scaleInRange v -> scaleInRange (onPan v dx dy).
Proof.
  intros Hv. unfold onPan. destruct (viewMode v); assumption.
Qed.

Lemma keepNodeScreenPosition_in_range (v : Visual) (nodeId : string) (pt : Q * Q) :
  scaleInRange v -> scaleInRange (keepNodeScreenPosition v nodeId pt).
Proof.
  intros Hv. unfold keepNodeScreenPosition. destruct (find _ _); assumption.
Qed.

Lemma applyViewOp_in_range (v : Visual) (op : ViewOp) :
  scaleInRange v -> scaleInRange (applyViewOp v op).
Proof.
  destruct op; simpl.
  - apply fitToViewport_in_range.
  - apply onWheel_in_range.
  - apply zoomBy_in_range.
  - apply zoomBy_in_range.
  - apply commitZoom_in_range.
  - apply onDblClick_in_range.
  - apply onPan_in_range.
  - apply keepNodeScreenPosition_in_range.
Qed.

Lemma run_in_range (ops : list ViewOp) (v : Visual) :
  scaleInRange v -> scaleInRange (fold_left applyViewOp ops v).
Proof.
  revert v. induction ops as [|op ops IH]; intros v Hv; simpl.
  - assumption.
  - apply IH. now apply applyViewOp_in_range.
Qed.

(** C8: for a prior scale [s0] (non-zero, as a scale is) and translate [t0],
    every anchored zoom (toolbar buttons, percentage entry, wheel) moves the
    translate to [a - (a - t0) * (s1 / s0)], and a layout point [p] that was
    drawn at the anchor [a] is still drawn at [a], on both axes, in exact
    arithmetic.  The anchor is the viewport centre for the buttons and the
    entry, the pointer for the wheel. *)
Theorem zoom_keeps_anchor :
  forall (v : Visual) (px py : Q),
    ~ scale v == 0 ->
    (forall factor,
        let cx := lastViewportW v / (2#1) in
        let cy := lastViewportH v / (2#1) in
        px * scale v + tx v == cx -> py * scale v + ty v == cy ->
        px * scale (zoomBy v factor) + tx (zoomBy v factor) == cx /\
        py * scale (zoomBy v factor) + ty (zoomBy v factor) == cy) /\
    (forall num,
        let cx := lastViewportW v / (2#1) in
        let cy := lastViewportH v / (2#1) in
        px * scale v + tx v == cx -> py * scale v + ty v == cy ->
        px * scale (commitZoom v num) + tx (commitZoom v num) == cx /\
        py * scale (commitZoom v num) + ty (commitZoom v num) == cy) /\
    (forall mx my deltaY,
        px * scale v + tx v == mx -> py * scale v + ty v == my ->
        px * scale (onWheel v mx my deltaY) + tx (onWheel v mx my deltaY) == mx /\
        py * scale (onWheel v mx my deltaY) + ty (onWheel v mx my deltaY) == my).
Proof.
  intros v px py Hs. repeat split.
  - unfold zoomBy. destruct (viewMode v); [|assumption].
    simpl. now apply anchor_fixed.
  - unfold zoomBy. destruct (viewMode v); [|assumption].
    simpl. now apply anchor_fixed.
  - unfold commitZoom. destruct (viewMode v); [|assumption].
    destruct num as [num|]; [|assumption].
    destruct (Qeq_bool _ _); [assumption|].
    simpl. now apply anchor_fixed.
  - unfold commitZoom. destruct (viewMode v); [|assumption].
    destruct num as [num|]; [|assumption].
    destruct (Qeq_bool _ _); [assumption|].
    simpl. now apply anchor_fixed.
  - unfold onWheel. destruct (viewMode v); [|assumption].
    simpl. now apply anchor_fixed.
  - unfold onWheel. destruct (viewMode v); [|assumption].
    simpl. now apply anchor_fixed.
Qed.

(** C9: from a scale of 1, after any sequence of the operations that write
    the view transform (fit, wheel, zoom buttons, percentage entry,
    double-click zoom, pan, stationary-node adjustment) the scale lies in
    [0.2, 4]; and a fit run from there either leaves the transform alone or
    picks a scale in [0.2, 2]. *)
Theorem scale_stays_in_range :
  forall (v0 : Visual) (ops : list ViewOp),
    scale v0 == 1 ->
    let v := fold_left applyViewOp ops v0 in
    scaleInRange v /\
    (fitToViewport v = v \/
     ((2#10) <= scale (fitToViewport v) /\ scale (fitToViewport v) <= (2#1))).
Proof.
  intros v0 ops H1 v. split.
  - apply run_in_range. unfold scaleInRange. rewrite H1. split; discriminate.
  - apply fitToViewport_scale.
Qed.

Local Close Scope Q_scope.

(** ** The children index *)

Lemma childrenOf_set (u p : string) (arr : list string) (m : ChildrenMap) :
  childrenOf (StrMap.set p arr m) u = if String.eqb u p then arr else childrenOf m u.
Proof.
  unfold childrenOf. rewrite get_set. destruct (String.eqb u p); reflexivity.
Qed.

Lemma buildChildrenMap_acc (rows : list NodeRow.t) (m : ChildrenMap) (u v : string) :
  In v (childrenOf
          (fold_left
             (fun m r =>
                match NodeRow.parentKey r with
                | None => m
                | Some p =>
                    let arr := match StrMap.get p m with Some a => a | None => [] end in
                    StrMap.set p (arr ++ [NodeRow.id r]) m
                end) rows m) u) <->
  In v (childrenOf m u) \/
  exists r, In r rows /\ NodeRow.parentKey r = Some u /\ NodeRow.id r = v.
Proof.
  revert m. induction rows as [|r rows IH]; intros m; simpl.
  - split; [now left | intros [H|[r [[] _]]]; exact H].
  - rewrite IH. clear IH. destruct (NodeRow.parentKey r) as [p|] eqn:Hp.
    + cbv zeta. rewrite childrenOf_set. fold (childrenOf m p).
      destruct (String.eqb_spec u p) as [->|Hup].
      * rewrite in_app_iff. simpl. split.
        -- intros [[H|[H|[]]]|[r' [Hin [Hk Hid]]]].
           ++ now left.
           ++ right. exists r. auto.
           ++ right. exists r'. auto.
        -- intros [H|[r' [[->|Hin] [Hk Hid]]]].
           ++ left. now left.
           ++ left. right. now left.
           ++ right. exists r'. auto.
      * split.
        -- intros [H|[r' [Hin [Hk Hid]]]]; [now left|]. right. exists r'. auto.
        -- intros [H|[r' [[->|Hin] [Hk Hid]]]]; [now left | congruence |].
           right. exists r'. auto.
    + split.
      * intros [H|[r' [Hin [Hk Hid]]]]; [now left|]. right. exists r'. auto.
      * intros [H|[r' [[->|Hin] [Hk Hid]]]]; [now left | congruence |].
        right. exists r'. auto.
Qed.

(** The index is the inverse of the parent reference: [v] is listed under
    [u] exactly when some row [v] names [u] as its parent. *)
Lemma buildChildrenMap_spec (rows : list NodeRow.t) (u v : string) :
  In v (childrenOf (buildChildrenMap rows) u) <->
  exists r, In r rows /\ NodeRow.parentKey r = Some u /\ NodeRow.id r = v.
Proof.
  unfold buildChildrenMap. rewrite buildChildrenMap_acc. simpl.
  split; [intros [[]|H]; exact H | now right].
Qed.

Lemma same_id_same_row (rows : list NodeRow.t) (a b : NodeRow.t) :
  NoDup (map NodeRow.id rows) -> In a rows -> In b rows ->
  NodeRow.id a = NodeRow.id b -> a = b.
Proof.
  induction rows as [|r rows IH]; intros Hnd Ha Hb Heq; [contradiction|].
  simpl in Hnd. inversion Hnd as [|? ? Hnotin Hnd']; subst.
  destruct Ha as [->|Ha], Hb as [->|Hb].
  - reflexivity.
  - exfalso. apply Hnotin. rewrite Heq. now apply in_map.
  - exfalso. apply Hnotin. rewrite <- Heq. now apply in_map.
  - now apply IH.
Qed.

(** ** The reachability walk *)

Lemma walk_reached (cm : ChildrenMap) (collapsed : StrSet.t) :
  forall (fuel : nat) (stack : list string) (seen out : StrSet.t),
    walk fuel cm collapsed stack seen = Some out ->
    (forall x, In x seen -> In x out) /\
    (forall x, In x out ->
       In x seen \/ In x stack \/
       exists u, In u out /\ StrSet.has u collapsed = false /\ In x (childrenOf cm u)).
Proof.
  induction fuel as [|fuel IH]; intros stack seen out Hw; simpl in Hw; [discriminate|].
  destruct stack as [|id rest].
  - injection Hw as <-. split; auto.
  - destruct (StrSet.has id seen) eqn:Hseen.
    + apply IH in Hw. destruct Hw as [Hmono Hall]. split; [assumption|].
      intros x Hx. destruct (Hall x Hx) as [H|[H|H]]; auto. right. left. now right.
    + assert (Hadd : forall x, In x (StrSet.add id seen) <-> x = id \/ In x seen).
      { intros x. rewrite <- !has_In, has_add, orb_true_iff, String.eqb_eq. tauto. }
      destruct (StrSet.has id collapsed) eqn:Hcol.
      * apply IH in Hw. destruct Hw as [Hmono Hall]. split.
        -- intros x Hx. apply Hmono, Hadd. now right.
        -- intros x Hx. destruct (Hall x Hx) as [H|[H|H]]; auto.
           ++ apply Hadd in H. destruct H as [->|H]; auto. right. left. now left.
           ++ right. left. now right.
      * apply IH in Hw. destruct Hw as [Hmono Hall]. split.
        -- intros x Hx. apply Hmono, Hadd. now right.
        -- intros x Hx. destruct (Hall x Hx) as [H|[H|H]]; auto.
           ++ apply Hadd in H. destruct H as [->|H]; auto. right. left. now left.
           ++ unfold pushAll in H. apply in_app_iff in H. destruct H as [H|H].
              ** right. right. exists id. repeat split; auto.
                 --- apply Hmono, Hadd. now left.
                 --- now apply in_rev.
              ** right. left. now right.
Qed.

Lemma in_keepIncluded (include : StrSet.t) (rows : list NodeRow.t) (r : NodeRow.t) :
  In r (keepIncluded include rows) <-> In r rows /\ In (NodeRow.id r) include.
Proof.
  unfold keepIncluded. rewrite filter_In, has_In. tauto.
Qed.

Lemma root_stack_spec (roots : list NodeRow.t) (acc : list string) (x : string) :
  In x (fold_left (fun st r => NodeRow.id r :: st) roots acc) <->
  In x acc \/ In x (map NodeRow.id roots).
Proof.
  revert acc. induction roots as [|r roots IH]; intros acc; simpl.
  - tauto.
  - rewrite IH. simpl. split; intros H; intuition.
Qed.

(** ** Every filter keeps rows of its input *)

Ltac case_zero :=
  match goal with
  | |- context [Nat.eqb ?a 0] => destruct (Nat.eqb a 0)
  end.

Lemma keepIncluded_incl (include : StrSet.t) (rows : list NodeRow.t) :
  incl (keepIncluded include rows) rows.
Proof. intros r Hr. now apply in_keepIncluded in Hr. Qed.

Lemma applySearchFilter_incl cm rows query out :
  applySearchFilter cm rows query = Some out -> incl out rows.
Proof.
  unfold applySearchFilter. destruct (negb _).
  - intros [= <-]. apply incl_refl.
  - destruct (fold_left _ rows _) as [roots|]; cbn [bind]; [|discriminate].
    case_zero.
    + intros [= <-]. intros r [].
    + destruct (walk _ _ _ _ _) as [include|]; cbn [bind]; [|discriminate].
      intros [= <-]. apply keepIncluded_incl.
Qed.

Lemma filterToNodeBranch_incl cm rows nodeId out :
  filterToNodeBranch cm rows nodeId = Some out -> incl out rows.
Proof.
  unfold filterToNodeBranch. destruct (negb _).
  - intros [= <-]. apply incl_refl.
  - destruct (addAncestors _ _ _ _ _) as [inc|]; cbn [bind]; [|discriminate].
    destruct (addDescendants _ _ _ _) as [inc'|]; cbn [bind]; [|discriminate].
    intros [= <-]. apply keepIncluded_incl.
Qed.

Lemma filterToParentBranch_incl cm rows parentId out :
  filterToParentBranch cm rows parentId = Some out -> incl out rows.
Proof.
  unfold filterToParentBranch. case_zero.
  - intros [= <-]. apply incl_refl.
  - destruct (addAncestors _ _ _ _ _) as [inc|]; cbn [bind]; [|discriminate].
    destruct (addDescendants _ _ _ _) as [inc'|]; cbn [bind]; [|discriminate].
    intros [= <-]. apply keepIncluded_incl.
Qed.

Lemma filterToDropdownBranch_incl cm rows value out :
  filterToDropdownBranch cm rows value = Some out -> incl out rows.
Proof.
  unfold filterToDropdownBranch. case_zero.
  - intros [= <-]. intros r [].
  - destruct (fold_left _ _ (Some StrSet.empty)) as [inc|]; cbn [bind]; [|discriminate].
    intros [= <-]. apply keepIncluded_incl.
Qed.

Lemma applyDropdownFilters_incl this rows out :
  applyDropdownFilters this rows = Some out -> incl out rows.
Proof.
  unfold applyDropdownFilters.
  destruct (match Js.truthyOpt (hierarchyFilterValue this) with
            | Some h => _ | None => _ end) as [r1|] eqn:H1; cbn [bind]; [|discriminate].
  destruct (match Js.truthyOpt (parentFilterValue this) with
            | Some p => _ | None => _ end) as [r2|] eqn:H2; cbn [bind]; [|discriminate].
  intros H3.
  assert (I1 : incl r1 rows).
  { destruct (Js.truthyOpt (hierarchyFilterValue this)).
    - now apply filterToNodeBranch_incl in H1.
    - injection H1 as <-. apply incl_refl. }
  assert (I2 : incl r2 r1).
  { destruct (Js.truthyOpt (parentFilterValue this)).
    - now apply filterToParentBranch_incl in H2.
    - injection H2 as <-. apply incl_refl. }
  assert (I3 : incl out r2).
  { destruct (Js.truthyOpt (dropdownFilterValue this)).
    - now apply filterToDropdownBranch_incl in H3.
    - injection H3 as <-. apply incl_refl. }
  eapply incl_tran; [exact I3|]. eapply incl_tran; eassumption.
Qed.

Lemma sourceRowsOf_incl this rows out :
  sourceRowsOf this rows = Some out -> incl out rows.
Proof.
  unfold sourceRowsOf. destruct (applyDropdownFilters this rows) as [dr|] eqn:Hd; cbn [bind];
    [|discriminate].
  intros Hs. apply applySearchFilter_incl in Hs. apply applyDropdownFilters_incl in Hd.
  eapply incl_tran; eassumption.
Qed.

Lemma computeVisibleRows_split this rows collapsed :
  computeVisibleRows this rows collapsed =
  (sourceRows <- sourceRowsOf this rows ;;
   visibleFrom (childrenMap this) collapsed sourceRows).
Proof.
  unfold computeVisibleRows, sourceRowsOf, visibleFrom.
  destruct (applyDropdownFilters this rows); cbn [bind]; [|reflexivity].
  destruct (applySearchFilter _ _ _); reflexivity.
Qed.

(** ** Connectedness of the visible rows *)

Lemma truthyOpt_Some (o : option string) (p : string) :
  Js.truthyOpt o = Some p -> o = Some p /\ p <> "".
Proof.
  destruct o as [s|]; simpl; [|discriminate].
  unfold Js.truthy. destruct (String.eqb_spec s ""); simpl; [discriminate|].
  intros [= <-]. auto.
Qed.

Lemma truthyOpt_None (p : string) :
  Js.truthyOpt (Some p) = None -> p = "".
Proof.
  simpl. unfold Js.truthy. destruct (String.eqb_spec p ""); simpl; [auto | discriminate].
Qed.

(** C2: for a row set with unique (non-empty) ids, whatever the filters, the
    search query and the collapse set, the rows that [computeVisibleRows]
    returns are connected: a visible row whose [parentId] is the id of a row
    of the walk's source set has that parent among the visible rows.
    [full] is the row set the children index was built from: [allRows]
    itself, or the cached full set that a drill refresh expands from. *)
Theorem visible_rows_connected :
  forall (this : Visual) (full : list NodeRow.t) (collapsed : StrSet.t)
         (src vis : list NodeRow.t),
    NoDup (map NodeRow.id full) ->
    ~ In "" (map NodeRow.id full) ->
    incl (allRows this) full ->
    childrenMap this = buildChildrenMap full ->
    sourceRowsOf this (allRows this) = Some src ->
    computeVisibleRows this (allRows this) collapsed = Some vis ->
    forall (r : NodeRow.t) (p : string),
      In r vis ->
      NodeRow.parentId r = Some p ->
      In p (map NodeRow.id src) ->
      In p (map NodeRow.id vis).
Proof.
  intros this full collapsed src vis Hnd Hne Hincl Hcm Hsrc Hvis r p Hr Hp Hpsrc.
  rewrite computeVisibleRows_split, Hsrc in Hvis. cbn [bind] in Hvis.
  unfold visibleFrom in Hvis.
  destruct (walk _ _ _ _ _) as [visible|] eqn:Hw; cbn [bind] in Hvis; [|discriminate].
  injection Hvis as <-.
  apply in_keepIncluded in Hr. destruct Hr as [Hrsrc Hrvis].
  assert (Hsub : incl src full).
  { apply sourceRowsOf_incl in Hsrc. eapply incl_tran; eassumption. }
  assert (Hpvis : In p visible).
  { apply walk_reached in Hw. destruct Hw as [_ Hall].
    destruct (Hall _ Hrvis) as [[]|[Hstack|[u [Hu [_ Hchild]]]]].
    - (* [r] was pushed as a root: impossible, its parent is in the source set *)
      exfalso. apply root_stack_spec in Hstack. destruct Hstack as [[]|Hroot].
      apply in_map_iff in Hroot. destruct Hroot as [r' [Hid Hr']].
      apply filter_In in Hr'. destruct Hr' as [Hr'src Hroot].
      assert (r' = r) by (apply (same_id_same_row full); auto). subst r'.
      unfold isRootIn, NodeRow.parentKey in Hroot. rewrite Hp in Hroot.
      destruct (Js.truthyOpt (Some p)) as [p'|] eqn:Ht.
      + apply truthyOpt_Some in Ht. destruct Ht as [[= ->] _].
        apply has_idSetOf in Hpsrc. rewrite Hpsrc in Hroot. discriminate.
      + apply truthyOpt_None in Ht. subst p. apply Hne.
        apply in_map_iff in Hpsrc. destruct Hpsrc as [rp [Hid' Hrp]].
        rewrite <- Hid'. apply in_map. now apply Hsub.
    - (* [r] was pushed as a child of a visited [u]: then [u] is its parent *)
      rewrite Hcm in Hchild. apply buildChildrenMap_spec in Hchild.
      destruct Hchild as [r' [Hr' [Hk Hid]]].
      assert (r' = r) by (apply (same_id_same_row full); auto). subst r'.
      unfold NodeRow.parentKey in Hk. rewrite Hp in Hk.
      apply truthyOpt_Some in Hk. destruct Hk as [[= ->] _]. exact Hu. }
  apply in_map_iff in Hpsrc. destruct Hpsrc as [rp [Hid Hrp]].
  apply in_map_iff. exists rp. split; [assumption|].
  apply in_keepIncluded. split; [assumption | now rewrite Hid].
Qed.

(** ** The stack loops always come back *)

Lemma pending_bound (cm : ChildrenMap) (seen : StrSet.t) :
  pending cm seen <= List.length (allChildren cm).
Proof.
  unfold allChildren. induction cm as [|[k vs] m IH]; simpl; [lia|].
  rewrite length_app. destruct (StrSet.has k seen); lia.
Qed.

Lemma pending_add_le (cm : ChildrenMap) (seen : StrSet.t) (id : string) :
  pending cm (StrSet.add id seen) <= pending cm seen.
Proof.
  induction cm as [|[k vs] m IH]; simpl; [lia|].
  rewrite has_add. destruct (String.eqb k id), (StrSet.has k seen); simpl; lia.
Qed.

Lemma pending_visit (cm : ChildrenMap) (seen : StrSet.t) (id : string) :
  StrSet.has id seen = false ->
  pending cm (StrSet.add id seen) + List.length (childrenOf cm id) <= pending cm seen.
Proof.
  intros Hid. unfold childrenOf. induction cm as [|[k vs] m IH]; simpl; [lia|].
  rewrite has_add. destruct (String.eqb_spec id k) as [<-|Hne].
  - rewrite String.eqb_refl, Hid. simpl. pose proof (pending_add_le m seen id). lia.
  - destruct (String.eqb_spec k id) as [->|_]; [congruence|].
    simpl. destruct (StrSet.has k seen); lia.
Qed.

Lemma walk_returns (cm : ChildrenMap) (collapsed : StrSet.t) :
  forall (fuel : nat) (stack : list string) (seen : StrSet.t),
    List.length stack + pending cm seen < fuel ->
    exists out, walk fuel cm collapsed stack seen = Some out.
Proof.
  induction fuel as [|fuel IH]; intros stack seen Hlt; [lia|].
  simpl. destruct stack as [|id rest]; [eauto|]. simpl in Hlt.
  destruct (StrSet.has id seen) eqn:Hseen.
  - apply IH. lia.
  - pose proof (pending_visit cm seen id Hseen) as Hv.
    destruct (StrSet.has id collapsed).
    + apply IH. lia.
    + apply IH. unfold pushAll. rewrite length_app, length_rev. lia.
Qed.

Lemma walk_total (cm : ChildrenMap) (collapsed : StrSet.t) (stack : list string) :
  exists out, walk (stackFuel cm stack) cm collapsed stack StrSet.empty = Some out.
Proof.
  apply walk_returns. unfold stackFuel.
  pose proof (pending_bound cm StrSet.empty). lia.
Qed.

Lemma fresh_bound (cm : ChildrenMap) (include : StrSet.t) :
  fresh cm include <= List.length (allChildren cm).
Proof. unfold fresh. apply filter_length_le. Qed.

Lemma fresh_add (l : list string) (include : StrSet.t) (c : string) :
  In c l -> StrSet.has c include = false ->
  List.length (filter (fun x => negb (StrSet.has x (StrSet.add c include))) l) <
  List.length (filter (fun x => negb (StrSet.has x include)) l).
Proof.
  intros Hin Hc.
  assert (Hle : forall l',
    List.length (filter (fun x => negb (StrSet.has x (StrSet.add c include))) l') <=
    List.length (filter (fun x => negb (StrSet.has x include)) l')).
  { induction l' as [|a l' IH]; simpl; [lia|].
    rewrite has_add. destruct (String.eqb a c), (StrSet.has a include); simpl; lia. }
  induction l as [|a l IH]; [contradiction|]. simpl. rewrite has_add.
  destruct Hin as [->|Hin].
  - rewrite String.eqb_refl, Hc. simpl. specialize (Hle l). lia.
  - specialize (IH Hin).
    destruct (String.eqb a c), (StrSet.has a include); simpl; lia.
Qed.

Lemma childrenOf_allChildren (cm : ChildrenMap) (id c : string) :
  In c (childrenOf cm id) -> In c (allChildren cm).
Proof.
  unfold childrenOf, allChildren. induction cm as [|[k vs] m IH]; simpl; [contradiction|].
  rewrite in_app_iff. destruct (String.eqb id k); auto.
Qed.

Lemma pushNew_measure (cm : ChildrenMap) :
  forall (children stack : list string) (include : StrSet.t),
    incl children (allChildren cm) ->
    List.length (fst (pushNew children stack include))
      + fresh cm (snd (pushNew children stack include))
    <= List.length stack + fresh cm include.
Proof.
  induction children as [|c cs IH]; intros stack include Hincl; simpl; [lia|].
  assert (Hcs : incl cs (allChildren cm)) by (intros x Hx; apply Hincl; now right).
  destruct (StrSet.has c include) eqn:Hc.
  - now apply IH.
  - specialize (IH (c :: stack) (StrSet.add c include) Hcs). simpl in IH.
    assert (Hlt : fresh cm (StrSet.add c include) < fresh cm include).
    { apply fresh_add; [apply Hincl; now left | assumption]. }
    lia.
Qed.

Lemma addDescendants_returns (cm : ChildrenMap) :
  forall (fuel : nat) (stack : list string) (include : StrSet.t),
    List.length stack + fresh cm include < fuel ->
    exists out, addDescendants fuel cm stack include = Some out.
Proof.
  induction fuel as [|fuel IH]; intros stack include Hlt; [lia|].
  simpl. destruct stack as [|id rest]; [eauto|]. simpl in Hlt.
  pose proof (pushNew_measure cm (childrenOf cm id) rest include) as Hm.
  destruct (pushNew (childrenOf cm id) rest include) as [stack' include'].
  simpl in Hm. apply IH.
  assert (incl (childrenOf cm id) (allChildren cm))
    by (intros c Hc; now apply (childrenOf_allChildren cm id)).
  specialize (Hm H). lia.
Qed.

Lemma addDescendants_total (cm : ChildrenMap) (stack : list string) (include : StrSet.t) :
  exists out, addDescendants (stackFuel cm stack) cm stack include = Some out.
Proof.
  apply addDescendants_returns. unfold stackFuel.
  pose proof (fresh_bound cm include). lia.
Qed.

(** ** Collapse toggling *)

Lemma sameInputs_refl (v : Visual) : sameInputs v v.
Proof. repeat split. Qed.

Lemma sameInputs_trans (a b c : Visual) :
  sameInputs a b -> sameInputs b c -> sameInputs a c.
Proof.
  unfold sameInputs. intros (A1 & A2 & A3 & A4 & A5 & A6) (B1 & B2 & B3 & B4 & B5 & B6).
  repeat split; congruence.
Qed.

Lemma fitToViewport_frame (v : Visual) :
  sameInputs v (fitToViewport v) /\ collapsedIds (fitToViewport v) = collapsedIds v.
Proof.
  unfold fitToViewport. destruct (_ || _ || _); [split; [apply sameInputs_refl | reflexivity]|].
  destruct (fold_left _ _ _) as [[[[minX minY] maxX] maxY]|];
    (split; [repeat split | reflexivity]).
Qed.

Lemma keepNodeScreenPosition_frame (v : Visual) (nodeId : string) (pt : Q * Q) :
  sameInputs v (keepNodeScreenPosition v nodeId pt) /\
  collapsedIds (keepNodeScreenPosition v nodeId pt) = collapsedIds v.
Proof.
  unfold keepNodeScreenPosition. destruct (find _ _); (split; [repeat split | reflexivity]).
Qed.

Lemma sourceRowsOf_inputs (v v' : Visual) (rows : list NodeRow.t) :
  sameInputs v v' -> sourceRowsOf v' rows = sourceRowsOf v rows.
Proof.
  intros (_ & H2 & H3 & H4 & H5 & H6).
  unfold sourceRowsOf, applyDropdownFilters. now rewrite H2, H3, H4, H5, H6.
Qed.

Lemma walk_same_collapsed (cm : ChildrenMap) (c1 c2 : StrSet.t) :
  StrSet.same c1 c2 ->
  forall fuel stack seen, walk fuel cm c1 stack seen = walk fuel cm c2 stack seen.
Proof.
  intros Hsame. induction fuel as [|fuel IH]; intros stack seen; simpl; [reflexivity|].
  destruct stack as [|id rest]; [reflexivity|].
  rewrite (Hsame id), !IH. reflexivity.
Qed.

Lemma computeVisibleRows_inputs (v v' : Visual) (rows : list NodeRow.t) (c c' : StrSet.t) :
  sameInputs v v' -> StrSet.same c c' ->
  computeVisibleRows v' rows c' = computeVisibleRows v rows c.
Proof.
  intros Hin Hsame. rewrite !computeVisibleRows_split, (sourceRowsOf_inputs v v' rows Hin).
  destruct Hin as (_ & H2 & _). rewrite H2.
  destruct (sourceRowsOf v rows) as [src|]; cbn [bind]; [|reflexivity].
  unfold visibleFrom. now rewrite (walk_same_collapsed _ c c' Hsame).
Qed.

(** Once the filter stage comes back, so does the whole visibility
    computation, for any collapse set. *)
Lemma computeVisibleRows_returns (v : Visual) (rows src : list NodeRow.t) (c : StrSet.t) :
  sourceRowsOf v rows = Some src ->
  exists vis, computeVisibleRows v rows c = Some vis.
Proof.
  intros Hsrc. rewrite computeVisibleRows_split, Hsrc. cbn [bind]. unfold visibleFrom.
  destruct (walk_total (childrenMap v) c
              (fold_left (fun st r => NodeRow.id r :: st)
                         (filter (isRootIn (idSetOf src)) src) [])) as [out Hout].
  rewrite Hout. cbn [bind]. eauto.
Qed.

(** ** The ancestor walks come back on well-founded rows *)

Lemma WellRanked_incl (rows rows' : list NodeRow.t) :
  incl rows' rows -> WellRanked rows -> WellRanked rows'.
Proof.
  intros Hincl [rank Hrank]. exists rank. intros r p Hr Hk Hp.
  apply Hrank; auto. revert Hp. apply incl_map. exact Hincl.
Qed.

Lemma stepUp_Some (rows : list NodeRow.t) (cur p : string) :
  stepUp (indexById rows) cur = Some p ->
  exists r, In r rows /\ NodeRow.id r = cur /\ NodeRow.parentKey r = Some p /\
            In p (map NodeRow.id rows).
Proof.
  unfold stepUp. destruct (StrMap.get cur (indexById rows)) as [r|] eqn:Hget; [|discriminate].
  apply get_indexById_Some in Hget. destruct Hget as [Hr Hid].
  destruct (NodeRow.parentKey r) as [q|] eqn:Hk; [|discriminate].
  destruct (StrMap.has q (indexById rows)) eqn:Hhas; [|discriminate].
  intros [= <-]. exists r. repeat split; auto. now apply has_indexById.
Qed.

Section Ranked.

Variable rows : list NodeRow.t.
Variable rank : string -> nat.
Hypothesis rank_down :
  forall r p,
    In r rows -> NodeRow.parentKey r = Some p -> In p (map NodeRow.id rows) ->
    rank p < rank (NodeRow.id r).

Lemma walkedThrough_step (cur p : string) (seen : list string) :
  walkedThrough rows rank cur seen ->
  stepUp (indexById rows) cur = Some p ->
  walkedThrough rows rank p (cur :: seen).
Proof.
  intros (Hnd & Hincl & Habove) Hstep.
  apply stepUp_Some in Hstep. destruct Hstep as (r & Hr & Hid & Hk & Hp).
  assert (Hlt : rank p < rank cur) by (rewrite <- Hid; now apply rank_down).
  repeat split.
  - constructor; [|assumption]. intros Hin. specialize (Habove cur Hin). lia.
  - intros s [<-|Hs]; [|now apply Hincl]. rewrite <- Hid. now apply in_map.
  - intros s [<-|Hs]; [assumption|]. specialize (Habove s Hs). lia.
Qed.

Lemma walkedThrough_bound (cur : string) (seen : list string) :
  walkedThrough rows rank cur seen -> List.length seen <= List.length rows.
Proof.
  intros (Hnd & Hincl & _). rewrite <- (length_map NodeRow.id rows).
  now apply NoDup_incl_length.
Qed.

Lemma climbToRoot_returns :
  forall (fuel : nat) (cur : string) (seen : list string),
    walkedThrough rows rank cur seen ->
    List.length rows < fuel + List.length seen ->
    exists top, climbToRoot fuel (indexById rows) cur = Some top.
Proof.
  induction fuel as [|fuel IH]; intros cur seen Hseen Hlt.
  - apply walkedThrough_bound in Hseen. simpl in Hlt. lia.
  - simpl. destruct (stepUp (indexById rows) cur) as [p|] eqn:Hstep; [|eauto].
    apply (IH p (cur :: seen)); [now apply walkedThrough_step | simpl; lia].
Qed.

Lemma addAncestors_returns (guarded : bool) :
  forall (fuel : nat) (cur : string) (seen : list string) (include : StrSet.t),
    walkedThrough rows rank cur seen ->
    List.length rows < fuel + List.length seen ->
    exists out, addAncestors guarded fuel (indexById rows) cur include = Some out.
Proof.
  induction fuel as [|fuel IH]; intros cur seen include Hseen Hlt.
  - apply walkedThrough_bound in Hseen. simpl in Hlt. lia.
  - simpl. destruct (Js.truthy cur); [|eauto].
    destruct (stepUp (indexById rows) cur) as [p|] eqn:Hstep; [|eauto].
    apply (IH p (cur :: seen)); [now apply walkedThrough_step | simpl; lia].
Qed.

Lemma walkedThrough_nil (cur : string) : walkedThrough rows rank cur [].
Proof. repeat split; [constructor | intros s [] | intros s []]. Qed.

Lemma climbToRoot_total (cur : string) :
  exists top, climbToRoot (climbFuel rows) (indexById rows) cur = Some top.
Proof.
  apply (climbToRoot_returns _ cur []); [apply walkedThrough_nil|].
  unfold climbFuel. simpl. lia.
Qed.

Lemma addAncestors_total (guarded : bool) (cur : string) (include : StrSet.t) :
  exists out, addAncestors guarded (climbFuel rows) (indexById rows) cur include = Some out.
Proof.
  apply (addAncestors_returns guarded _ cur []); [apply walkedThrough_nil|].
  unfold climbFuel. simpl. lia.
Qed.

End Ranked.

(** ** The filters come back on well-founded rows *)

Lemma applySearchFilter_total (cm : ChildrenMap) (rows : list NodeRow.t) (query : string) :
  WellRanked rows -> exists out, applySearchFilter cm rows query = Some out.
Proof.
  intros [rank Hrank]. unfold applySearchFilter. destruct (negb _); [eauto|].
  assert (Hfold : forall l acc, exists s,
    fold_left
      (fun acc r =>
         s <- acc ;;
         if negb (Js.includes (Js.toLowerCase (Js.trim query))
                              (Js.toLowerCase (NodeRow.label r))) then Some s
         else
           top <- climbToRoot (climbFuel rows) (indexById rows) (NodeRow.id r) ;;
           Some (StrSet.add top s))
      l (Some acc) = Some s).
  { induction l as [|r l IH]; intros acc; cbn [fold_left bind]; [eauto|].
    destruct (negb _); [apply IH|].
    destruct (climbToRoot_total rows rank Hrank (NodeRow.id r)) as [top ->].
    cbn [bind]. apply IH. }
  destruct (Hfold rows StrSet.empty) as [roots ->]. cbn [bind].
  case_zero; [eauto|].
  destruct (walk_total cm StrSet.empty (rev roots)) as [include ->]. cbn [bind]. eauto.
Qed.

Lemma filterToNodeBranch_total (cm : ChildrenMap) (rows : list NodeRow.t) (nodeId : string) :
  WellRanked rows -> exists out, filterToNodeBranch cm rows nodeId = Some out.
Proof.
  intros [rank Hrank]. unfold filterToNodeBranch. destruct (negb _); [eauto|].
  destruct (addAncestors_total rows rank Hrank false nodeId StrSet.empty) as [inc ->].
  cbn [bind].
  destruct (addDescendants_total cm [nodeId] inc) as [inc' ->]. cbn [bind]. eauto.
Qed.

Lemma filterToParentBranch_total (cm : ChildrenMap) (rows : list NodeRow.t) (parentId : string) :
  WellRanked rows -> exists out, filterToParentBranch cm rows parentId = Some out.
Proof.
  intros [rank Hrank]. unfold filterToParentBranch. case_zero; [eauto|].
  destruct (addAncestors_total rows rank Hrank true parentId StrSet.empty) as [inc ->].
  cbn [bind].
  match goal with
  | |- context [addDescendants _ cm ?st ?i] =>
      destruct (addDescendants_total cm st i) as [inc' ->]
  end.
  cbn [bind]. eauto.
Qed.

Lemma filterToDropdownBranch_total (cm : ChildrenMap) (rows : list NodeRow.t) (value : string) :
  WellRanked rows -> exists out, filterToDropdownBranch cm rows value = Some out.
Proof.
  intros [rank Hrank]. unfold filterToDropdownBranch. case_zero; [eauto|].
  assert (Hfold : forall l acc, exists s,
    fold_left
      (fun acc id =>
         include <- acc ;;
         if negb (StrMap.has id (indexById rows)) then Some include
         else
           include <- addAncestors false (climbFuel rows) (indexById rows) id include ;;
           addDescendants (stackFuel cm [id]) cm [id] include)
      l (Some acc) = Some s).
  { induction l as [|id l IH]; intros acc; cbn [fold_left bind]; [eauto|].
    destruct (negb _); [apply IH|].
    destruct (addAncestors_total rows rank Hrank false id acc) as [inc ->]. cbn [bind].
    destruct (addDescendants_total cm [id] inc) as [inc' ->]. apply IH. }
  match goal with
  | |- context [fold_left _ ?l (Some StrSet.empty)] =>
      destruct (Hfold l StrSet.empty) as [inc ->]
  end.
  cbn [bind]. eauto.
Qed.

Lemma sourceRowsOf_total (v : Visual) (rows : list NodeRow.t) :
  WellRanked rows -> exists src, sourceRowsOf v rows = Some src.
Proof.
  intros Hwr. unfold sourceRowsOf, applyDropdownFilters.
  assert (H1 : exists r1,
    match Js.truthyOpt (hierarchyFilterValue v) with
    | Some h => filterToNodeBranch (childrenMap v) rows h
    | None => Some rows
    end = Some r1 /\ incl r1 rows).
  { destruct (Js.truthyOpt (hierarchyFilterValue v)) as [h|].
    - destruct (filterToNodeBranch_total (childrenMap v) rows h Hwr) as [r1 Hr1].
      exists r1. split; [assumption | now apply filterToNodeBranch_incl in Hr1].
    - exists rows. split; [reflexivity | apply incl_refl]. }
  destruct H1 as (r1 & -> & I1). cbn [bind].
  assert (W1 : WellRanked r1) by (eapply WellRanked_incl; eassumption).
  assert (H2 : exists r2,
    match Js.truthyOpt (parentFilterValue v) with
    | Some p => filterToParentBranch (childrenMap v) r1 p
    | None => Some r1
    end = Some r2 /\ incl r2 r1).
  { destruct (Js.truthyOpt (parentFilterValue v)) as [p|].
    - destruct (filterToParentBranch_total (childrenMap v) r1 p W1) as [r2 Hr2].
      exists r2. split; [assumption | now apply filterToParentBranch_incl in Hr2].
    - exists r1. split; [reflexivity | apply incl_refl]. }
  destruct H2 as (r2 & -> & I2). cbn [bind].
  assert (W2 : WellRanked r2) by (eapply WellRanked_incl; eassumption).
  assert (H3 : exists r3,
    match Js.truthyOpt (dropdownFilterValue v) with
    | Some d => filterToDropdownBranch (childrenMap v) r2 d
    | None => Some r2
    end = Some r3 /\ incl r3 r2).
  { destruct (Js.truthyOpt (dropdownFilterValue v)) as [d|].
    - destruct (filterToDropdownBranch_total (childrenMap v) r2 d W2) as [r3 Hr3].
      exists r3. split; [assumption | now apply filterToDropdownBranch_incl in Hr3].
    - exists r2. split; [reflexivity | apply incl_refl]. }
  destruct H3 as (r3 & -> & I3). cbn [bind].
  apply applySearchFilter_total. eapply WellRanked_incl; eassumption.
Qed.

(** On rows whose parent references are well founded the visibility
    computation always comes back, whatever the filters and the collapse
    set. *)
Lemma computeVisibleRows_total (v : Visual) (rows : list NodeRow.t) (c : StrSet.t) :
  WellRanked rows -> exists vis, computeVisibleRows v rows c = Some vis.
Proof.
  intros Hwr. destruct (sourceRowsOf_total v rows Hwr) as [src Hsrc].
  exact (computeVisibleRows_returns v rows src c Hsrc).
Qed.

(** Without any filter or search, it comes back on every row set, cyclic
    ones included. *)
Lemma computeVisibleRows_unfiltered (v : Visual) (rows : list NodeRow.t) (c : StrSet.t) :
  searchQuery v = "" -> hierarchyFilterValue v = None ->
  parentFilterValue v = None -> dropdownFilterValue v = None ->
  exists vis, computeVisibleRows v rows c = Some vis.
Proof.
  intros Hq Hh Hp Hd. apply (computeVisibleRows_returns v rows rows c).
  unfold sourceRowsOf, applyDropdownFilters. rewrite Hh, Hp, Hd. cbn [Js.truthyOpt bind].
  unfold applySearchFilter. now rewrite Hq.
Qed.

Lemma exampleRows_ranked : WellRanked exampleRows.
Proof.
  exists (fun i => if String.eqb i "A" then 0 else if String.eqb i "D" then 2 else 1).
  intros r p [<-|[<-|[<-|[<-|[]]]]] Hk _; simpl in Hk; try discriminate;
    injection Hk as <-; simpl; lia.
Qed.

(** ** The loop of the ancestor walks, without fuel *)

Lemma ClimbsIn_moves (byId : StrMap.t NodeRow.t) (n m : nat) (cur top top' : string) :
  ClimbsIn byId n cur top -> ClimbsIn byId m cur top' -> n = m.
Proof.
  intros Hn. revert m top'. induction Hn as [cur Hstop|n cur p top Hstep Hn IH];
    intros m top' Hm; inversion Hm; subst; try congruence.
  f_equal. apply (IH _ top'). congruence.
Qed.

Lemma ClimbsIn_fuel (byId : StrMap.t NodeRow.t) (n : nat) (cur top : string) :
  ClimbsIn byId n cur top ->
  forall fuel, n < fuel -> climbToRoot fuel byId cur = Some top.
Proof.
  induction 1 as [cur Hstop|n cur p top Hstep Hn IH]; intros fuel Hlt;
    (destruct fuel as [|fuel]; [lia|]); simpl.
  - now rewrite Hstop.
  - rewrite Hstep. apply IH. lia.
Qed.

Lemma climbToRoot_ClimbsIn (byId : StrMap.t NodeRow.t) :
  forall fuel cur top,
    climbToRoot fuel byId cur = Some top -> exists n, ClimbsIn byId n cur top.
Proof.
  induction fuel as [|fuel IH]; intros cur top Hc; simpl in Hc; [discriminate|].
  destruct (stepUp byId cur) as [p|] eqn:Hstep.
  - destruct (IH p top Hc) as [n Hn]. exists (S n). now apply (climbs_up byId n cur p).
  - injection Hc as <-. exists 0. now constructor.
Qed.

(** A walk that leaves its loop passes through distinct ids of rows. *)
Lemma ClimbsIn_bound (rows : list NodeRow.t) :
  forall n cur top,
    ClimbsIn (indexById rows) n cur top ->
    forall seen,
      NoDup seen -> incl seen (map NodeRow.id rows) ->
      (forall s, In s seen -> exists m t, ClimbsIn (indexById rows) m s t /\ n < m) ->
      n + List.length seen <= List.length rows.
Proof.
  induction 1 as [cur Hstop|n cur p top Hstep Hn IH]; intros seen Hnd Hincl Habove.
  - simpl. rewrite <- (length_map NodeRow.id rows). now apply NoDup_incl_length.
  - assert (Hhere : ClimbsIn (indexById rows) (S n) cur top)
      by now apply (climbs_up _ n cur p).
    specialize (IH (cur :: seen)). simpl in IH. rewrite Nat.add_succ_r in IH. apply IH.
    + constructor; [|assumption]. intros Hin.
      destruct (Habove cur Hin) as (m & t & Hm & Hlt).
      pose proof (ClimbsIn_moves _ _ _ _ _ _ Hhere Hm). lia.
    + intros s [<-|Hs]; [|now apply Hincl].
      apply stepUp_Some in Hstep. destruct Hstep as (r & Hr & Hid & _).
      rewrite <- Hid. now apply in_map.
    + intros s [<-|Hs].
      * exists (S n), top. split; [assumption | lia].
      * destruct (Habove s Hs) as (m & t & Hm & Hlt). exists m, t. split; [assumption | lia].
Qed.

(** The fuel of the ancestor walks is exact: the fuelled walk returns [top]
    exactly when the loop leaves with [top], and [None] exactly when the
    loop never leaves. *)
Lemma climbToRoot_exact (rows : list NodeRow.t) (cur top : string) :
  climbToRoot (climbFuel rows) (indexById rows) cur = Some top <->
  exists n, ClimbsIn (indexById rows) n cur top.
Proof.
  split; [apply climbToRoot_ClimbsIn|]. intros [n Hn].
  apply (ClimbsIn_fuel _ n); [assumption|].
  pose proof (ClimbsIn_bound rows n cur top Hn [] (NoDup_nil _)
                (fun s (H : In s []) => match H with end)
                (fun s (H : In s []) => match H with end)).
  unfold climbFuel. lia.
Qed.

Lemma stepUp_truthy (byId : StrMap.t NodeRow.t) (cur p : string) :
  stepUp byId cur = Some p -> Js.truthy p = true.
Proof.
  unfold stepUp. destruct (StrMap.get cur byId) as [r|]; [|discriminate].
  destruct (NodeRow.parentKey r) as [q|] eqn:Hk; [|discriminate].
  destruct (StrMap.has q byId); [|discriminate]. intros [= <-].
  apply truthyOpt_Some in Hk. destruct Hk as [_ Hne].
  unfold Js.truthy. now apply negb_true_iff, String.eqb_neq.
Qed.

(** The loop that collects the ancestors leaves exactly when the bare
    ancestor walk does. *)
Lemma addAncestors_climbs (guarded : bool) (byId : StrMap.t NodeRow.t) :
  forall (fuel : nat) (cur : string) (include : StrSet.t),
    Js.truthy cur = true ->
    ((exists out, addAncestors guarded fuel byId cur include = Some out) <->
     (exists top, climbToRoot fuel byId cur = Some top)).
Proof.
  induction fuel as [|fuel IH]; intros cur include Hcur; simpl.
  - split; intros [x Hx]; discriminate.
  - rewrite Hcur. destruct (stepUp byId cur) as [p|] eqn:Hstep.
    + apply IH. now apply stepUp_truthy in Hstep.
    + split; eauto.
Qed.

(** A two-row cycle: with a matching search the ancestor walk never leaves
    its loop, and the model has no result. *)
Lemma search_on_cycle_never_returns :
  applySearchFilter [] [plainRow "C" (Some "D"); plainRow "D" (Some "C")] "c" = None.
Proof. reflexivity. Qed.

Section CollapseProperties.

Variable treeLayout : Q -> Q -> D3.HierarchyNode -> NodeRow.t -> Q * Q.

Lemma computeLayout_frame (v : Visual) (rows : list NodeRow.t) (autoFit : bool) :
  sameInputs v (snd (computeLayout treeLayout v rows autoFit)) /\
  collapsedIds (snd (computeLayout treeLayout v rows autoFit)) = collapsedIds v.
Proof.
  unfold computeLayout.
  destruct (if negb _ then _ else _) as [working syntheticRoot].
  destruct (D3.stratify working) as [root|]; [|split; [repeat split | reflexivity]].
  destruct (match syntheticRoot with Some _ => _ | None => _ end) as [[ns ls] ts].
  destruct (match orientation (settings v) with LR => _ | TD => _ end) as [[ns' ls'] ts'].
  cbn [snd]. destruct autoFit.
  - destruct (fitToViewport_frame (setOutputs ns' ls' ts' v)) as [Hi Hc].
    split; [|exact Hc]. eapply sameInputs_trans; [|exact Hi]. repeat split.
  - split; [repeat split | reflexivity].
Qed.

Lemma computeLayoutFromState_frame (v : Visual) (autoFit : bool)
    (focus : option string) (r : bool * Visual) :
  computeLayoutFromState treeLayout v autoFit focus = Some r ->
  sameInputs v (snd r) /\ collapsedIds (snd r) = collapsedIds v.
Proof.
  unfold computeLayoutFromState.
  destruct (computeVisibleRows v (allRows v) (collapsedIds v)) as [vis|]; cbn [bind];
    [|discriminate].
  case_zero.
  - intros [= <-]. cbn [snd]. destruct (anyFilterShown _); (split; [repeat split | reflexivity]).
  - pose proof (computeLayout_frame v vis autoFit) as [Hi Hc].
    destruct (computeLayout treeLayout v vis autoFit) as [ok v']. cbn [snd] in Hi, Hc.
    destruct (negb ok); [intros [= <-]; auto|].
    destruct autoFit; [intros [= <-]; auto|].
    destruct (Js.truthyOpt focus) as [nid|]; [|intros [= <-]; auto].
    destruct (getNodeScreenPoint v focus) as [pt|]; [|intros [= <-]; auto].
    intros [= <-]. cbn [snd].
    destruct (keepNodeScreenPosition_frame v' nid pt) as [Hi' Hc'].
    split; [eapply sameInputs_trans; eassumption | congruence].
Qed.

Lemma computeLayoutFromState_returns (v : Visual) (autoFit : bool)
    (focus : option string) (src : list NodeRow.t) :
  sourceRowsOf v (allRows v) = Some src ->
  exists r, computeLayoutFromState treeLayout v autoFit focus = Some r.
Proof.
  intros Hsrc. unfold computeLayoutFromState.
  destruct (computeVisibleRows_returns v (allRows v) src (collapsedIds v) Hsrc) as [vis ->].
  cbn [bind]. case_zero; [eauto|].
  destruct (computeLayout treeLayout v vis autoFit) as [ok v'].
  destruct (negb ok); [eauto|].
  destruct autoFit; [eauto|].
  destruct (Js.truthyOpt focus); [|eauto].
  destruct (getNodeScreenPoint v focus); eauto.
Qed.

Lemma toggled_twice (nodeId : string) (c : StrSet.t) :
  StrSet.same (toggled nodeId (toggled nodeId c)) c.
Proof.
  intros x. unfold toggled. destruct (StrSet.has nodeId c) eqn:Hn.
  - rewrite has_delete, String.eqb_refl. simpl. rewrite has_add, has_delete.
    destruct (String.eqb_spec x nodeId) as [->|]; simpl; [now rewrite Hn | reflexivity].
  - rewrite has_add, String.eqb_refl. simpl. rewrite has_delete, has_add.
    destruct (String.eqb_spec x nodeId) as [->|]; simpl; [now rewrite Hn | reflexivity].
Qed.

(** What a toggle on a node with children leaves behind. *)
Lemma toggleCollapse_parent (v : Visual) (nodeId : string) (src : list NodeRow.t) :
  childrenOf (childrenMap v) nodeId <> [] ->
  sourceRowsOf v (allRows v) = Some src ->
  exists v', toggleCollapse treeLayout v nodeId = Some v' /\
             sameInputs v v' /\
             collapsedIds v' = toggled nodeId (collapsedIds v).
Proof.
  intros Hkids Hsrc. unfold toggleCollapse.
  assert (Hlt : Nat.ltb 0 (match StrMap.get nodeId (childrenMap v) with
                           | Some a => List.length a | None => 0 end) = true).
  { unfold childrenOf in Hkids. destruct (StrMap.get nodeId (childrenMap v)) as [a|].
    - destruct a; [congruence | reflexivity].
    - congruence. }
  rewrite Hlt. cbn [negb].
  set (v1 := if StrSet.has nodeId (collapsedIds v)
             then setCollapsedIds (StrSet.delete nodeId (collapsedIds v)) v
             else setCollapsedIds (StrSet.add nodeId (collapsedIds v)) v).
  assert (Hv1 : sameInputs v v1 /\ collapsedIds v1 = toggled nodeId (collapsedIds v)).
  { unfold v1, toggled. destruct (StrSet.has nodeId (collapsedIds v));
      (split; [repeat split | reflexivity]). }
  destruct Hv1 as [Hi1 Hc1].
  assert (Hsrc1 : sourceRowsOf v1 (allRows v1) = Some src).
  { rewrite (sourceRowsOf_inputs v v1 _ Hi1). destruct Hi1 as [-> _]. exact Hsrc. }
  destruct (computeLayoutFromState_returns v1 false (Some nodeId) src Hsrc1) as [r Hr].
  rewrite Hr. cbn [bind]. exists (snd r). split; [reflexivity|].
  apply computeLayoutFromState_frame in Hr. destruct Hr as [Hi2 Hc2].
  split; [eapply sameInputs_trans; eassumption | congruence].
Qed.

(** C7: toggling collapse on a node without children in the children index
    returns the state as it was; and on any node, provided the filter
    stage comes back for the current state, two toggles in a row both
    come back and leave a collapse set with the prior members and the
    prior visible rows. *)
Theorem toggleCollapse_idempotent :
  forall (v : Visual) (nodeId : string) (src : list NodeRow.t),
    sourceRowsOf v (allRows v) = Some src ->
    (childrenOf (childrenMap v) nodeId = [] ->
     toggleCollapse treeLayout v nodeId = Some v) /\
    exists v1 v2,
      toggleCollapse treeLayout v nodeId = Some v1 /\
      toggleCollapse treeLayout v1 nodeId = Some v2 /\
      StrSet.same (collapsedIds v2) (collapsedIds v) /\
      computeVisibleRows v2 (allRows v2) (collapsedIds v2) =
      computeVisibleRows v (allRows v) (collapsedIds v).
Proof.
  intros v nodeId src Hsrc.
  assert (Hleaf : childrenOf (childrenMap v) nodeId = [] ->
                  toggleCollapse treeLayout v nodeId = Some v).
  { intros Hkids. unfold toggleCollapse. unfold childrenOf in Hkids.
    destruct (StrMap.get nodeId (childrenMap v)) as [a|]; [subst a|]; reflexivity. }
  split; [exact Hleaf|].
  destruct (childrenOf (childrenMap v) nodeId) as [|k ks] eqn:Hkids.
  - exists v, v. rewrite (Hleaf eq_refl). repeat split.
  - assert (Hne : childrenOf (childrenMap v) nodeId <> []) by (rewrite Hkids; discriminate).
    destruct (toggleCollapse_parent v nodeId src Hne Hsrc) as (v1 & Ht1 & Hi1 & Hc1).
    assert (Hne1 : childrenOf (childrenMap v1) nodeId <> []).
    { destruct Hi1 as (_ & -> & _). exact Hne. }
    assert (Hsrc1 : sourceRowsOf v1 (allRows v1) = Some src).
    { rewrite (sourceRowsOf_inputs v v1 _ Hi1). destruct Hi1 as [-> _]. exact Hsrc. }
    destruct (toggleCollapse_parent v1 nodeId src Hne1 Hsrc1) as (v2 & Ht2 & Hi2 & Hc2).
    exists v1, v2. split; [exact Ht1|]. split; [exact Ht2|].
    assert (Hsame : StrSet.same (collapsedIds v2) (collapsedIds v)).
    { rewrite Hc2, Hc1. apply toggled_twice. }
    split; [exact Hsame|].
    assert (Hi : sameInputs v v2) by (eapply sameInputs_trans; eassumption).
    pose proof Hi as [Hrows Hrest]. rewrite Hrows.
    apply computeVisibleRows_inputs; [exact (conj Hrows Hrest)|].
    intros x. symmetry. apply Hsame.
Qed.

End CollapseProperties.

(** ** The working set handed to hierarchy construction *)

Lemma hasDuplicates_false (ids : list string) :
  D3.hasDuplicates ids = false <-> NoDup ids.
Proof.
  induction ids as [|i ids IH]; simpl.
  - split; [constructor | reflexivity].
  - rewrite orb_false_iff, IH, has_false_not_In. split.
    + intros [H1 H2]. now constructor.
    + intros H. inversion H; subst. auto.
Qed.


Lemma map_id_reparentFirst (rid : string) (w : list NodeRow.t) :
  map NodeRow.id (reparentFirst rid w) = map NodeRow.id w.
Proof.
  induction w as [|x w IH]; simpl; [reflexivity|].
  destruct (String.eqb (NodeRow.id x) rid); simpl; [reflexivity | now rewrite IH].
Qed.

Lemma map_id_reparent_all (roots w : list NodeRow.t) :
  map NodeRow.id (fold_left (fun w r => reparentFirst (NodeRow.id r) w) roots w) =
  map NodeRow.id w.
Proof.
  revert w. induction roots as [|r roots IH]; intros w; simpl; [reflexivity|].
  now rewrite IH, map_id_reparentFirst.
Qed.


(** With unique ids, [findIndex] can only find the row itself. *)
Lemma reparentFirst_unique (rid : string) (w : list NodeRow.t) :
  NoDup (map NodeRow.id w) ->
  reparentFirst rid w =
  map (fun x => if String.eqb (NodeRow.id x) rid
                then NodeRow.withParent (Some syntheticRootId) x else x) w.
Proof.
  induction w as [|x w IH]; intros Hnd; simpl; [reflexivity|].
  inversion Hnd as [|? ? Hnotin Hnd']; subst.
  destruct (String.eqb_spec (NodeRow.id x) rid) as [<-|Hne].
  - f_equal. clear IH Hnd Hnd'. induction w as [|y w IHw]; simpl; [reflexivity|].
    destruct (String.eqb_spec (NodeRow.id y) (NodeRow.id x)) as [Heq|_].
    + exfalso. apply Hnotin. simpl. now left.
    + rewrite <- IHw; [reflexivity|]. intros H. apply Hnotin. now right.
  - now rewrite IH.
Qed.

Lemma reparent_all_unique (roots w : list NodeRow.t) :
  NoDup (map NodeRow.id w) ->
  fold_left (fun w r => reparentFirst (NodeRow.id r) w) roots w =
  map (fun x => if StrSet.has (NodeRow.id x) (map NodeRow.id roots)
                then NodeRow.withParent (Some syntheticRootId) x else x) w.
Proof.
  revert w. induction roots as [|r roots IH]; intros w Hnd; simpl.
  - symmetry. rewrite <- (map_id w) at 2. apply map_ext. reflexivity.
  - rewrite IH by now rewrite map_id_reparentFirst.
    rewrite (reparentFirst_unique _ _ Hnd), map_map. apply map_ext. intros x.
    destruct (String.eqb_spec (NodeRow.id x) (NodeRow.id r)) as [Heq|Hne]; simpl.
    + destruct (StrSet.has _ _); reflexivity.
    + reflexivity.
Qed.

Lemma root_ids_spec (rows : list NodeRow.t) (x : NodeRow.t) :
  NoDup (map NodeRow.id rows) -> In x rows ->
  StrSet.has (NodeRow.id x) (map NodeRow.id (filter (isRootIn (idSetOf rows)) rows)) =
  isRootIn (idSetOf rows) x.
Proof.
  intros Hnd Hx. destruct (isRootIn (idSetOf rows) x) eqn:Hroot.
  - apply has_In, in_map, filter_In. auto.
  - apply has_false_not_In. intros Hin. apply in_map_iff in Hin.
    destruct Hin as [r [Hid Hr]]. apply filter_In in Hr. destruct Hr as [Hr Hrr].
    assert (r = x) by (apply (same_id_same_row rows); auto). subst r. congruence.
Qed.

(** The working set when the synthetic root is added and ids are unique:
    every root hangs under the synthetic root, the other rows are untouched. *)
Lemma workingSet_synthetic (rows : list NodeRow.t) :
  List.length (filter (isRootIn (idSetOf rows)) rows) <> 1 ->
  NoDup (map NodeRow.id (fst (workingSet rows))) ->
  workingSet rows =
  (map (underSynthetic (idSetOf rows)) rows ++ [syntheticRow], Some syntheticRootId) /\
  NoDup (map NodeRow.id rows) /\
  ~ In syntheticRootId (map NodeRow.id rows).
Proof.
  intros Hroots Hnd. unfold workingSet in *.
  destruct (Nat.eqb_spec (List.length (filter (isRootIn (idSetOf rows)) rows)) 1) as [|_];
    [contradiction|].
  cbn [negb fst] in *. rewrite map_id_reparent_all, map_app in Hnd. simpl in Hnd.
  assert (Hnd0 : NoDup (map NodeRow.id (rows ++ [syntheticRow])))
    by now rewrite map_app.
  apply NoDup_remove in Hnd. rewrite app_nil_r in Hnd. destruct Hnd as [Hnd Hsyn].
  split; [|split; assumption].
  rewrite (reparent_all_unique _ _ Hnd0), map_app. f_equal. f_equal.
  - apply map_ext_in. intros x Hx. unfold underSynthetic.
    now rewrite (root_ids_spec rows x Hnd Hx).
  - simpl. destruct (StrSet.has _ _) eqn:Hh; [|reflexivity].
    exfalso. apply has_In, in_map_iff in Hh. destruct Hh as [r [Hid Hr]].
    apply filter_In in Hr. apply Hsyn. rewrite <- Hid. apply in_map. tauto.
Qed.

Lemma stratify_Some (working : list NodeRow.t) (h : D3.HierarchyNode) :
  D3.stratify working = Some h ->
  NoDup (map NodeRow.id working) /\
  D3.hasDangling working = false /\
  D3.data h = working /\
  filter (fun r => match NodeRow.parentKey r with None => true | Some _ => false end)
         working = [D3.root h].
Proof.
  unfold D3.stratify.
  destruct (D3.hasDuplicates _) eqn:Hd; [discriminate|].
  destruct (D3.hasDangling working) eqn:Hg; [discriminate|].
  destruct (D3.hasCycle working); [discriminate|].
  destruct (filter _ working) as [|r [|r' rest]] eqn:Hf; try discriminate.
  intros [= <-]. apply hasDuplicates_false in Hd. auto.
Qed.

(** ** What [computeLayout] leaves in the outputs *)

Lemma filter_map_comm {A B} (f : A -> B) (p : B -> bool) (l : list A) :
  filter p (map f l) = map f (filter (fun a => p (f a)) l).
Proof.
  induction l as [|a l IH]; simpl; [reflexivity|].
  destruct (p (f a)); simpl; now rewrite IH.
Qed.

Lemma map_flat_map_comm {A B C} (f : B -> C) (g : A -> list B) (l : list A) :
  map f (flat_map g l) = flat_map (fun a => map f (g a)) l.
Proof.
  induction l as [|a l IH]; simpl; [reflexivity|].
  now rewrite map_app, IH.
Qed.

Lemma fitToViewport_outputs (v : Visual) :
  nodes (fitToViewport v) = nodes v /\
  links (fitToViewport v) = links v /\
  tableRows (fitToViewport v) = tableRows v /\
  message (fitToViewport v) = message v.
Proof.
  unfold fitToViewport. destruct (_ || _ || _); [auto|].
  destruct (fold_left _ _ _) as [[[[minX minY] maxX] maxY]|]; auto.
Qed.

Lemma nodeShape_swapXY (l : list LayoutNode.t) :
  map nodeShape (map swapXY l) = map nodeShape l.
Proof. rewrite map_map. apply map_ext. reflexivity. Qed.

Lemma linkShape_swapXY (l : list Link) :
  map linkShape (map (fun l => (swapXY (source l), swapXY (target l))) l) =
  map linkShape l.
Proof. rewrite map_map. apply map_ext. reflexivity. Qed.

Lemma filter_all {A} (l : list A) : filter (fun _ => true) l = l.
Proof. induction l; simpl; congruence. Qed.

(** ** Depths in the constructed tree *)

Lemma optEqb_true (o : option string) (s : string) : optEqb o s = true <-> o = Some s.
Proof.
  destruct o as [x|]; simpl; [|split; discriminate].
  rewrite String.eqb_eq. split; congruence.
Qed.

Lemma in_kids (working : list NodeRow.t) (n c : NodeRow.t) :
  In c (D3.kids working n) <-> In c working /\ NodeRow.parentKey c = Some (NodeRow.id n).
Proof. unfold D3.kids. now rewrite filter_In, optEqb_true. Qed.

Lemma preorder_invariant (P : NodeRow.t -> nat -> Prop) (working : list NodeRow.t) :
  (forall n d c, P n d -> In c (D3.kids working n) -> P c (S d)) ->
  forall fuel n d m k, P n d -> In (m, k) (D3.preorder fuel working n d) -> P m k.
Proof.
  intros Hstep. induction fuel as [|fuel IH]; intros n d m k Hn Hin; simpl in Hin.
  - contradiction.
  - destruct Hin as [[= <- <-]|Hin]; [assumption|].
    apply in_flat_map in Hin. destruct Hin as [c [Hc Hin]].
    apply (IH c (S d)); [eapply Hstep; eassumption | assumption].
Qed.

Lemma levels_invariant (P : NodeRow.t -> nat -> Prop) (working : list NodeRow.t) :
  (forall n d c, P n d -> In c (D3.kids working n) -> P c (S d)) ->
  forall fuel level,
    (forall n d, In (n, d) level -> P n d) ->
    forall m k, In (m, k) (D3.levels fuel working level) -> P m k.
Proof.
  intros Hstep. induction fuel as [|fuel IH]; intros level Hlevel m k Hin; simpl in Hin.
  - contradiction.
  - destruct level as [|nd level]; [contradiction|].
    apply in_app_iff in Hin. destruct Hin as [Hin|Hin]; [now apply Hlevel|].
    revert Hin. apply IH. intros c d' Hc.
    apply in_flat_map in Hc. destruct Hc as [[n d] [Hnd Hc]].
    apply in_map_iff in Hc. destruct Hc as [c' [[= <- <-] Hc']].
    apply (Hstep n d); [now apply Hlevel | assumption].
Qed.

Lemma parentKey_underSynthetic_root (idSet : StrSet.t) (r : NodeRow.t) :
  isRootIn idSet r = true ->
  NodeRow.parentKey (underSynthetic idSet r) = Some syntheticRootId /\
  NodeRow.id (underSynthetic idSet r) = NodeRow.id r.
Proof.
  intros Hroot. unfold underSynthetic. rewrite Hroot. split; reflexivity.
Qed.

Lemma shifted_step (rows : list NodeRow.t) :
  NoDup (map NodeRow.id rows) ->
  ~ In syntheticRootId (map NodeRow.id rows) ->
  forall n d c,
    shifted rows n d ->
    In c (D3.kids (map (underSynthetic (idSetOf rows)) rows ++ [syntheticRow]) n) ->
    shifted rows c (S d).
Proof.
  intros Hnd Hsyn n d c Hn Hc. apply in_kids in Hc. destruct Hc as [Hc Hpar].
  apply in_app_iff in Hc. destruct Hc as [Hc|[<-|[]]]; [|discriminate].
  apply in_map_iff in Hc. destruct Hc as [c0 [<- Hc0]].
  destruct (isRootIn (idSetOf rows) c0) eqn:Hroot.
  - destruct (parentKey_underSynthetic_root _ _ Hroot) as [Hk Hid].
    rewrite Hk in Hpar. injection Hpar as Hpar.
    destruct Hn as [[-> ->]|(n0 & j & Hn0 & Hidn & _ & _)].
    + right. exists c0, 0. repeat split; auto. now constructor.
    + exfalso. apply Hsyn. rewrite Hpar, <- Hidn. now apply in_map.
  - unfold underSynthetic in *. rewrite Hroot in *.
    destruct Hn as [[-> ->]|(n0 & j & Hn0 & Hidn & -> & Hdepth)].
    + exfalso. unfold isRootIn in Hroot. rewrite Hpar in Hroot.
      apply negb_false_iff, has_idSetOf in Hroot. now apply Hsyn.
    + right. exists c0, (S j). repeat split; auto.
      apply (depth_child rows c0 n0 j); auto. now rewrite Hidn.
Qed.

Section LayoutProperties.

Variable treeLayout : Q -> Q -> D3.HierarchyNode -> NodeRow.t -> Q * Q.

(** When construction fails, the outputs are emptied and the failure is
    reported. *)
Lemma computeLayout_failed (this : Visual) (rows : list NodeRow.t) (autoFit : bool) :
  D3.stratify (fst (workingSet rows)) = None ->
  computeLayout treeLayout this rows autoFit =
  (false, setMessage (Some InvalidHierarchy) (setOutputs [] [] [] this)).
Proof.
  unfold computeLayout, workingSet, syntheticRow. cbv zeta.
  destruct (negb _); cbn [fst]; intros ->; reflexivity.
Qed.

Ltac shape_nodes sroot :=
  rewrite ?nodeShape_swapXY;
  etransitivity;
  [ symmetry; apply (filter_map_comm nodeShape (fun s => keepId sroot (fst s)))
  | rewrite map_map; reflexivity ].

Ltac shape_links sroot :=
  rewrite ?linkShape_swapXY;
  etransitivity;
  [ symmetry; apply (filter_map_comm linkShape (fun s => keepId sroot (fst (fst s))))
  | rewrite map_flat_map_comm; f_equal; apply flat_map_ext; intros nd;
    rewrite map_map; reflexivity ].

(** When construction succeeds, the outputs are the pre-order nodes and the
    breadth-first links of the constructed tree, the synthetic root left
    out and the depths shifted. *)
Lemma computeLayout_built (this : Visual) (rows : list NodeRow.t) (autoFit : bool)
    (h : D3.HierarchyNode) :
  D3.stratify (fst (workingSet rows)) = Some h ->
  let r := computeLayout treeLayout this rows autoFit in
  fst r = true /\
  map nodeShape (nodes (snd r)) = nodeShapes h (snd (workingSet rows)) /\
  map nodeShape (tableRows (snd r)) = nodeShapes h (snd (workingSet rows)) /\
  map linkShape (links (snd r)) = linkShapes h (snd (workingSet rows)) /\
  message (snd r) = message this.
Proof.
  unfold computeLayout, workingSet, syntheticRow, nodeShapes, linkShapes. cbv zeta.
  destruct (negb _); cbn [fst snd]; intros ->.
  - destruct (orientation (settings this)), autoFit; cbn [fst snd];
      try match goal with
          | |- context [fitToViewport ?v] =>
              destruct (fitToViewport_outputs v) as (-> & -> & -> & ->)
          end;
      cbn [nodes links tableRows message setOutputs];
      (split; [reflexivity|]);
      (split; [shape_nodes (Some syntheticRootId)|]);
      (split; [shape_nodes (Some syntheticRootId)|]);
      (split; [shape_links (Some syntheticRootId) | reflexivity]).
  - destruct (orientation (settings this)), autoFit; cbn [fst snd];
      try match goal with
          | |- context [fitToViewport ?v] =>
              destruct (fitToViewport_outputs v) as (-> & -> & -> & ->)
          end;
      cbn [nodes links tableRows message setOutputs keepId];
      rewrite !filter_all;
      rewrite ?nodeShape_swapXY, ?linkShape_swapXY;
      (split; [reflexivity|]);
      (split; [rewrite map_map; reflexivity|]);
      (split; [rewrite map_map; reflexivity|]);
      (split; [|reflexivity]);
      rewrite map_flat_map_comm; apply flat_map_ext; intros nd;
      rewrite map_map; reflexivity.
Qed.



(** The constructed tree when the synthetic root was added. *)
Lemma built_with_synthetic (rows : list NodeRow.t) (h : D3.HierarchyNode) :
  List.length (filter (isRootIn (idSetOf rows)) rows) <> 1 ->
  D3.stratify (fst (workingSet rows)) = Some h ->
  snd (workingSet rows) = Some syntheticRootId /\
  D3.data h = map (underSynthetic (idSetOf rows)) rows ++ [syntheticRow] /\
  D3.root h = syntheticRow /\
  NoDup (map NodeRow.id (D3.data h)) /\
  NoDup (map NodeRow.id rows) /\
  ~ In syntheticRootId (map NodeRow.id rows).
Proof.
  intros Hroots Hs. apply stratify_Some in Hs. destruct Hs as (Hnd & _ & Hdata & Hroot).
  destruct (workingSet_synthetic rows Hroots Hnd) as (Hw & Hndrows & Hsyn).
  rewrite Hw in *. cbn [fst snd] in *.
  repeat split; auto; try congruence.
  assert (Hin : In syntheticRow [D3.root h]).
  { rewrite <- Hroot. apply filter_In. split; [|reflexivity].
    apply in_app_iff. right. now left. }
  destruct Hin as [<-|[]]. reflexivity.
Qed.

Lemma shifted_real (rows : list NodeRow.t) (m : NodeRow.t) (k : nat) :
  shifted rows m k -> NodeRow.id m <> syntheticRootId ->
  exists row d, In row rows /\ NodeRow.id row = NodeRow.id m /\
                RealDepth rows row d /\ (Z.of_nat k - 1)%Z = Z.of_nat d.
Proof.
  intros [[-> _]|(m0 & j & Hm0 & Hid & -> & Hd)] Hne; [now elim Hne|].
  exists m0, j. repeat split; auto. lia.
Qed.

Lemma layout_with_synthetic (this : Visual) (rows : list NodeRow.t) (autoFit : bool) :
  List.length (filter (isRootIn (idSetOf rows)) rows) <> 1 ->
  let r := computeLayout treeLayout this rows autoFit in
  (forall n, In n (nodes (snd r)) -> realNode rows n) /\
  (forall l, In l (links (snd r)) -> realNode rows (source l) /\ realNode rows (target l)) /\
  (forall n, In n (tableRows (snd r)) -> realNode rows n) /\
  (fst r = true ->
   forall row, In row rows -> isRootIn (idSetOf rows) row = true ->
     exists n, In n (nodes (snd r)) /\
               LayoutNode.id n = NodeRow.id row /\ LayoutNode.depth n = 0%Z).
Proof.
  intros Hne r. set (real := realNode rows).
  destruct (D3.stratify (fst (workingSet rows))) as [h|] eqn:Hs.
  2:{ unfold r. rewrite (computeLayout_failed this rows autoFit Hs).
      cbn [fst snd nodes links tableRows setMessage setOutputs].
      repeat split; try contradiction; discriminate. }
  destruct (computeLayout_built this rows autoFit h Hs) as (_ & Hnodes & Htable & Hlinks & _).
  fold r in Hnodes, Htable, Hlinks.
  destruct (built_with_synthetic rows h Hne Hs)
    as (Hsroot & Hdata & Hroot & Hndw & Hnd & Hsyn).
  rewrite Hsroot in *.
  pose proof (shifted_step rows Hnd Hsyn) as Hstep. rewrite <- Hdata in Hstep.
  assert (Hpre : forall m k, In (m, k) (D3.eachBefore h) -> shifted rows m k).
  { intros m k. unfold D3.eachBefore. rewrite Hroot.
    apply (preorder_invariant (shifted rows) (D3.data h) Hstep). now left. }
  assert (Hbfs : forall m k, In (m, k) (D3.each h) -> shifted rows m k).
  { intros m k. unfold D3.each. rewrite Hroot.
    apply (levels_invariant (shifted rows) (D3.data h) Hstep).
    intros n d [[= <- <-]|[]]. now left. }
  assert (Hshape : forall n, In (nodeShape n) (nodeShapes h (Some syntheticRootId)) -> real n).
  { intros n Hn. unfold nodeShapes in Hn. apply filter_In in Hn. destruct Hn as [Hn Hkeep].
    cbn [keepId fst nodeShape] in Hkeep. apply negb_true_iff, String.eqb_neq in Hkeep.
    split; [assumption|].
    apply in_map_iff in Hn. destruct Hn as [[m k] [Heq Hmk]]. cbn [fst snd depthOffset] in Heq.
    injection Heq as Hid Hdepth.
    destruct (shifted_real rows m k (Hpre m k Hmk)) as (row & d & H1 & H2 & H3 & H4);
      [congruence|].
    exists row, d. repeat split; auto; congruence. }
  split; [|split; [|split]].
  - intros n Hn. apply Hshape. rewrite <- Hnodes. now apply in_map.
  - intros l Hl. apply (in_map linkShape) in Hl. rewrite Hlinks in Hl.
    unfold linkShapes in Hl. apply filter_In in Hl. destruct Hl as [Hl Hkeep].
    apply in_flat_map in Hl. destruct Hl as [[n d] [Hnd' Hl]].
    apply in_map_iff in Hl. destruct Hl as [c [Heq Hc]].
    cbn [fst snd depthOffset] in Heq, Hc. unfold linkShape, nodeShape in Heq, Hkeep.
    pose proof (f_equal (fun s => fst (fst s)) Heq) as Hsid.
    pose proof (f_equal (fun s => snd (fst s)) Heq) as Hsdepth.
    pose proof (f_equal (fun s => fst (snd s)) Heq) as Htid.
    pose proof (f_equal (fun s => snd (snd s)) Heq) as Htdepth.
    cbn [fst snd] in Hsid, Hsdepth, Htid, Htdepth. clear Heq.
    cbn [keepId fst] in Hkeep. apply negb_true_iff, String.eqb_neq in Hkeep.
    pose proof (Hbfs n d Hnd') as Hn.
    pose proof (Hstep n d c Hn Hc) as Hcs.
    assert (Hcne : NodeRow.id c <> syntheticRootId).
    { intros Hcid. apply in_kids in Hc. destruct Hc as [Hcw Hpar].
      assert (c = syntheticRow).
      { apply (same_id_same_row (D3.data h)); auto.
        rewrite Hdata. apply in_app_iff. right. now left. }
      subst c. discriminate. }
    split.
    + split; [assumption|].
      destruct (shifted_real rows n d Hn) as (row & d' & H1 & H2 & H3 & H4); [congruence|].
      exists row, d'. repeat split; auto; congruence.
    + split; [congruence|].
      destruct (shifted_real rows c (S d) Hcs Hcne) as (row & d' & H1 & H2 & H3 & H4).
      exists row, d'. repeat split; auto; congruence.
  - intros n Hn. apply Hshape. rewrite <- Htable. now apply in_map.
  - intros _ row Hrow Hisroot.
    destruct (parentKey_underSynthetic_root _ _ Hisroot) as [Hk Hid].
    assert (Hkid : In (underSynthetic (idSetOf rows) row) (D3.kids (D3.data h) syntheticRow)).
    { apply in_kids. split; [|exact Hk].
      rewrite Hdata. apply in_app_iff. left. now apply in_map. }
    assert (Hin : In (underSynthetic (idSetOf rows) row, 1) (D3.eachBefore h)).
    { assert (Hlen : exists f, List.length (D3.data h) = S (S f)).
      { rewrite Hdata, length_app, length_map. simpl.
        destruct rows as [|x rows']; [contradiction|]. simpl.
        exists (List.length rows'). lia. }
      destruct Hlen as [f Hlen].
      unfold D3.eachBefore. rewrite Hroot, Hlen. cbn [D3.preorder]. right.
      apply in_flat_map. exists (underSynthetic (idSetOf rows) row).
      split; [exact Hkid | now left]. }
    assert (Hs0 : In (NodeRow.id row, 0%Z) (map nodeShape (nodes (snd r)))).
    { rewrite Hnodes. unfold nodeShapes. apply filter_In. split.
      - apply in_map_iff. exists (underSynthetic (idSetOf rows) row, 1).
        split; [|exact Hin]. cbn [fst snd depthOffset]. now rewrite Hid.
      - cbn [keepId fst]. apply negb_true_iff, String.eqb_neq.
        intros Heq. apply Hsyn. rewrite <- Heq. now apply in_map. }
    apply in_map_iff in Hs0. destruct Hs0 as [n [Heq Hn]].
    injection Heq as Hnid Hndepth. exists n. auto.
Qed.

(** C3: for a row set with two or more roots, after [computeLayout] the
    node, link and table-row outputs do not contain the synthetic root id;
    every depth they report is the real depth of the row in the forest of
    the rows (the synthetic root's level taken off); and when the layout
    succeeds every real root is there with depth 0. *)
Theorem synthetic_root_transparent :
  forall (this : Visual) (rows : list NodeRow.t) (autoFit : bool),
    2 <= List.length (filter (isRootIn (idSetOf rows)) rows) ->
    let r := computeLayout treeLayout this rows autoFit in
    (forall n, In n (nodes (snd r)) -> realNode rows n) /\
    (forall l, In l (links (snd r)) ->
               realNode rows (source l) /\ realNode rows (target l)) /\
    (forall n, In n (tableRows (snd r)) -> realNode rows n) /\
    (fst r = true ->
     forall row, In row rows -> isRootIn (idSetOf rows) row = true ->
       exists n, In n (nodes (snd r)) /\
                 LayoutNode.id n = NodeRow.id row /\ LayoutNode.depth n = 0%Z).
Proof.
  intros this rows autoFit Hroots. apply layout_with_synthetic. lia.
Qed.

Lemma hasDangling_true (working : list NodeRow.t) (row : NodeRow.t) (p : string) :
  In row working -> NodeRow.parentKey row = Some p ->
  ~ In p (map NodeRow.id working) ->
  D3.hasDangling working = true.
Proof.
  intros Hrow Hk Hp. unfold D3.hasDangling. apply existsb_exists.
  exists row. split; [assumption|]. rewrite Hk.
  apply negb_true_iff, has_false_not_In. exact Hp.
Qed.

(** C5, as the code has it: a row whose non-null [parentId] resolves to no
    row of the set handed to [computeLayout] is taken as a root.  Alone as
    a root, its reference reaches tree construction, which fails: [false]
    is returned and the outputs are emptied.  With two or more roots it is
    re-parented under the synthetic root and, when construction succeeds,
    laid out as a root at depth 0. *)
Theorem unresolved_parent_is_root :
  forall (this : Visual) (rows : list NodeRow.t) (autoFit : bool)
         (row : NodeRow.t) (p : string),
    In row rows ->
    NodeRow.parentKey row = Some p ->
    ~ In p (map NodeRow.id rows) ->
    let roots := filter (isRootIn (idSetOf rows)) rows in
    let r := computeLayout treeLayout this rows autoFit in
    In row roots /\
    (List.length roots = 1 ->
     fst r = false /\ nodes (snd r) = [] /\ links (snd r) = [] /\
     tableRows (snd r) = [] /\ message (snd r) = Some InvalidHierarchy) /\
    (2 <= List.length roots -> fst r = true ->
     exists n, In n (nodes (snd r)) /\
               LayoutNode.id n = NodeRow.id row /\ LayoutNode.depth n = 0%Z).
Proof.
  intros this rows autoFit row p Hrow Hk Hp roots r.
  assert (Hroot : isRootIn (idSetOf rows) row = true).
  { unfold isRootIn. rewrite Hk. apply negb_true_iff.
    destruct (StrSet.has p (idSetOf rows)) eqn:Hh; [|reflexivity].
    apply has_idSetOf in Hh. contradiction. }
  split; [apply filter_In; auto|]. split.
  - intros Hone.
    assert (Hs : D3.stratify (fst (workingSet rows)) = None).
    { unfold workingSet. fold roots. rewrite Hone. cbn [Nat.eqb negb fst].
      unfold D3.stratify. rewrite (hasDangling_true rows row p Hrow Hk Hp).
      destruct (D3.hasDuplicates _); reflexivity. }
    unfold r. rewrite (computeLayout_failed this rows autoFit Hs). repeat split.
  - intros Htwo Hok.
    assert (Hne : List.length (filter (isRootIn (idSetOf rows)) rows) <> 1)
      by (fold roots; lia).
    destruct (layout_with_synthetic this rows autoFit Hne) as (_ & _ & _ & Hdepth).
    exact (Hdepth Hok row Hrow Hroot).
Qed.
(** The recomputations that refit or re-anchor keep the scale in range. *)
Lemma computeLayout_in_range (this : Visual) (rows : list NodeRow.t) (autoFit : bool) :
  scaleInRange this -> scaleInRange (snd (computeLayout treeLayout this rows autoFit)).
Proof.
  intros Hv. unfold computeLayout.
  destruct (if negb _ then _ else _) as [working syntheticRoot].
  destruct (D3.stratify working) as [root|]; [|exact Hv].
  destruct (match syntheticRoot with Some _ => _ | None => _ end) as [[ns ls] ts].
  destruct (match orientation (settings this) with LR => _ | TD => _ end) as [[ns' ls'] ts'].
  cbn [snd]. destruct autoFit; [|exact Hv].
  apply fitToViewport_in_range. exact Hv.
Qed.

Lemma computeLayoutFromState_in_range (this : Visual) (autoFit : bool)
    (focus : option string) (r : bool * Visual) :
  scaleInRange this ->
  computeLayoutFromState treeLayout this autoFit focus = Some r ->
  scaleInRange (snd r).
Proof.
  intros Hv. unfold computeLayoutFromState.
  destruct (computeVisibleRows this (allRows this) (collapsedIds this)) as [vis|];
    cbn [bind]; [|discriminate].
  case_zero.
  - intros [= <-]. cbn [snd]. destruct (anyFilterShown _); exact Hv.
  - pose proof (computeLayout_in_range this vis autoFit Hv) as Hr.
    destruct (computeLayout treeLayout this vis autoFit) as [ok v']. cbn [snd] in Hr.
    destruct (negb ok); [intros [= <-]; exact Hr|].
    destruct autoFit; [intros [= <-]; exact Hr|].
    destruct (Js.truthyOpt focus) as [nid|]; [|intros [= <-]; exact Hr].
    destruct (getNodeScreenPoint this focus) as [pt|]; [|intros [= <-]; exact Hr].
    intros [= <-]. cbn [snd]. now apply keepNodeScreenPosition_in_range.
Qed.

Lemma toggleCollapse_in_range (this v : Visual) (nodeId : string) :
  scaleInRange this -> toggleCollapse treeLayout this nodeId = Some v -> scaleInRange v.
Proof.
  intros Hv. unfold toggleCollapse. destruct (negb _); [now intros [= <-]|].
  destruct (computeLayoutFromState _ _ _ _) as [r|] eqn:Hr; cbn [bind]; [|discriminate].
  intros [= <-]. apply computeLayoutFromState_in_range in Hr; [exact Hr|].
  destruct (StrSet.has nodeId (collapsedIds this)); exact Hv.
Qed.

Lemma refilter_in_range (this v : Visual) :
  scaleInRange this -> refilter treeLayout this = Some v -> scaleInRange v.
Proof.
  intros Hv. unfold refilter.
  destruct (computeLayoutFromState _ _ _ _) as [r|] eqn:Hr; cbn [bind]; [|discriminate].
  intros [= <-]. apply computeLayoutFromState_in_range in Hr; exact Hr || exact Hv.
Qed.

End LayoutProperties.

(** ** The "no matches" state *)

Section NoMatches.

Variable treeLayout : Q -> Q -> D3.HierarchyNode -> NodeRow.t -> Q * Q.

(** With the search query, the hierarchy filter or the parent filter
    active, an empty visible set empties the outputs and shows the
    message. *)
Lemma no_matches_surfaced (this : Visual) (autoFit : bool) (focus : option string) :
  computeVisibleRows this (allRows this) (collapsedIds this) = Some [] ->
  anyFilterShown this = true ->
  exists v,
    computeLayoutFromState treeLayout this autoFit focus = Some (true, v) /\
    nodes v = [] /\ links v = [] /\ tableRows v = [] /\
    message v = Some NoMatches.
Proof.
  intros Hvis Hany. unfold computeLayoutFromState. rewrite Hvis. cbn [bind List.length Nat.eqb].
  assert (Hany' : anyFilterShown (setOutputs [] [] [] this) = true) by exact Hany.
  rewrite Hany'. eexists. split; [reflexivity|]. repeat split.
Qed.

(** C6 fails on the dropdown filter: with one row tagged [" x"] and the
    dropdown filter set to that tag (the option the toolbar offers), no
    row survives, the dropdown filter is the only active input, the
    outputs are empty, and no message is shown. *)
Theorem dropdown_only_shows_no_message :
  exists v,
    setDropdownFilter treeLayout (visualOf taggedRows) " x" = Some v /\
    dropdownFilterValue v = Some " x" /\
    computeVisibleRows v (allRows v) (collapsedIds v) = Some [] /\
    nodes v = [] /\ links v = [] /\ tableRows v = [] /\
    message v = None.
Proof.
  eexists. split; [vm_compute; reflexivity|]. repeat split.
Qed.

End NoMatches.

(** ** The search example *)

Lemma keepNodeScreenPosition_outputs (v : Visual) (nodeId : string) (pt : Q * Q) :
  nodes (keepNodeScreenPosition v nodeId pt) = nodes v /\
  links (keepNodeScreenPosition v nodeId pt) = links v /\
  tableRows (keepNodeScreenPosition v nodeId pt) = tableRows v /\
  message (keepNodeScreenPosition v nodeId pt) = message v.
Proof.
  unfold keepNodeScreenPosition. destruct (find _ _); auto.
Qed.

Section SearchExample.

Variable treeLayout : Q -> Q -> D3.HierarchyNode -> NodeRow.t -> Q * Q.

(** A successful recomputation, seen through the shapes of its outputs. *)
Lemma computeLayoutFromState_built (v : Visual) (autoFit : bool) (focus : option string)
    (vis : list NodeRow.t) (h : D3.HierarchyNode) :
  computeVisibleRows v (allRows v) (collapsedIds v) = Some vis ->
  vis <> [] ->
  D3.stratify (fst (workingSet vis)) = Some h ->
  exists v',
    computeLayoutFromState treeLayout v autoFit focus = Some (true, v') /\
    sameInputs v v' /\ collapsedIds v' = collapsedIds v /\
    map nodeShape (nodes v') = nodeShapes h (snd (workingSet vis)) /\
    map nodeShape (tableRows v') = nodeShapes h (snd (workingSet vis)) /\
    map linkShape (links v') = linkShapes h (snd (workingSet vis)) /\
    message v' = message v.
Proof.
  intros Hvis Hne Hs. unfold computeLayoutFromState. rewrite Hvis. cbn [bind].
  destruct vis as [|x vis']; [congruence|]. cbn [List.length Nat.eqb].
  pose proof (computeLayout_built treeLayout v (x :: vis') autoFit h Hs) as Hb.
  pose proof (computeLayout_frame treeLayout v (x :: vis') autoFit) as Hf.
  destruct (computeLayout treeLayout v (x :: vis') autoFit) as [ok v'].
  cbn [fst snd] in *. destruct Hb as (-> & Hn & Ht & Hl & Hm). destruct Hf as [Hi Hc].
  cbn [negb].
  destruct autoFit; [exists v'; repeat split; auto; apply Hi|].
  destruct (Js.truthyOpt focus) as [nid|]; [|exists v'; repeat split; auto; apply Hi].
  destruct (getNodeScreenPoint v focus) as [pt|]; [|exists v'; repeat split; auto; apply Hi].
  exists (keepNodeScreenPosition v' nid pt).
  destruct (keepNodeScreenPosition_outputs v' nid pt) as (-> & -> & -> & ->).
  destruct (keepNodeScreenPosition_frame v' nid pt) as [Hi' Hc'].
  split; [reflexivity|]. split; [eapply sameInputs_trans; eassumption|].
  split; [congruence|]. auto.
Qed.

Lemma visibleIds_inputs (v v' : Visual) :
  sameInputs v v' -> collapsedIds v' = collapsedIds v -> visibleIds v' = visibleIds v.
Proof.
  intros Hi Hc. unfold visibleIds. rewrite Hc.
  pose proof Hi as [Hrows Hrest]. rewrite Hrows.
  now rewrite (computeVisibleRows_inputs v v' (allRows v) (collapsedIds v) (collapsedIds v)
                 (conj Hrows Hrest) (fun x => eq_refl)).
Qed.

(** C1, as the code has it: on the rows A, B (under A), C (under A) and
    D (under B), with no other filter, the search query "D" keeps the whole
    tree under A, the topmost ancestor of the match: the visible set is
    {A, B, C, D}.  Collapsing B afterwards leaves {A, B, C}, and the search
    query is still "D". *)
Theorem search_then_collapse_example :
  exists v1 v2,
    setSearchQuery treeLayout exampleVisual "D" = Some v1 /\
    visibleIds v1 = Some ["A"; "B"; "C"; "D"] /\
    map LayoutNode.id (tableRows v1) = ["A"; "B"; "D"; "C"] /\
    toggleCollapse treeLayout v1 "B" = Some v2 /\
    collapsedIds v2 = ["B"] /\
    searchQuery v2 = "D" /\
    visibleIds v2 = Some ["A"; "B"; "C"] /\
    map LayoutNode.id (tableRows v2) = ["A"; "B"; "C"].
Proof.
  set (s1 := setMessage None (setFilters "D" None None None exampleVisual)).
  assert (Hset : setSearchQuery treeLayout exampleVisual "D" =
                 (r <- computeLayoutFromState treeLayout s1 true None ;; Some (snd r)))
    by reflexivity.
  destruct (computeLayoutFromState_built s1 true None exampleRows
              {| D3.data := exampleRows; D3.root := plainRow "A" None |})
    as (v1 & Hv1 & Hi1 & Hc1 & _ & Ht1 & _); [reflexivity | discriminate | reflexivity |].
  rewrite Hv1 in Hset. cbn [bind snd] in Hset.
  assert (Hvis1 : visibleIds v1 = Some ["A"; "B"; "C"; "D"]).
  { rewrite (visibleIds_inputs s1 v1 Hi1 Hc1). reflexivity. }
  assert (Hsrc1 : sourceRowsOf v1 (allRows v1) = Some exampleRows).
  { rewrite (sourceRowsOf_inputs s1 v1 _ Hi1). destruct Hi1 as [-> _]. reflexivity. }
  assert (Hkids : childrenOf (childrenMap v1) "B" <> []).
  { destruct Hi1 as (_ & -> & _). discriminate. }
  set (s2 := setCollapsedIds (StrSet.add "B" (collapsedIds v1)) v1).
  assert (Htog : toggleCollapse treeLayout v1 "B" =
                 (r <- computeLayoutFromState treeLayout s2 false (Some "B") ;; Some (snd r))).
  { assert (Hhas : StrSet.has "B" (collapsedIds v1) = false) by now rewrite Hc1.
    unfold toggleCollapse. destruct Hi1 as (_ & Hcm & _). rewrite Hcm, Hhas. reflexivity. }
  assert (Hi2 : sameInputs s1 s2).
  { eapply sameInputs_trans; [exact Hi1|]. repeat split. }
  assert (Hc2 : collapsedIds s2 = ["B"]) by (unfold s2; cbn; now rewrite Hc1).
  assert (Hvis2 : computeVisibleRows s2 (allRows s2) (collapsedIds s2) =
                  Some [plainRow "A" None; plainRow "B" (Some "A"); plainRow "C" (Some "A")]).
  { rewrite Hc2. pose proof Hi2 as [Hrows Hrest]. rewrite Hrows.
    rewrite (computeVisibleRows_inputs s1 s2 (allRows s1) ["B"] ["B"]
               (conj Hrows Hrest) (fun x => eq_refl)).
    reflexivity. }
  destruct (computeLayoutFromState_built s2 false (Some "B") _
              {| D3.data := [plainRow "A" None; plainRow "B" (Some "A"); plainRow "C" (Some "A")];
                 D3.root := plainRow "A" None |} Hvis2)
    as (v2 & Hv2 & Hi2' & Hc2' & _ & Ht2 & _); [discriminate | reflexivity |].
  rewrite Hv2 in Htog. cbn [bind snd] in Htog.
  exists v1, v2.
  split; [exact Hset|]. split; [exact Hvis1|].
  split.
  { transitivity (map fst (map nodeShape (tableRows v1))).
    - rewrite map_map. reflexivity.
    - rewrite Ht1. reflexivity. }
  split; [exact Htog|].
  split; [now rewrite Hc2', Hc2|].
  split.
  { destruct Hi2' as (_ & _ & -> & _). destruct Hi2 as (_ & _ & -> & _). reflexivity. }
  split.
  { rewrite (visibleIds_inputs s2 v2 Hi2' Hc2'). unfold visibleIds.
    rewrite Hvis2. reflexivity. }
  transitivity (map fst (map nodeShape (tableRows v2))).
  - rewrite map_map. reflexivity.
  - rewrite Ht2. reflexivity.
Qed.

End SearchExample.

(** The claim of C1 fails at its own input: with the query "D", C is
    visible, so the visible set is not {A, B, D}. *)
Lemma search_example_keeps_C :
  ~ (exists ids, visibleIds (setFilters "D" None None None exampleVisual) = Some ids /\
                 forall x, In x ids <-> In x ["A"; "B"; "D"]).
Proof.
  intros [ids [Hids Hsame]].
  vm_compute in Hids. injection Hids as <-.
  assert (HC : In "C" ["A"; "B"; "C"; "D"]) by (simpl; auto).
  apply Hsame in HC. simpl in HC.
  destruct HC as [H|[H|[H|[]]]]; discriminate.
Qed.

(** The claim of C5 fails at a two-root input: B names a parent X that no
    row carries, and the layout succeeds with B as a root at depth 0. *)
Lemma unresolved_parent_rendered :
  fst (computeLayout originLayout (visualOf unresolvedRows) unresolvedRows true) = true /\
  map nodeShape
      (nodes (snd (computeLayout originLayout (visualOf unresolvedRows) unresolvedRows true)))
  = [("A", 0%Z); ("B", 0%Z)] /\
  message (snd (computeLayout originLayout (visualOf unresolvedRows) unresolvedRows true))
  = None.
Proof.
  vm_compute. repeat split.
Qed.

(** ** The theorems at concrete inputs *)

Lemma example_ids_unique : NoDup (map NodeRow.id exampleRows).
Proof. apply hasDuplicates_false. reflexivity. Defined.

Lemma visible_rows_connected_witness :
  In "A" (map NodeRow.id
            [plainRow "A" None; plainRow "B" (Some "A"); plainRow "C" (Some "A")]).
Proof.
  apply (visible_rows_connected
           (setCollapsedIds ["B"] exampleVisual) exampleRows ["B"] exampleRows
           [plainRow "A" None; plainRow "B" (Some "A"); plainRow "C" (Some "A")]
           example_ids_unique)
    with (r := plainRow "B" (Some "A")).
  - simpl. intros [H|[H|[H|[H|[]]]]]; discriminate H.
  - apply incl_refl.
  - reflexivity.
  - reflexivity.
  - reflexivity.
  - simpl. right. left. reflexivity.
  - reflexivity.
  - simpl. left. reflexivity.
Defined.

Lemma synthetic_root_transparent_witness :
  exists n,
    In n (nodes (snd (computeLayout originLayout (visualOf twoRootRows) twoRootRows true))) /\
    LayoutNode.id n = "B" /\ LayoutNode.depth n = 0%Z.
Proof.
  assert (Htwo : 2 <= List.length (filter (isRootIn (idSetOf twoRootRows)) twoRootRows))
    by (vm_compute; apply le_n).
  destruct (synthetic_root_transparent originLayout (visualOf twoRootRows) twoRootRows
              true Htwo)
    as (_ & _ & _ & Hroots).
  apply (Hroots eq_refl (plainRow "B" None)).
  - simpl. right. left. reflexivity.
  - reflexivity.
Defined.


Lemma unresolved_parent_is_root_witness :
  In (plainRow "B" (Some "X"))
     (filter (isRootIn (idSetOf unresolvedRows)) unresolvedRows).
Proof.
  apply (unresolved_parent_is_root originLayout (visualOf unresolvedRows) unresolvedRows
           true (plainRow "B" (Some "X")) "X").
  - simpl. right. left. reflexivity.
  - reflexivity.
  - simpl. intros [H|[H|[]]]; discriminate H.
Defined.

Lemma toggleCollapse_idempotent_witness :
  exists v1 v2,
    toggleCollapse originLayout exampleVisual "B" = Some v1 /\
    toggleCollapse originLayout v1 "B" = Some v2 /\
    StrSet.same (collapsedIds v2) (collapsedIds exampleVisual) /\
    computeVisibleRows v2 (allRows v2) (collapsedIds v2) =
    computeVisibleRows exampleVisual (allRows exampleVisual) (collapsedIds exampleVisual).
Proof.
  apply (toggleCollapse_idempotent originLayout exampleVisual "B" exampleRows).
  reflexivity.
Defined.

Lemma zoom_keeps_anchor_witness :
  ((380#1) * scale (zoomBy exampleVisual (11#10)%Q) + tx (zoomBy exampleVisual (11#10)%Q)
   == lastViewportW exampleVisual / (2#1))%Q /\
  ((280#1) * scale (zoomBy exampleVisual (11#10)%Q) + ty (zoomBy exampleVisual (11#10)%Q)
   == lastViewportH exampleVisual / (2#1))%Q.
Proof.
  assert (Hs : ~ (scale exampleVisual == 0)%Q) by (intros H; discriminate H).
  destruct (zoom_keeps_anchor exampleVisual (380#1)%Q (280#1)%Q Hs) as [Hzoom _].
  apply (Hzoom (11#10)%Q); reflexivity.
Defined.

Lemma scale_stays_in_range_witness :
  scaleInRange
    (fold_left applyViewOp
       [OpZoomIn; OpCommitZoom (Some (1000#1)%Q); OpWheel (10#1)%Q (10#1)%Q (3#1)%Q;
        OpPan (5#1)%Q (5#1)%Q; OpFit]
       exampleVisual).
Proof.
  apply (scale_stays_in_range exampleVisual
           [OpZoomIn; OpCommitZoom (Some (1000#1)%Q); OpWheel (10#1)%Q (10#1)%Q (3#1)%Q;
            OpPan (5#1)%Q (5#1)%Q; OpFit]).
  reflexivity.
Defined.

(** * Further properties of the pipeline *)

(** ** The reachability walk, exactly *)

Lemma walk_sound (cm : ChildrenMap) (collapsed : StrSet.t) (R : string -> Prop) :
  (forall u x, R u -> StrSet.has u collapsed = false -> In x (childrenOf cm u) -> R x) ->
  forall (fuel : nat) (stack : list string) (seen out : StrSet.t),
    walk fuel cm collapsed stack seen = Some out ->
    (forall x, In x seen -> R x) -> (forall x, In x stack -> R x) ->
    forall x, In x out -> R x.
Proof.
  intros Hstep. induction fuel as [|fuel IH]; intros stack seen out Hw Hseen Hstack;
    simpl in Hw; [discriminate|].
  destruct stack as [|id rest].
  - injection Hw as <-. exact Hseen.
  - assert (Hid : R id) by (apply Hstack; now left).
    assert (Hrest : forall x, In x rest -> R x) by (intros x Hx; apply Hstack; now right).
    assert (Hadd : forall x, In x (StrSet.add id seen) -> R x).
    { intros x Hx. apply has_In in Hx. rewrite has_add in Hx.
      apply orb_true_iff in Hx. destruct Hx as [Hx|Hx].
      - apply String.eqb_eq in Hx. now subst.
      - apply Hseen. now apply has_In. }
    destruct (StrSet.has id seen); [now apply (IH rest seen)|].
    destruct (StrSet.has id collapsed) eqn:Hcol; [now apply (IH rest (StrSet.add id seen))|].
    apply (IH _ _ _ Hw Hadd). intros x Hx. unfold pushAll in Hx.
    apply in_app_iff in Hx. destruct Hx as [Hx|Hx]; [|now apply Hrest].
    apply (Hstep id); auto. now apply in_rev.
Qed.

Lemma walk_closed (cm : ChildrenMap) (collapsed : StrSet.t) :
  forall (fuel : nat) (stack : list string) (seen out : StrSet.t),
    walk fuel cm collapsed stack seen = Some out ->
    (forall x, In x stack -> In x out) /\
    (forall x, In x seen -> In x out) /\
    (forall u x, In u out -> ~ In u seen -> StrSet.has u collapsed = false ->
                 In x (childrenOf cm u) -> In x out).
Proof.
  induction fuel as [|fuel IH]; intros stack seen out Hw; simpl in Hw; [discriminate|].
  destruct stack as [|id rest].
  - injection Hw as <-. split; [intros x []|]. split; [auto|]. intros; contradiction.
  - assert (Hadd : forall x, In x (StrSet.add id seen) <-> x = id \/ In x seen).
    { intros x. rewrite <- !has_In, has_add, orb_true_iff, String.eqb_eq. tauto. }
    destruct (StrSet.has id seen) eqn:Hseen.
    + apply IH in Hw. destruct Hw as (Hst & Hsn & Hcl). repeat split; auto.
      intros x [<-|Hx]; [apply Hsn; now apply has_In | now apply Hst].
    + destruct (StrSet.has id collapsed) eqn:Hcol.
      * apply IH in Hw. destruct Hw as (Hst & Hsn & Hcl). repeat split.
        -- intros x [<-|Hx]; [apply Hsn, Hadd; now left | now apply Hst].
        -- intros x Hx. apply Hsn, Hadd. now right.
        -- intros u x Hu Hnot Hc Hx. apply (Hcl u); auto.
           intros Hin. apply Hadd in Hin. destruct Hin as [->|Hin]; [congruence | contradiction].
      * apply IH in Hw. destruct Hw as (Hst & Hsn & Hcl). repeat split.
        -- intros x [<-|Hx]; [apply Hsn, Hadd; now left|].
           apply Hst. unfold pushAll. apply in_app_iff. now right.
        -- intros x Hx. apply Hsn, Hadd. now right.
        -- intros u x Hu Hnot Hc Hx.
           destruct (String.eqb_spec u id) as [->|Hne].
           ++ apply Hst. unfold pushAll. apply in_app_iff. left. now apply in_rev in Hx.
           ++ apply (Hcl u); auto. intros Hin. apply Hadd in Hin.
              destruct Hin as [->|Hin]; [congruence | contradiction].
Qed.

(** The walk from an empty [seen] set returns exactly the reachable ids. *)
Lemma walk_exact (cm : ChildrenMap) (collapsed : StrSet.t) (fuel : nat)
    (stack : list string) (out : StrSet.t) :
  walk fuel cm collapsed stack StrSet.empty = Some out ->
  forall x, In x out <-> Reachable cm collapsed stack x.
Proof.
  intros Hw x. split.
  - apply (walk_sound cm collapsed (Reachable cm collapsed stack)
             (reach_child cm collapsed stack) fuel stack StrSet.empty out Hw).
    + intros y [].
    + intros y Hy. now constructor.
  - destruct (walk_closed cm collapsed fuel stack StrSet.empty out Hw) as (Hst & _ & Hcl).
    induction 1 as [y Hy|u y Hu IH Hcol Hy]; [now apply Hst|].
    apply (Hcl u y IH); auto.
Qed.

Lemma Reachable_starts (cm : ChildrenMap) (collapsed : StrSet.t) (s1 s2 : list string) :
  (forall x, In x s1 -> In x s2) ->
  forall x, Reachable cm collapsed s1 x -> Reachable cm collapsed s2 x.
Proof.
  intros Hs x. induction 1 as [y Hy|u y Hu IH Hcol Hy].
  - constructor. now apply Hs.
  - now apply (reach_child _ _ _ u).
Qed.

(** ** Every stage keeps the row order *)

Lemma filter_filter {A} (f g : A -> bool) (l : list A) :
  filter g (filter f l) = filter (fun a => f a && g a) l.
Proof.
  induction l as [|a l IH]; simpl; [reflexivity|].
  destruct (f a); simpl; [destruct (g a); now rewrite IH | exact IH].
Qed.

Lemma filter_none {A} (l : list A) : filter (fun _ => false) l = [].
Proof. induction l; simpl; auto. Qed.

Lemma applySearchFilter_filter cm rows query out :
  applySearchFilter cm rows query = Some out -> exists keep, out = filter keep rows.
Proof.
  unfold applySearchFilter. destruct (negb _).
  - intros [= <-]. exists (fun _ => true). now rewrite filter_all.
  - destruct (fold_left _ rows _) as [roots|]; cbn [bind]; [|discriminate].
    case_zero.
    + intros [= <-]. exists (fun _ => false). now rewrite filter_none.
    + destruct (walk _ _ _ _ _) as [include|]; cbn [bind]; [|discriminate].
      intros [= <-]. eexists. reflexivity.
Qed.

Lemma filterToNodeBranch_filter cm rows nodeId out :
  filterToNodeBranch cm rows nodeId = Some out -> exists keep, out = filter keep rows.
Proof.
  unfold filterToNodeBranch. destruct (negb _).
  - intros [= <-]. exists (fun _ => true). now rewrite filter_all.
  - destruct (addAncestors _ _ _ _ _) as [inc|]; cbn [bind]; [|discriminate].
    destruct (addDescendants _ _ _ _) as [inc'|]; cbn [bind]; [|discriminate].
    intros [= <-]. eexists. reflexivity.
Qed.

Lemma filterToParentBranch_filter cm rows parentId out :
  filterToParentBranch cm rows parentId = Some out -> exists keep, out = filter keep rows.
Proof.
  unfold filterToParentBranch. case_zero.
  - intros [= <-]. exists (fun _ => true). now rewrite filter_all.
  - destruct (addAncestors _ _ _ _ _) as [inc|]; cbn [bind]; [|discriminate].
    destruct (addDescendants _ _ _ _) as [inc'|]; cbn [bind]; [|discriminate].
    intros [= <-]. eexists. reflexivity.
Qed.

Lemma filterToDropdownBranch_filter cm rows value out :
  filterToDropdownBranch cm rows value = Some out -> exists keep, out = filter keep rows.
Proof.
  unfold filterToDropdownBranch. case_zero.
  - intros [= <-]. exists (fun _ => false). now rewrite filter_none.
  - destruct (fold_left _ _ (Some StrSet.empty)) as [inc|]; cbn [bind]; [|discriminate].
    intros [= <-]. eexists. reflexivity.
Qed.

Lemma sourceRowsOf_filter this rows src :
  sourceRowsOf this rows = Some src -> exists keep, src = filter keep rows.
Proof.
  unfold sourceRowsOf, applyDropdownFilters.
  destruct (match Js.truthyOpt (hierarchyFilterValue this) with
            | Some h => _ | None => _ end) as [r1|] eqn:H1; cbn [bind]; [|discriminate].
  destruct (match Js.truthyOpt (parentFilterValue this) with
            | Some p => _ | None => _ end) as [r2|] eqn:H2; cbn [bind]; [|discriminate].
  destruct (match Js.truthyOpt (dropdownFilterValue this) with
            | Some d => _ | None => _ end) as [r3|] eqn:H3; cbn [bind]; [|discriminate].
  intros H4.
  assert (K1 : exists k, r1 = filter k rows).
  { destruct (Js.truthyOpt (hierarchyFilterValue this)).
    - now apply filterToNodeBranch_filter in H1.
    - injection H1 as <-. exists (fun _ => true). now rewrite filter_all. }
  assert (K2 : exists k, r2 = filter k r1).
  { destruct (Js.truthyOpt (parentFilterValue this)).
    - now apply filterToParentBranch_filter in H2.
    - injection H2 as <-. exists (fun _ => true). now rewrite filter_all. }
  assert (K3 : exists k, r3 = filter k r2).
  { destruct (Js.truthyOpt (dropdownFilterValue this)).
    - now apply filterToDropdownBranch_filter in H3.
    - injection H3 as <-. exists (fun _ => true). now rewrite filter_all. }
  apply applySearchFilter_filter in H4.
  destruct K1 as [k1 ->], K2 as [k2 ->], K3 as [k3 ->], H4 as [k4 ->].
  rewrite !filter_filter. eexists. reflexivity.
Qed.

Lemma visibleFrom_spec (cm : ChildrenMap) (collapsed : StrSet.t) (src vis : list NodeRow.t) :
  visibleFrom cm collapsed src = Some vis ->
  forall r, In r vis <->
            In r src /\ Reachable cm collapsed (map NodeRow.id (rootsOf src)) (NodeRow.id r).
Proof.
  unfold visibleFrom. destruct (walk _ _ _ _ _) as [visible|] eqn:Hw; cbn [bind]; [|discriminate].
  intros [= <-].
  assert (Hex : forall x, In x visible <->
                          Reachable cm collapsed (map NodeRow.id (rootsOf src)) x).
  { intros x. rewrite (walk_exact _ _ _ _ _ Hw x). unfold rootsOf.
    split; apply Reachable_starts; intros y Hy.
    - apply root_stack_spec in Hy. destruct Hy as [[]|Hy]; exact Hy.
    - apply root_stack_spec. now right. }
  intros r. rewrite in_keepIncluded, Hex. reflexivity.
Qed.

(** ** The children index, entry by entry *)

Lemma buildChildrenMap_list_acc (rows : list NodeRow.t) (m : ChildrenMap) (u : string) :
  childrenOf
    (fold_left
       (fun m r =>
          match NodeRow.parentKey r with
          | None => m
          | Some p =>
              let arr := match StrMap.get p m with Some a => a | None => [] end in
              StrMap.set p (arr ++ [NodeRow.id r]) m
          end) rows m) u =
  childrenOf m u ++
  map NodeRow.id (filter (fun r => optEqb (NodeRow.parentKey r) u) rows).
Proof.
  revert m. induction rows as [|r rows IH]; intros m; simpl.
  - now rewrite app_nil_r.
  - rewrite IH. clear IH. destruct (NodeRow.parentKey r) as [p|] eqn:Hp; simpl.
    + rewrite childrenOf_set. fold (childrenOf m p). rewrite (String.eqb_sym p u).
      destruct (String.eqb_spec u p) as [->|Hup]; simpl; [|reflexivity].
      now rewrite <- app_assoc.
    + reflexivity.
Qed.

(** X1: the children index lists, under every id, the ids of the rows that
    name it as their parent, in row order and with repetitions; an id that no
    row names has no entry and reads as the empty list. *)
Theorem buildChildrenMap_children (rows : list NodeRow.t) (u : string) :
  childrenOf (buildChildrenMap rows) u =
  map NodeRow.id (filter (fun r => optEqb (NodeRow.parentKey r) u) rows).
Proof.
  unfold buildChildrenMap. now rewrite buildChildrenMap_list_acc.
Qed.

(** ** Rows as ingestion builds them *)

(** X2: every row that ingestion produces has a non-empty id, a non-empty
    label, and a parent reference that is either [null] or non-empty. *)
Theorem parseDataView_wellformed (raws : list RawRow) (r : NodeRow.t) :
  In r (parseDataView raws) ->
  NodeRow.id r <> "" /\ NodeRow.label r <> "" /\ NodeRow.parentId r <> Some "".
Proof.
  intros Hin. apply parseDataView_acc in Hin. destruct Hin as [[]|[raw [_ Hp]]].
  unfold parseRow in Hp.
  destruct (Js.truthy (Js.trim _)) eqn:Hid; [|discriminate]. cbn [negb] in Hp.
  assert (Hne : Js.trim (match rawId raw with Some s => s | None => "" end) <> "").
  { unfold Js.truthy in Hid. now apply negb_true_iff, String.eqb_neq in Hid. }
  injection Hp as <-. cbn [NodeRow.id NodeRow.label NodeRow.parentId]. repeat split.
  - exact Hne.
  - destruct (Nat.ltb 0 _); [|exact Hne].
    destruct (Js.truthy (joinSlash _)) eqn:Hj; [|exact Hne].
    unfold Js.truthy in Hj. now apply negb_true_iff, String.eqb_neq in Hj.
  - destruct (rawParent raw) as [p|]; [|discriminate].
    destruct (String.eqb_spec (Js.trim p) ""); [discriminate|]. congruence.
Qed.

(** ** The visible rows *)

Lemma filter_true_all {A} (f : A -> bool) (l : list A) :
  (forall a, In a l -> f a = true) -> filter f l = l.
Proof.
  induction l as [|a l IH]; intros H; simpl; [reflexivity|].
  rewrite (H a (or_introl eq_refl)). f_equal. apply IH. intros b Hb. apply H. now right.
Qed.

(** X3: the visible rows are the input rows with some left out: every stage
    of the pipeline (hierarchy, parent and dropdown filter, search, collapse)
    keeps the order of the rows and never adds or repeats one. *)
Theorem computeVisibleRows_keeps_order (this : Visual) (rows vis : list NodeRow.t)
    (collapsed : StrSet.t) :
  computeVisibleRows this rows collapsed = Some vis ->
  exists keep, vis = filter keep rows.
Proof.
  rewrite computeVisibleRows_split.
  destruct (sourceRowsOf this rows) as [src|] eqn:Hsrc; cbn [bind]; [|discriminate].
  apply sourceRowsOf_filter in Hsrc. destruct Hsrc as [k ->].
  unfold visibleFrom. destruct (walk _ _ _ _ _) as [visible|]; cbn [bind]; [|discriminate].
  intros [= <-]. unfold keepIncluded. rewrite filter_filter. eexists. reflexivity.
Qed.

(** X4: a row that passed the filters is visible exactly when its id can be
    reached from a root of the filtered rows by going down the children
    index through ids that are not collapsed. *)
Theorem visible_iff_reachable (this : Visual) (rows src vis : list NodeRow.t)
    (collapsed : StrSet.t) :
  sourceRowsOf this rows = Some src ->
  computeVisibleRows this rows collapsed = Some vis ->
  forall r,
    In r vis <->
    In r src /\
    Reachable (childrenMap this) collapsed (map NodeRow.id (rootsOf src)) (NodeRow.id r).
Proof.
  intros Hsrc Hvis. rewrite computeVisibleRows_split, Hsrc in Hvis. cbn [bind] in Hvis.
  now apply visibleFrom_spec.
Qed.

Lemma Reachable_collapsed (cm : ChildrenMap) (c c' : StrSet.t) (starts : list string) :
  (forall x, In x c -> In x c') ->
  forall x, Reachable cm c' starts x -> Reachable cm c starts x.
Proof.
  intros Hsub x. induction 1 as [y Hy|u y Hu IH Hcol Hy]; [now constructor|].
  apply (reach_child _ _ _ u); auto.
  apply has_false_not_In. intros Hin. apply Hsub in Hin.
  apply has_false_not_In in Hcol. contradiction.
Qed.

(** X5: collapsing more never shows more: when every collapsed id of one
    collapse set is collapsed in another, the rows visible under the larger
    set are visible under the smaller one. *)
Theorem collapse_monotone (this : Visual) (rows vis vis' : list NodeRow.t)
    (c c' : StrSet.t) :
  (forall x, In x c -> In x c') ->
  computeVisibleRows this rows c = Some vis ->
  computeVisibleRows this rows c' = Some vis' ->
  incl vis' vis.
Proof.
  intros Hsub Hvis Hvis'. rewrite computeVisibleRows_split in Hvis, Hvis'.
  destruct (sourceRowsOf this rows) as [src|]; cbn [bind] in Hvis, Hvis'; [|discriminate].
  intros r Hr.
  apply (visibleFrom_spec _ _ _ _ Hvis'  r) in Hr. destruct Hr as [Hin Hreach].
  apply (visibleFrom_spec _ _ _ _ Hvis r). split; [assumption|].
  now apply (Reachable_collapsed _ c c').
Qed.

Lemma has_fold_add (l : list string) (s : StrSet.t) (x : string) :
  StrSet.has x (fold_left (fun s k => StrSet.add k s) l s) =
  StrSet.has x s || StrSet.has x l.
Proof.
  revert s. induction l as [|k l IH]; intros s; simpl; [now rewrite orb_false_r|].
  rewrite IH, has_add. destruct (String.eqb x k), (StrSet.has x s); reflexivity.
Qed.

Lemma childrenOf_key (cm : ChildrenMap) (u x : string) :
  In x (childrenOf cm u) -> In u (StrMap.keys cm).
Proof.
  unfold childrenOf, StrMap.keys. induction cm as [|[k vs] m IH]; simpl; [contradiction|].
  destruct (String.eqb_spec u k) as [->|Hne]; [now left|]. intros H. right. now apply IH.
Qed.

Lemma allParentIds_spec (cm : ChildrenMap) (u : string) :
  StrSet.has u (allParentIds cm) = true <-> In u (StrMap.keys cm).
Proof.
  unfold allParentIds. rewrite has_fold_add. simpl. apply has_In.
Qed.

(** X6: with the collapse set that [collapseAll] installs (every key of the
    children index), the visible rows of a row set with unique ids are
    exactly the roots of the rows that passed the filters. *)
Theorem collapseAll_shows_roots (this : Visual) (rows src vis : list NodeRow.t) :
  NoDup (map NodeRow.id rows) ->
  sourceRowsOf this rows = Some src ->
  computeVisibleRows this rows (allParentIds (childrenMap this)) = Some vis ->
  vis = rootsOf src.
Proof.
  intros Hnd Hsrc Hvis.
  pose proof (sourceRowsOf_incl _ _ _ Hsrc) as Hincl.
  rewrite computeVisibleRows_split, Hsrc in Hvis. cbn [bind] in Hvis.
  unfold visibleFrom in Hvis.
  destruct (walk _ _ _ _ _) as [visible|] eqn:Hw; cbn [bind] in Hvis; [|discriminate].
  injection Hvis as <-. unfold keepIncluded, rootsOf. apply filter_ext_in.
  intros r Hr.
  assert (Hex : In (NodeRow.id r) visible <->
                In (NodeRow.id r) (map NodeRow.id (filter (isRootIn (idSetOf src)) src))).
  { rewrite (walk_exact _ _ _ _ _ Hw). split.
    - induction 1 as [y Hy|u y Hu IH Hcol Hy].
      + apply root_stack_spec in Hy. destruct Hy as [[]|Hy]. exact Hy.
      + apply childrenOf_key, allParentIds_spec in Hy. congruence.
    - intros Hy. constructor. apply root_stack_spec. now right. }
  destruct (isRootIn (idSetOf src) r) eqn:Hroot.
  - apply has_In, Hex. apply in_map. apply filter_In. now split.
  - apply has_false_not_In. intros Hin. apply Hex in Hin.
    apply in_map_iff in Hin. destruct Hin as [r' [Hid Hr']].
    apply filter_In in Hr'. destruct Hr' as [Hr'src Hr'root].
    assert (r' = r) by (apply (same_id_same_row rows); auto). subst r'. congruence.
Qed.

(** X7: with nothing collapsed (the state [expandAll] installs), on rows
    whose parent references are well founded and whose children index was
    built from a row set that contains them, every row that passed the
    filters is visible. *)
Theorem expanded_shows_all (this : Visual) (full rows src : list NodeRow.t) :
  WellRanked full ->
  incl rows full ->
  childrenMap this = buildChildrenMap full ->
  sourceRowsOf this rows = Some src ->
  computeVisibleRows this rows StrSet.empty = Some src.
Proof.
  intros [rank Hrank] Hincl Hcm Hsrc.
  pose proof (sourceRowsOf_incl _ _ _ Hsrc) as Hsub.
  destruct (computeVisibleRows_returns this rows src StrSet.empty Hsrc) as [vis Hvis].
  rewrite Hvis. f_equal.
  rewrite computeVisibleRows_split, Hsrc in Hvis. cbn [bind] in Hvis.
  pose proof (visibleFrom_spec _ _ _ _ Hvis) as Hiff.
  unfold visibleFrom in Hvis.
  destruct (walk _ _ _ _ _) as [visible|] eqn:Hw; cbn [bind] in Hvis; [|discriminate].
  injection Hvis as <-. unfold keepIncluded. apply filter_true_all.
  assert (Hall : forall n r, rank (NodeRow.id r) < n -> In r src ->
                             Reachable (childrenMap this) StrSet.empty
                               (map NodeRow.id (rootsOf src)) (NodeRow.id r)).
  { induction n as [|n IH]; intros r Hlt Hr; [lia|].
    destruct (isRootIn (idSetOf src) r) eqn:Hroot.
    - constructor. apply in_map. apply filter_In. now split.
    - unfold isRootIn in Hroot. destruct (NodeRow.parentKey r) as [p|] eqn:Hk; [|discriminate].
      apply negb_false_iff, has_idSetOf in Hroot.
      apply in_map_iff in Hroot. destruct Hroot as [rp [Hid Hrp]].
      apply (reach_child _ _ _ p).
      + rewrite <- Hid. apply IH; [|assumption].
        assert (rank p < rank (NodeRow.id r)).
        { apply Hrank; auto. rewrite <- Hid. apply in_map. auto. }
        rewrite Hid. lia.
      + reflexivity.
      + rewrite Hcm. apply buildChildrenMap_spec. exists r. auto. }
  intros r Hr. apply has_In.
  assert (Hin : In r (filter (fun r0 => StrSet.has (NodeRow.id r0) visible) src)).
  { apply Hiff. split; [assumption|]. apply (Hall (S (rank (NodeRow.id r)))); auto. }
  apply filter_In in Hin. destruct Hin as [_ Hin]. now apply has_In.
Qed.

(** ** Search *)

Lemma matchedRoots_acc (rows all : list NodeRow.t) (q : string) :
  forall (acc s : StrSet.t),
    fold_left
      (fun acc r =>
         s <- acc ;;
         if negb (Js.includes q (Js.toLowerCase (NodeRow.label r))) then Some s
         else
           top <- climbToRoot (climbFuel all) (indexById all) (NodeRow.id r) ;;
           Some (StrSet.add top s))
      rows (Some acc) = Some s ->
    (forall x, In x acc -> In x s) /\
    (forall r, In r rows -> Js.includes q (Js.toLowerCase (NodeRow.label r)) = true ->
       exists top, climbToRoot (climbFuel all) (indexById all) (NodeRow.id r) = Some top /\
                   In top s) /\
    (forall x, In x s ->
       In x acc \/
       exists r, In r rows /\ Js.includes q (Js.toLowerCase (NodeRow.label r)) = true /\
                 climbToRoot (climbFuel all) (indexById all) (NodeRow.id r) = Some x).
Proof.
  induction rows as [|r rows IH]; intros acc s Hf; cbn [fold_left bind] in Hf.
  - injection Hf as <-. repeat split; auto. intros r [].
  - destruct (Js.includes q (Js.toLowerCase (NodeRow.label r))) eqn:Hm; cbn [negb] in Hf.
    + destruct (climbToRoot _ _ _) as [top|] eqn:Hc; cbn [bind] in Hf.
      * apply IH in Hf. destruct Hf as (Hmono & Hall & Hback).
        assert (Hadd : forall x, In x (StrSet.add top acc) <-> x = top \/ In x acc).
        { intros x. rewrite <- !has_In, has_add, orb_true_iff, String.eqb_eq. tauto. }
        repeat split.
        -- intros x Hx. apply Hmono, Hadd. now right.
        -- intros r' [<-|Hr'] Hm'; [|now apply Hall].
           exists top. split; [assumption|]. apply Hmono, Hadd. now left.
        -- intros x Hx. destruct (Hback x Hx) as [Hx'|(r' & Hr' & Hm' & Hc')].
           ++ apply Hadd in Hx'. destruct Hx' as [->|Hx']; [|now left].
              right. exists r. repeat split; auto. now left.
           ++ right. exists r'. repeat split; auto. now right.
      * exfalso. clear -Hf. induction rows as [|r' rows IH]; cbn [fold_left bind] in Hf;
          [discriminate | auto].
    + apply IH in Hf. destruct Hf as (Hmono & Hall & Hback). repeat split.
      * exact Hmono.
      * intros r' [<-|Hr'] Hm'; [congruence | now apply Hall].
      * intros x Hx. destruct (Hback x Hx) as [Hx'|(r' & Hr' & Hm' & Hc')]; [now left|].
        right. exists r'. repeat split; auto. now right.
Qed.

Lemma climb_reachable (full rows : list NodeRow.t) (starts : list string) :
  incl rows full ->
  forall n cur top,
    ClimbsIn (indexById rows) n cur top ->
    Reachable (buildChildrenMap full) StrSet.empty starts top ->
    Reachable (buildChildrenMap full) StrSet.empty starts cur.
Proof.
  intros Hincl. induction 1 as [cur Hstop|n cur p top Hstep Hn IH]; intros Htop; [assumption|].
  apply stepUp_Some in Hstep. destruct Hstep as (r & Hr & Hid & Hk & _).
  apply (reach_child _ _ _ p); [now apply IH | reflexivity|].
  apply buildChildrenMap_spec. exists r. auto.
Qed.

(** X8: a search never loses a match: whenever it returns, every row whose
    label contains the trimmed, lower-cased query is among the rows it
    keeps.  The children index is built from a row set that contains the
    searched rows. *)
Theorem search_keeps_matches (full rows out : list NodeRow.t) (query : string)
    (r : NodeRow.t) :
  incl rows full ->
  applySearchFilter (buildChildrenMap full) rows query = Some out ->
  In r rows -> searchMatches query r = true -> In r out.
Proof.
  intros Hincl Hs Hr Hm. unfold applySearchFilter in Hs.
  destruct (negb _); [now injection Hs as <-|].
  destruct (fold_left _ rows _) as [roots|] eqn:Hf; cbn [bind] in Hs; [|discriminate].
  apply matchedRoots_acc in Hf. destruct Hf as (_ & Hall & _).
  destruct (Hall r Hr Hm) as (top & Hc & Htop).
  destruct (Nat.eqb (StrSet.size roots) 0) eqn:Hz.
  - apply Nat.eqb_eq in Hz. destruct roots; [contradiction | discriminate].
  - destruct (walk _ _ _ _ _) as [include|] eqn:Hw; cbn [bind] in Hs; [|discriminate].
    injection Hs as <-. apply in_keepIncluded. split; [assumption|].
    apply (walk_exact _ _ _ _ _ Hw). apply climbToRoot_ClimbsIn in Hc. destruct Hc as [n Hn].
    apply (climb_reachable full rows _ Hincl n _ top Hn). constructor. now apply -> in_rev.
Qed.

(** X9: a search keeps whole subtrees: when it returns with a row kept, every
    searched row that names that row as its parent is kept as well. *)
Theorem search_keeps_children (full rows out : list NodeRow.t) (query : string)
    (r c : NodeRow.t) :
  incl rows full ->
  applySearchFilter (buildChildrenMap full) rows query = Some out ->
  In r out -> In c rows -> NodeRow.parentKey c = Some (NodeRow.id r) -> In c out.
Proof.
  intros Hincl Hs Hr Hc Hk. unfold applySearchFilter in Hs.
  destruct (negb _); [now injection Hs as <-|].
  destruct (fold_left _ rows _) as [roots|] eqn:Hf; cbn [bind] in Hs; [|discriminate].
  destruct (Nat.eqb (StrSet.size roots) 0); [injection Hs as <-; contradiction|].
  destruct (walk _ _ _ _ _) as [include|] eqn:Hw; cbn [bind] in Hs; [|discriminate].
  injection Hs as <-. apply in_keepIncluded in Hr. destruct Hr as [_ Hr].
  apply in_keepIncluded. split; [assumption|].
  apply (walk_exact _ _ _ _ _ Hw). apply (walk_exact _ _ _ _ _ Hw) in Hr.
  apply (reach_child _ _ _ (NodeRow.id r)); [assumption | reflexivity|].
  apply buildChildrenMap_spec. exists c. auto.
Qed.

(** X10: a non-blank query that no label contains empties the row set, and
    does so without any walk: also on rows whose parent references form a
    cycle. *)
Theorem search_without_match_is_empty (cm : ChildrenMap) (rows : list NodeRow.t)
    (query : string) :
  Js.truthy (Js.toLowerCase (Js.trim query)) = true ->
  (forall r, In r rows -> searchMatches query r = false) ->
  applySearchFilter cm rows query = Some [].
Proof.
  intros Hq Hno. unfold applySearchFilter. rewrite Hq. cbn [negb].
  assert (Hf : forall l acc,
    (forall r, In r l -> searchMatches query r = false) ->
    fold_left
      (fun acc r =>
         s <- acc ;;
         if negb (Js.includes (Js.toLowerCase (Js.trim query))
                              (Js.toLowerCase (NodeRow.label r))) then Some s
         else
           top <- climbToRoot (climbFuel rows) (indexById rows) (NodeRow.id r) ;;
           Some (StrSet.add top s))
      l (Some acc) = Some acc).
  { induction l as [|r l IH]; intros acc Hl; cbn [fold_left bind]; [reflexivity|].
    pose proof (Hl r (or_introl eq_refl)) as Hr. unfold searchMatches in Hr. rewrite Hr.
    cbn [negb]. apply IH. intros r' Hr'. apply Hl. now right. }
  rewrite (Hf rows StrSet.empty Hno). reflexivity.
Qed.

Lemma Reachable_Below (cm : ChildrenMap) (starts : list string) (x : string) :
  Reachable cm StrSet.empty starts x <-> exists s, In s starts /\ Below cm s x.
Proof.
  split.
  - induction 1 as [y Hy|u y Hu IH Hcol Hy].
    + exists y. split; [assumption | constructor].
    + destruct IH as (s & Hs & Hb). exists s. split; [assumption|].
      now apply (below_child _ _ u).
  - intros (s & Hs & Hb). induction Hb as [|u y Hu IH Hy]; [now constructor|].
    now apply (reach_child _ _ _ u).
Qed.

(** X11: what a search keeps, exactly.  For a non-blank query, a row is kept
    exactly when its id lies below (in the children index) the id at which
    the ancestor walk from some matching row stops: the search keeps the
    whole tree under the topmost ancestor of every match, and nothing
    else. *)
Theorem search_exact (cm : ChildrenMap) (rows out : list NodeRow.t) (query : string)
    (r : NodeRow.t) :
  Js.truthy (Js.toLowerCase (Js.trim query)) = true ->
  applySearchFilter cm rows query = Some out ->
  (In r out <->
   In r rows /\
   exists m n top,
     In m rows /\ searchMatches query m = true /\
     ClimbsIn (indexById rows) n (NodeRow.id m) top /\
     Below cm top (NodeRow.id r)).
Proof.
  intros Hq Hs. unfold applySearchFilter in Hs. rewrite Hq in Hs. cbn [negb] in Hs.
  destruct (fold_left _ rows _) as [roots|] eqn:Hf; cbn [bind] in Hs; [|discriminate].
  apply matchedRoots_acc in Hf. destruct Hf as (_ & Hall & Hback).
  destruct (Nat.eqb (StrSet.size roots) 0) eqn:Hz.
  - injection Hs as <-. apply Nat.eqb_eq in Hz.
    split; [contradiction|]. intros (_ & m & n & top & Hm & Hmatch & _).
    destruct (Hall m Hm Hmatch) as (t & _ & Ht). destruct roots; [contradiction | discriminate].
  - destruct (walk _ _ _ _ _) as [include|] eqn:Hw; cbn [bind] in Hs; [|discriminate].
    injection Hs as <-. rewrite in_keepIncluded, (walk_exact _ _ _ _ _ Hw), Reachable_Below.
    split; intros [Hr Hx]; (split; [assumption|]).
    + destruct Hx as (s & Hsin & Hb). apply in_rev in Hsin.
      destruct (Hback s Hsin) as [[]|(m & Hm & Hmatch & Hc)].
      apply climbToRoot_ClimbsIn in Hc. destruct Hc as [n Hn].
      exists m, n, s. auto.
    + destruct Hx as (m & n & top & Hm & Hmatch & Hn & Hb).
      destruct (Hall m Hm Hmatch) as (t & Hc & Ht).
      assert (t = top).
      { assert (Hc' : climbToRoot (climbFuel rows) (indexById rows) (NodeRow.id m) = Some top)
          by (apply climbToRoot_exact; eauto).
        congruence. }
      subst t. exists top. split; [now apply -> in_rev | assumption].
Qed.

(** ** The loops of the branch filters *)

Lemma add_In (x y : string) (s : StrSet.t) : In x (StrSet.add y s) <-> x = y \/ In x s.
Proof. rewrite <- !has_In, has_add, orb_true_iff, String.eqb_eq. tauto. Qed.

Lemma Below_trans (cm : ChildrenMap) (a b c : string) :
  Below cm a b -> Below cm b c -> Below cm a c.
Proof.
  intros Hab. induction 1 as [|u x Hu IH Hx]; [assumption|].
  now apply (below_child _ _ u).
Qed.

Lemma Above_trans (byId : StrMap.t NodeRow.t) (a b c : string) :
  Above byId a b -> Above byId b c -> Above byId a c.
Proof.
  intros Hab. induction 1 as [|u x Hu IH Hx]; [assumption|].
  now apply (above_parent _ _ u).
Qed.

Lemma pushNew_spec (children : list string) :
  forall (stack : list string) (include : StrSet.t),
    (forall x, In x (snd (pushNew children stack include)) <->
               In x include \/ In x children) /\
    (forall x, In x (fst (pushNew children stack include)) <->
               In x stack \/ (In x children /\ ~ In x include)).
Proof.
  induction children as [|c cs IH]; intros stack include; simpl.
  - split; intros x; tauto.
  - destruct (StrSet.has c include) eqn:Hc.
    + apply has_In in Hc. destruct (IH stack include) as [Hi Hs]. split; intros x.
      * rewrite Hi. split; [tauto|]. intros [H|[<-|H]]; auto.
      * rewrite Hs. split; [tauto|]. intros [H|[[<-|H] Hn]]; tauto.
    + apply has_false_not_In in Hc.
      destruct (IH (c :: stack) (StrSet.add c include)) as [Hi Hs]. split; intros x.
      * rewrite Hi, add_In. split; [intros [[->|H]|H] | intros [H|[<-|H]]]; auto.
      * rewrite Hs, add_In. simpl. split.
        -- intros [[<-|H]|[H Hn]]; auto. right. split; auto.
        -- intros [H|[[<-|H] Hn]]; auto.
           destruct (String.eqb_spec x c) as [->|Hne]; auto.
           right. split; [assumption|]. intros [->|Hin]; auto.
Qed.

Lemma addDescendants_spec (cm : ChildrenMap) :
  forall (fuel : nat) (stack : list string) (include out : StrSet.t),
    addDescendants fuel cm stack include = Some out ->
    (forall x, In x include -> In x out) /\
    (forall u x, In u stack -> In x (childrenOf cm u) -> In x out) /\
    (forall u x, In u out -> ~ In u include -> In x (childrenOf cm u) -> In x out) /\
    (forall x, In x out -> In x include \/ exists s, In s stack /\ Below cm s x).
Proof.
  induction fuel as [|fuel IH]; intros stack include out Hd; simpl in Hd; [discriminate|].
  destruct stack as [|id rest].
  - injection Hd as <-. repeat split; auto; intros; contradiction.
  - destruct (pushNew_spec (childrenOf cm id) rest include) as [Hi Hs].
    destruct (pushNew (childrenOf cm id) rest include) as [stack' include'].
    cbn [fst snd] in Hi, Hs. apply IH in Hd. destruct Hd as (Ha & Hb & Hc & Hsound).
    repeat split.
    + intros x Hx. apply Ha, Hi. now left.
    + intros u x [<-|Hu] Hx.
      * apply Ha, Hi. now right.
      * apply (Hb u); auto. apply Hs. now left.
    + intros u x Hu Hn Hx.
      destruct (StrSet.has u include') eqn:Hin.
      * apply has_In, Hi in Hin. destruct Hin as [Hin|Hin]; [contradiction|].
        apply (Hb u); auto. apply Hs. right. now split.
      * apply has_false_not_In in Hin. now apply (Hc u).
    + intros x Hx. destruct (Hsound x Hx) as [Hin|(s & Hst & Hbelow)].
      * apply Hi in Hin. destruct Hin as [Hin|Hin]; [now left|].
        right. exists id. split; [now left|]. apply (below_child _ _ id); [constructor | assumption].
      * apply Hs in Hst. destruct Hst as [Hst|[Hst _]].
        -- right. exists s. split; [now right | assumption].
        -- right. exists id. split; [now left|].
           apply (Below_trans _ _ s); [|assumption].
           apply (below_child _ _ id); [constructor | assumption].
Qed.

Lemma addAncestors_spec (guarded : bool) (byId : StrMap.t NodeRow.t) :
  forall (fuel : nat) (cur : string) (include out : StrSet.t),
    addAncestors guarded fuel byId cur include = Some out ->
    (forall x, In x include -> In x out) /\
    (forall x, In x out -> In x include \/ Above byId cur x) /\
    (Js.truthy cur = true ->
     forall x, Above byId cur x -> guarded && negb (StrMap.has x byId) = false -> In x out).
Proof.
  induction fuel as [|fuel IH]; intros cur include out Ha; simpl in Ha; [discriminate|].
  destruct (Js.truthy cur) eqn:Hcur.
  - set (include' := if guarded && negb (StrMap.has cur byId) then include
                     else StrSet.add cur include) in *.
    assert (Hinc : forall x, In x include -> In x include').
    { intros x Hx. unfold include'. destruct (_ && _); [assumption|]. apply add_In. now right. }
    assert (Hback : forall x, In x include' -> In x include \/ x = cur).
    { intros x Hx. unfold include' in Hx. destruct (_ && _); [now left|].
      apply add_In in Hx. tauto. }
    assert (Hcurin : guarded && negb (StrMap.has cur byId) = false -> In cur include').
    { intros Hg. unfold include'. rewrite Hg. apply add_In. now left. }
    destruct (stepUp byId cur) as [p|] eqn:Hstep.
    + apply IH in Ha. destruct Ha as (Hmono & Hsound & Hcompl). repeat split.
      * intros x Hx. auto.
      * intros x Hx. destruct (Hsound x Hx) as [Hin|Hab].
        -- apply Hback in Hin. destruct Hin as [Hin | ->]; [now left|]. right. constructor.
        -- right. apply (Above_trans _ _ p); [|assumption].
           apply (above_parent _ _ cur); [constructor | assumption].
      * intros _ x Hab Hg.
        assert (Hcases : x = cur \/ Above byId p x).
        { clear -Hab Hstep. induction Hab as [|a q Ha IHa Hq]; [now left|].
          right. destruct IHa as [->|IHa].
          - rewrite Hstep in Hq. injection Hq as <-. constructor.
          - now apply (above_parent _ _ a). }
        destruct Hcases as [->|Hp]; [now apply Hmono, Hcurin|].
        apply Hcompl; auto. now apply stepUp_truthy in Hstep.
    + injection Ha as <-. repeat split; auto.
      * intros x Hx. apply Hback in Hx. destruct Hx as [Hx | ->]; [now left|]. right. constructor.
      * intros _ x Hab Hg.
        assert (x = cur).
        { clear -Hab Hstep. induction Hab as [|a q Ha IHa Hq]; [reflexivity|].
          subst a. congruence. }
        subst x. now apply Hcurin.
  - injection Ha as <-. repeat split; auto. intros; discriminate.
Qed.

(** ** The hierarchy filter on a known id *)

Lemma Below_rank (full : list NodeRow.t) (rank : string -> nat) (a x : string) :
  (forall r p, In r full -> NodeRow.parentKey r = Some p -> In p (map NodeRow.id full) ->
               rank p < rank (NodeRow.id r)) ->
  In a (map NodeRow.id full) ->
  Below (buildChildrenMap full) a x ->
  In x (map NodeRow.id full) /\ (x = a \/ rank a < rank x).
Proof.
  intros Hrank Ha. induction 1 as [|u x Hu IH Hx]; [auto|].
  destruct IH as [Huin Hur]. apply buildChildrenMap_spec in Hx.
  destruct Hx as (r & Hr & Hk & Hid). split; [rewrite <- Hid; now apply in_map|].
  right. specialize (Hrank r u Hr Hk Huin). rewrite Hid in Hrank.
  destruct Hur as [->|Hur]; lia.
Qed.

Lemma Above_rank (full rows : list NodeRow.t) (rank : string -> nat) (a x : string) :
  (forall r p, In r full -> NodeRow.parentKey r = Some p -> In p (map NodeRow.id full) ->
               rank p < rank (NodeRow.id r)) ->
  incl rows full ->
  Above (indexById rows) a x -> x = a \/ rank x < rank a.
Proof.
  intros Hrank Hincl. induction 1 as [|u p Hu IH Hp]; [auto|].
  apply stepUp_Some in Hp. destruct Hp as (r & Hr & Hid & Hk & Hpin).
  right. assert (rank p < rank (NodeRow.id r)).
  { apply Hrank; auto. revert Hpin. now apply incl_map. }
  rewrite Hid in H. destruct IH as [->|IH]; lia.
Qed.

(** X12: on rows whose parent references are well founded, the hierarchy
    filter on the id of a row keeps exactly the rows on the ancestor chain
    of that id (the pinned row included) and the rows below it in the
    children index. *)
Theorem hierarchy_filter_exact (full rows out : list NodeRow.t) (nodeId : string) :
  WellRanked full ->
  incl rows full ->
  nodeId <> "" ->
  In nodeId (map NodeRow.id rows) ->
  filterToNodeBranch (buildChildrenMap full) rows nodeId = Some out ->
  forall r,
    In r out <->
    In r rows /\
    (Above (indexById rows) nodeId (NodeRow.id r) \/
     Below (buildChildrenMap full) nodeId (NodeRow.id r)).
Proof.
  intros [rank Hrank] Hincl Hne Hin Hf r. unfold filterToNodeBranch in Hf.
  apply has_indexById in Hin. rewrite Hin in Hf. cbn [negb] in Hf.
  destruct (addAncestors _ _ _ _ _) as [inc|] eqn:Ha; cbn [bind] in Hf; [|discriminate].
  destruct (addDescendants _ _ _ _) as [inc'|] eqn:Hd; cbn [bind] in Hf; [|discriminate].
  injection Hf as <-. rewrite in_keepIncluded.
  apply addAncestors_spec in Ha. destruct Ha as (_ & Hasound & Hacompl).
  apply addDescendants_spec in Hd. destruct Hd as (Hmono & Hstack & Hclosed & Hdsound).
  assert (Htruthy : Js.truthy nodeId = true).
  { unfold Js.truthy. now apply negb_true_iff, String.eqb_neq. }
  specialize (Hacompl Htruthy).
  split; intros [Hr Hx]; (split; [assumption|]).
  - destruct (Hdsound _ Hx) as [Hi|(s & [<-|[]] & Hb)]; [|now right].
    destruct (Hasound _ Hi) as [[]|Hab]. now left.
  - destruct Hx as [Hab|Hb]; [apply Hmono, Hacompl; auto|].
    assert (Hnode : In nodeId (map NodeRow.id full)).
    { apply has_indexById in Hin. revert Hin. now apply incl_map. }
    induction Hb as [|u x Hu IH Hx].
    + apply Hmono, Hacompl; [constructor | reflexivity].
    + destruct (String.eqb_spec u nodeId) as [->|Hun].
      * apply (Hstack nodeId); [now left | assumption].
      * apply (Hclosed u); auto. intros Hui.
        destruct (Hasound _ Hui) as [[]|Hab].
        destruct (Below_rank full rank nodeId u Hrank Hnode Hu) as [_ [->|Hlt]]; [congruence|].
        destruct (Above_rank full rows rank nodeId u Hrank Hincl Hab) as [->|Hgt];
          [congruence | lia].
Qed.

(** ** The parent filter *)

(** X13: the parent filter on a non-empty id keeps every row carrying that
    id and every row that names it as parent, whenever it returns. *)
Theorem parent_filter_keeps_family (cm : ChildrenMap) (rows out : list NodeRow.t)
    (parentId : string) (r : NodeRow.t) :
  parentId <> "" ->
  filterToParentBranch cm rows parentId = Some out ->
  In r rows ->
  NodeRow.id r = parentId \/ NodeRow.parentId r = Some parentId ->
  In r out.
Proof.
  intros Hne Hf Hr Hfam. unfold filterToParentBranch in Hf.
  destruct (Nat.eqb _ 0); [now injection Hf as <-|].
  destruct (addAncestors _ _ _ _ _) as [inc|] eqn:Ha; cbn [bind] in Hf; [|discriminate].
  destruct (addDescendants _ _ _ _) as [inc'|] eqn:Hd; cbn [bind] in Hf; [|discriminate].
  injection Hf as <-. apply in_keepIncluded. split; [assumption|].
  apply addAncestors_spec in Ha. destruct Ha as (_ & _ & Hacompl).
  apply addDescendants_spec in Hd. destruct Hd as (Hmono & _).
  apply Hmono. apply has_In. rewrite has_fold_add. apply orb_true_iff.
  destruct Hfam as [Hid|Hp].
  - left. apply has_In. apply Hacompl.
    + unfold Js.truthy. now apply negb_true_iff, String.eqb_neq.
    + rewrite Hid. constructor.
    + rewrite Hid. assert (Hh : StrMap.has parentId (indexById rows) = true).
      { apply has_indexById. rewrite <- Hid. now apply in_map. }
      rewrite Hh. apply andb_false_r.
  - right. apply has_In. apply in_map. apply filter_In. split; [assumption|].
    now apply optEqb_true.
Qed.

(** ** The dropdown filter *)

Lemma candidates_spec (byId : StrMap.t NodeRow.t) (l : list NodeRow.t) :
  forall (s : StrSet.t) (x : string),
    In x (fold_left
            (fun s r =>
               let candidate :=
                 match NodeRow.parentKey r with
                 | Some p => if StrMap.has p byId then p else NodeRow.id r
                 | None => NodeRow.id r
                 end in
               StrSet.add candidate s) l s) <->
    In x s \/ exists r, In r l /\ dropdownCandidate byId r = x.
Proof.
  induction l as [|r l IH]; intros s x; simpl.
  - split; [now left | intros [H|(r & [] & _)]; exact H].
  - rewrite IH. cbv zeta. rewrite add_In. fold (dropdownCandidate byId r). split.
    + intros [[->|H]|(r' & Hr' & Hc)]; eauto.
    + intros [H|(r' & [<-|Hr'] & Hc)]; eauto.
Qed.

Lemma dropdown_loop_spec (cm : ChildrenMap) (rows : list NodeRow.t) (l : list string) :
  forall (acc out : StrSet.t),
    fold_left
      (fun acc id =>
         include <- acc ;;
         if negb (StrMap.has id (indexById rows)) then Some include
         else
           include <- addAncestors false (climbFuel rows) (indexById rows) id include ;;
           let stack := [id] in
           addDescendants (stackFuel cm stack) cm stack include)
      l (Some acc) = Some out ->
    (forall x, In x acc -> In x out) /\
    (forall id, In id l -> StrMap.has id (indexById rows) = true -> Js.truthy id = true ->
       In id out /\ forall x, In x (childrenOf cm id) -> In x out).
Proof.
  induction l as [|id l IH]; intros acc out Hf; cbn [fold_left bind] in Hf.
  - injection Hf as <-. split; [auto | intros id []].
  - destruct (StrMap.has id (indexById rows)) eqn:Hhas; cbn [negb] in Hf.
    + destruct (addAncestors _ _ _ _ _) as [inc|] eqn:Ha; cbn [bind] in Hf.
      * destruct (addDescendants _ _ _ _) as [inc'|] eqn:Hd.
        -- apply IH in Hf. destruct Hf as (Hmono & Hall).
           apply addAncestors_spec in Ha. destruct Ha as (Hamono & _ & Hacompl).
           apply addDescendants_spec in Hd. destruct Hd as (Hdmono & Hstack & _).
           split; [auto|]. intros id' [<-|Hid'] Hh Ht; [|now apply Hall].
           split.
           ++ apply Hmono, Hdmono, Hacompl; [assumption | constructor | reflexivity].
           ++ intros x Hx. apply Hmono. apply (Hstack id); [now left | assumption].
        -- exfalso. clear -Hf. induction l as [|i l IHl]; cbn [fold_left bind] in Hf;
             [discriminate | auto].
      * exfalso. clear -Hf. induction l as [|i l IHl]; cbn [fold_left bind] in Hf;
          [discriminate | auto].
    + apply IH in Hf. destruct Hf as (Hmono & Hall). split; [assumption|].
      intros id' [<-|Hid'] Hh Ht; [congruence | now apply Hall].
Qed.

(** X14: the dropdown filter never loses a match: whenever it returns, every
    row with a non-empty id whose trimmed tag, label or id equals the value
    is kept.  The children index is built from a row set that contains the
    filtered rows. *)
Theorem dropdown_filter_keeps_matches (full rows out : list NodeRow.t) (value : string)
    (r : NodeRow.t) :
  incl rows full ->
  filterToDropdownBranch (buildChildrenMap full) rows value = Some out ->
  In r rows -> NodeRow.id r <> "" -> dropdownMatches value r = true -> In r out.
Proof.
  intros Hincl Hf Hr Hne Hm. unfold filterToDropdownBranch in Hf.
  set (roots := fold_left _ (filter (dropdownMatches value) rows) StrSet.empty) in *.
  assert (Hcand : In (dropdownCandidate (indexById rows) r) roots).
  { unfold roots. apply candidates_spec. right. exists r. split; [|reflexivity].
    apply filter_In. now split. }
  destruct (Nat.eqb (StrSet.size roots) 0) eqn:Hz.
  - apply Nat.eqb_eq in Hz. destruct roots; [contradiction | discriminate].
  - destruct (fold_left _ roots (Some StrSet.empty)) as [inc|] eqn:Hl; cbn [bind] in Hf;
      [|discriminate].
    injection Hf as <-. apply in_keepIncluded. split; [assumption|].
    apply dropdown_loop_spec in Hl. destruct Hl as (_ & Hall).
    assert (Hself : StrMap.has (NodeRow.id r) (indexById rows) = true)
      by (apply has_indexById; now apply in_map).
    assert (Htr : Js.truthy (NodeRow.id r) = true)
      by (unfold Js.truthy; now apply negb_true_iff, String.eqb_neq).
    unfold dropdownCandidate in Hcand.
    destruct (NodeRow.parentKey r) as [p|] eqn:Hk.
    + destruct (StrMap.has p (indexById rows)) eqn:Hp.
      * apply (Hall p Hcand Hp).
        -- apply truthyOpt_Some in Hk. unfold Js.truthy.
           now apply negb_true_iff, String.eqb_neq.
        -- apply buildChildrenMap_spec. exists r. auto.
      * exact (proj1 (Hall _ Hcand Hself Htr)).
    + exact (proj1 (Hall _ Hcand Hself Htr)).
Qed.

(** X15: a match whose parent is one of the filtered rows brings the parent's
    whole family: the dropdown filter keeps the rows carrying the parent's
    id and every row that names that parent. *)
Theorem dropdown_filter_keeps_siblings (full rows out : list NodeRow.t) (value p : string)
    (r r' : NodeRow.t) :
  incl rows full ->
  filterToDropdownBranch (buildChildrenMap full) rows value = Some out ->
  In r rows -> dropdownMatches value r = true ->
  NodeRow.parentKey r = Some p -> In p (map NodeRow.id rows) ->
  In r' rows ->
  NodeRow.id r' = p \/ NodeRow.parentKey r' = Some p ->
  In r' out.
Proof.
  intros Hincl Hf Hr Hm Hk Hp Hr' Hfam. unfold filterToDropdownBranch in Hf.
  set (roots := fold_left _ (filter (dropdownMatches value) rows) StrSet.empty) in *.
  apply has_indexById in Hp.
  assert (Hcand : In p roots).
  { unfold roots. apply candidates_spec. right. exists r. split.
    - apply filter_In. now split.
    - unfold dropdownCandidate. now rewrite Hk, Hp. }
  destruct (Nat.eqb (StrSet.size roots) 0) eqn:Hz.
  - apply Nat.eqb_eq in Hz. destruct roots; [contradiction | discriminate].
  - destruct (fold_left _ roots (Some StrSet.empty)) as [inc|] eqn:Hl; cbn [bind] in Hf;
      [|discriminate].
    injection Hf as <-. apply in_keepIncluded. split; [assumption|].
    apply dropdown_loop_spec in Hl. destruct Hl as (_ & Hall).
    assert (Htr : Js.truthy p = true).
    { apply truthyOpt_Some in Hk. unfold Js.truthy.
      now apply negb_true_iff, String.eqb_neq. }
    destruct (Hall p Hcand Hp Htr) as [Hpin Hkids].
    destruct Hfam as [->|Hk']; [assumption|].
    apply Hkids. apply buildChildrenMap_spec. exists r'. auto.
Qed.

(** ** Fitting the content *)

Local Open Scope Q_scope.

Lemma growBox_Some (cw ch : Q) (l : list LayoutNode.t) (b : Q * Q * Q * Q) :
  exists out, fold_left (growBox cw ch) l (Some b) = Some out.
Proof.
  revert b. induction l as [|n l IH]; intros b; simpl; [eauto|].
  destruct b as [[[a1 a2] a3] a4]. apply IH.
Qed.

Lemma growBox_bounds (cw ch : Q) (l : list LayoutNode.t) :
  forall (box : option (Q * Q * Q * Q)) (minX minY maxX maxY : Q),
    fold_left (growBox cw ch) l box = Some (minX, minY, maxX, maxY) ->
    (forall a b c d, box = Some (a, b, c, d) ->
                     minX <= a /\ minY <= b /\ c <= maxX /\ d <= maxY) /\
    (forall n, In n l ->
               minX <= LayoutNode.x n - cw / (2#1) /\
               minY <= LayoutNode.y n - ch / (2#1) /\
               LayoutNode.x n - cw / (2#1) + cw <= maxX /\
               LayoutNode.y n - ch / (2#1) + ch <= maxY).
Proof.
  induction l as [|n l IH]; intros box minX minY maxX maxY Hf; simpl in Hf.
  - split; [|intros n []]. intros a b c d Hb. rewrite Hb in Hf. injection Hf as <- <- <- <-.
    repeat split; apply Qle_refl.
  - apply IH in Hf. destruct Hf as [Hbox Hall].
    set (x0 := LayoutNode.x n - cw / (2#1)) in *.
    set (y0 := LayoutNode.y n - ch / (2#1)) in *.
    destruct box as [[[[a b] c] d]|]; cbn [growBox] in Hbox; fold x0 y0 in Hbox.
    + destruct (Hbox _ _ _ _ eq_refl) as (H1 & H2 & H3 & H4).
      pose proof (Q.le_min_l a x0). pose proof (Q.le_min_r a x0).
      pose proof (Q.le_min_l b y0). pose proof (Q.le_min_r b y0).
      pose proof (Q.le_max_l c (x0 + cw)). pose proof (Q.le_max_r c (x0 + cw)).
      pose proof (Q.le_max_l d (y0 + ch)). pose proof (Q.le_max_r d (y0 + ch)).
      split.
      * intros a' b' c' d' [= <- <- <- <-].
        repeat split; eapply Qle_trans; eassumption.
      * intros m [<-|Hm]; [|now apply Hall]. fold x0 y0.
        repeat split; eapply Qle_trans; eassumption.
    + destruct (Hbox _ _ _ _ eq_refl) as (H1 & H2 & H3 & H4).
      split; [discriminate|].
      intros m [<-|Hm]; [|now apply Hall]. fold x0 y0. auto.
Qed.

Lemma fit_scale_bound (m : Q) :
  (2#10) < Qmin (2#1) (Qmax (2#10) m) ->
  0 < Qmin (2#1) (Qmax (2#10) m) /\ Qmin (2#1) (Qmax (2#10) m) <= m.
Proof.
  intros Hlt. split; [eapply Qlt_trans; [|exact Hlt]; reflexivity|].
  destruct (Qlt_le_dec (2#10) m) as [Hm|Hm].
  - eapply Qle_trans; [apply Q.le_min_r|]. rewrite Q.max_r; [apply Qle_refl|].
    now apply Qlt_le_weak.
  - exfalso. apply (Qlt_irrefl (2#10)). eapply Qlt_le_trans; [exact Hlt|].
    eapply Qle_trans; [apply Q.le_min_r|]. rewrite Q.max_l; [apply Qle_refl | assumption].
Qed.

Lemma scaled_extent (s avail content : Q) :
  0 < s -> s <= avail / Qmax 1 content -> s * content <= avail.
Proof.
  intros Hs Hle.
  assert (HM : 0 < Qmax 1 content).
  { eapply Qlt_le_trans; [|apply Q.le_max_l]. reflexivity. }
  assert (H1 : s * Qmax 1 content <= avail).
  { apply Qle_trans with (avail / Qmax 1 content * Qmax 1 content).
    - apply Qmult_le_compat_r; [assumption | now apply Qlt_le_weak].
    - assert (Heq : avail / Qmax 1 content * Qmax 1 content == avail).
      { field. intros H0. rewrite H0 in HM. now apply Qlt_irrefl in HM. }
      rewrite Heq. apply Qle_refl. }
  eapply Qle_trans; [|exact H1].
  rewrite !(Qmult_comm s). apply Qmult_le_compat_r; [apply Q.le_max_r | now apply Qlt_le_weak].
Qed.

Lemma centred_inside (lo hi p0 p1 s w : Q) :
  0 < s -> lo <= p0 -> p1 <= hi -> s * (hi - lo) <= w - (48#1) ->
  (24#1) <= p0 * s + (w / (2#1) - (lo + hi) / (2#1) * s) /\
  p1 * s + (w / (2#1) - (lo + hi) / (2#1) * s) <= w - (24#1).
Proof.
  intros Hs Hlo Hhi Hext.
  assert (H0 : 0 <= (p0 - lo) * s)
    by (apply Qmult_le_0_compat; [lra | now apply Qlt_le_weak]).
  assert (H1 : 0 <= (hi - p1) * s)
    by (apply Qmult_le_0_compat; [lra | now apply Qlt_le_weak]).
  split.
  - assert (Heq : p0 * s + (w / (2#1) - (lo + hi) / (2#1) * s) - (24#1) ==
                  (p0 - lo) * s + ((w - (48#1)) - s * (hi - lo)) / (2#1)) by field.
    assert (0 <= ((w - (48#1)) - s * (hi - lo)) / (2#1)).
    { apply Qle_shift_div_l; [reflexivity|]. lra. }
    lra.
  - assert (Heq : w - (24#1) - (p1 * s + (w / (2#1) - (lo + hi) / (2#1) * s)) ==
                  (hi - p1) * s + ((w - (48#1)) - s * (hi - lo)) / (2#1)) by field.
    assert (0 <= ((w - (48#1)) - s * (hi - lo)) / (2#1)).
    { apply Qle_shift_div_l; [reflexivity|]. lra. }
    lra.
Qed.

(** X16: a fit shows every card.  In a viewport of at least 49 by 49, unless
    the fit bottoms out at the minimum scale 0.2, every node's card is drawn
    inside the viewport with the 24-pixel padding kept on all four sides. *)
Theorem fit_shows_every_card (v : Visual) (n : LayoutNode.t) :
  (49#1) <= lastViewportW v -> (49#1) <= lastViewportH v ->
  In n (nodes v) ->
  (2#10) < scale (fitToViewport v) ->
  (24#1) <= toScreenX (fitToViewport v) (cardLeft (settings v) n) /\
  toScreenX (fitToViewport v) (cardRight (settings v) n) <= lastViewportW v - (24#1) /\
  (24#1) <= toScreenY (fitToViewport v) (cardTop (settings v) n) /\
  toScreenY (fitToViewport v) (cardBottom (settings v) n) <= lastViewportH v - (24#1).
Proof.
  intros HW HH Hn. unfold toScreenX, toScreenY, cardLeft, cardRight, cardTop, cardBottom.
  unfold fitToViewport.
  assert (Hlen : Nat.eqb (List.length (nodes v)) 0 = false).
  { destruct (nodes v); [contradiction | reflexivity]. }
  assert (HW0 : Qleb (lastViewportW v) 0 = false).
  { unfold Qleb. destruct (Qle_bool (lastViewportW v) 0) eqn:Hb; [|reflexivity].
    apply Qle_bool_iff in Hb. lra. }
  assert (HH0 : Qleb (lastViewportH v) 0 = false).
  { unfold Qleb. destruct (Qle_bool (lastViewportH v) 0) eqn:Hb; [|reflexivity].
    apply Qle_bool_iff in Hb. lra. }
  rewrite Hlen, HW0, HH0. cbn [orb].
  destruct (fold_left _ (nodes v) None) as [[[[minX minY] maxX] maxY]|] eqn:Hbox.
  - destruct (growBox_bounds _ _ _ _ _ _ _ _ Hbox) as [_ Hall].
    destruct (Hall n Hn) as (Bx0 & By0 & Bx1 & By1).
    cbn [scale tx ty setTransform lastViewportW lastViewportH settings].
    set (availW := Qmax 1 (lastViewportW v - (24#1) * (2#1))).
    set (availH := Qmax 1 (lastViewportH v - (24#1) * (2#1))).
    set (m := Qmin (availW / Qmax 1 (maxX - minX)) (availH / Qmax 1 (maxY - minY))).
    intros Hlt. destruct (fit_scale_bound m Hlt) as [Hpos Hle].
    set (s := Qmin (2#1) (Qmax (2#10) m)) in *.
    assert (HaW : availW == lastViewportW v - (48#1)).
    { unfold availW. rewrite Q.max_r; lra. }
    assert (HaH : availH == lastViewportH v - (48#1)).
    { unfold availH. rewrite Q.max_r; lra. }
    assert (HeW : s * (maxX - minX) <= lastViewportW v - (48#1)).
    { rewrite <- HaW. apply scaled_extent; [assumption|].
      eapply Qle_trans; [exact Hle | apply Q.le_min_l]. }
    assert (HeH : s * (maxY - minY) <= lastViewportH v - (48#1)).
    { rewrite <- HaH. apply scaled_extent; [assumption|].
      eapply Qle_trans; [exact Hle | apply Q.le_min_r]. }
    destruct (centred_inside minX maxX _ _ s (lastViewportW v) Hpos Bx0 Bx1 HeW) as [L R].
    destruct (centred_inside minY maxY _ _ s (lastViewportH v) Hpos By0 By1 HeH) as [T B].
    repeat split; assumption.
  - exfalso. destruct (nodes v) as [|n0 l]; [contradiction|]. simpl in Hbox.
    destruct (growBox_Some (cardWidth (settings v)) (cardHeight (settings v)) l
                (LayoutNode.x n0 - cardWidth (settings v) / (2#1),
                 LayoutNode.y n0 - cardHeight (settings v) / (2#1),
                 LayoutNode.x n0 - cardWidth (settings v) / (2#1) + cardWidth (settings v),
                 LayoutNode.y n0 - cardHeight (settings v) / (2#1) + cardHeight (settings v)))
      as [out Hout].
    rewrite Hout in Hbox. discriminate.
Qed.

(** ** The stationary node *)


Section Stationary.

Variable treeLayout : Q -> Q -> D3.HierarchyNode -> NodeRow.t -> Q * Q.



End Stationary.

(** ** Zoom at the limits *)





(** ** The zoom entry *)



Local Close Scope Q_scope.

(** ** Hit testing *)

Local Open Scope Q_scope.

Lemma renderTree_acc (s : VisualSettings) (cm : ChildrenMap) (l : list LayoutNode.t) :
  forall acc : HitRects,
    let out :=
      fold_left
        (fun acc n =>
           let x := LayoutNode.x n - cardWidth s / (2#1) in
           let y := LayoutNode.y n - cardHeight s / (2#1) in
           let w := cardWidth s in
           let h := cardHeight s in
           let toggleSize := (14#1) in
           let toggles :=
             if hasChildren cm (LayoutNode.id n) then
               let tW := toggleSize in
               let tH := toggleSize in
               let tX := x + w - tW - (6#1) in
               let tY := y + (6#1) in
               toggleRects acc ++
               [{| toggleNodeId := LayoutNode.id n;
                   toggleX := tX; toggleY := tY; toggleW := tW; toggleH := tH |}]
             else toggleRects acc in
           {| nodeRects :=
                nodeRects acc ++
                [{| rectNode := n; rectX := x; rectY := y; rectW := w; rectH := h |}];
              toggleRects := toggles |})
        l acc in
    nodeRects out =
    nodeRects acc ++
    map (fun n => {| rectNode := n; rectX := cardLeft s n; rectY := cardTop s n;
                     rectW := cardWidth s; rectH := cardHeight s |}) l /\
    toggleRects out =
    toggleRects acc ++
    flat_map
      (fun n =>
         if hasChildren cm (LayoutNode.id n) then
           [{| toggleNodeId := LayoutNode.id n;
               toggleX := cardLeft s n + cardWidth s - (14#1) - (6#1);
               toggleY := cardTop s n + (6#1);
               toggleW := (14#1); toggleH := (14#1) |}]
         else []) l.
Proof.
  induction l as [|n l IH]; intros acc; cbn [fold_left map flat_map].
  - now rewrite !app_nil_r.
  - cbv zeta in IH |- *.
    match goal with
    | |- context [fold_left _ l ?a] => destruct (IH a) as [Hn Ht]
    end.
    rewrite Hn, Ht. cbn [nodeRects toggleRects]. rewrite <- !app_assoc. split; [reflexivity|].
    destruct (hasChildren cm (LayoutNode.id n)); [now rewrite <- app_assoc | reflexivity].
Qed.

Lemma renderTree_nodeRects (v : Visual) :
  nodeRects (renderTree v) =
  map (fun n => {| rectNode := n; rectX := cardLeft (settings v) n;
                   rectY := cardTop (settings v) n;
                   rectW := cardWidth (settings v); rectH := cardHeight (settings v) |})
      (nodes v).
Proof.
  unfold renderTree.
  exact (proj1 (renderTree_acc (settings v) (childrenMap v) (nodes v)
                  {| nodeRects := []; toggleRects := [] |})).
Qed.

Lemma renderTree_toggleRects (v : Visual) :
  toggleRects (renderTree v) =
  flat_map
    (fun n =>
       if hasChildren (childrenMap v) (LayoutNode.id n) then
         [{| toggleNodeId := LayoutNode.id n;
             toggleX := cardLeft (settings v) n + cardWidth (settings v) - (14#1) - (6#1);
             toggleY := cardTop (settings v) n + (6#1);
             toggleW := (14#1); toggleH := (14#1) |}]
       else []) (nodes v).
Proof.
  unfold renderTree.
  exact (proj2 (renderTree_acc (settings v) (childrenMap v) (nodes v)
                  {| nodeRects := []; toggleRects := [] |})).
Qed.

Lemma inRect_spec (wx wy x y w h : Q) :
  inRect wx wy x y w h = true <-> x <= wx /\ wx <= x + w /\ y <= wy /\ wy <= y + h.
Proof.
  unfold inRect. rewrite !andb_true_iff, !Qle_bool_iff. tauto.
Qed.


Lemma hitTest_hits_card_aux (v : Visual) (sx sy : Q) (h : Hit) :
  hitTest v (renderTree v) sx sy = Some h ->
  In (hitNode h) (nodes v) /\
  cardLeft (settings v) (hitNode h) <= worldX h /\
  worldX h <= cardRight (settings v) (hitNode h) /\
  cardTop (settings v) (hitNode h) <= worldY h /\
  worldY h <= cardBottom (settings v) (hitNode h).
Proof.
  unfold hitTest. rewrite renderTree_nodeRects.
  destruct (find _ _) as [r|] eqn:Hf; [|discriminate].
  intros [= <-]. cbn [hitNode worldX worldY].
  apply find_some in Hf. destruct Hf as [Hin Hrect].
  apply in_rev, in_map_iff in Hin. destruct Hin as (n & <- & Hn).
  cbn [rectNode rectX rectY rectW rectH] in *.
  apply inRect_spec in Hrect. destruct Hrect as (H1 & H2 & H3 & H4).
  unfold cardRight, cardBottom. repeat split; auto.
Qed.

Lemma hitTest_miss_aux (v : Visual) (sx sy : Q) :
  hitTest v (renderTree v) sx sy = None ->
  forall n, In n (nodes v) ->
    inRect ((sx - tx v) / scale v) ((sy - ty v) / scale v)
           (cardLeft (settings v) n) (cardTop (settings v) n)
           (cardWidth (settings v)) (cardHeight (settings v)) = false.
Proof.
  unfold hitTest. rewrite renderTree_nodeRects.
  destruct (find _ _) as [r|] eqn:Hf; [discriminate|]. intros _ n Hn.
  apply (find_none _ _ Hf
           {| rectNode := n; rectX := cardLeft (settings v) n;
              rectY := cardTop (settings v) n;
              rectW := cardWidth (settings v); rectH := cardHeight (settings v) |}).
  apply -> in_rev. apply in_map_iff. eauto.
Qed.




(** X21: pointing at a node finds a card.  With cards of non-negative size
    and a non-zero scale, the hit test at the screen point of a laid-out
    node returns a node whose card contains that node's centre: the node
    itself, or one drawn over it. *)
Theorem hitTest_at_node (v : Visual) (nodeId : string) (node : LayoutNode.t) (pt : Q * Q) :
  ~ scale v == 0 ->
  0 <= cardWidth (settings v) -> 0 <= cardHeight (settings v) ->
  find (fun n => String.eqb (LayoutNode.id n) nodeId) (nodes v) = Some node ->
  getNodeScreenPoint v (Some nodeId) = Some pt ->
  exists h,
    hitTest v (renderTree v) (fst pt) (snd pt) = Some h /\
    cardLeft (settings v) (hitNode h) <= LayoutNode.x node /\
    LayoutNode.x node <= cardRight (settings v) (hitNode h) /\
    cardTop (settings v) (hitNode h) <= LayoutNode.y node /\
    LayoutNode.y node <= cardBottom (settings v) (hitNode h).
Proof.
  intros Hs Hw Hh Hfind Hpt. unfold getNodeScreenPoint in Hpt.
  destruct (Js.truthyOpt (Some nodeId)) as [nid|] eqn:Ht; [|discriminate].
  apply truthyOpt_Some in Ht. destruct Ht as [[= <-] _]. rewrite Hfind in Hpt.
  injection Hpt as <-. cbn [fst snd].
  assert (Hx : (LayoutNode.x node * scale v + tx v - tx v) / scale v == LayoutNode.x node)
    by (field; exact Hs).
  assert (Hy : (LayoutNode.y node * scale v + ty v - ty v) / scale v == LayoutNode.y node)
    by (field; exact Hs).
  destruct (hitTest v (renderTree v) (LayoutNode.x node * scale v + tx v)
              (LayoutNode.y node * scale v + ty v)) as [h|] eqn:Hhit.
  - exists h. split; [reflexivity|].
    assert (Hwx : worldX h == LayoutNode.x node).
    { unfold hitTest in Hhit. cbv zeta in Hhit.
      destruct (find _ (rev _)) in Hhit; [|discriminate]. injection Hhit as <-. exact Hx. }
    assert (Hwy : worldY h == LayoutNode.y node).
    { unfold hitTest in Hhit. cbv zeta in Hhit.
      destruct (find _ (rev _)) in Hhit; [|discriminate]. injection Hhit as <-. exact Hy. }
    destruct (hitTest_hits_card_aux v _ _ h Hhit) as (_ & H1 & H2 & H3 & H4).
    rewrite Hwx in H1, H2. rewrite Hwy in H3, H4. auto.
  - exfalso. apply find_some in Hfind. destruct Hfind as [Hin _].
    pose proof (hitTest_miss_aux _ _ _ Hhit node Hin) as Hmiss.
    assert (Htrue : inRect ((LayoutNode.x node * scale v + tx v - tx v) / scale v)
                           ((LayoutNode.y node * scale v + ty v - ty v) / scale v)
                           (cardLeft (settings v) node) (cardTop (settings v) node)
                           (cardWidth (settings v)) (cardHeight (settings v)) = true).
    { apply inRect_spec. rewrite Hx, Hy. unfold cardLeft, cardTop.
      assert (0 <= cardWidth (settings v) / (2#1))
        by (apply Qle_shift_div_l; [reflexivity | lra]).
      assert (0 <= cardHeight (settings v) / (2#1))
        by (apply Qle_shift_div_l; [reflexivity | lra]).
      assert (cardWidth (settings v) / (2#1) * (2#1) == cardWidth (settings v)) by field.
      assert (cardHeight (settings v) / (2#1) * (2#1) == cardHeight (settings v)) by field.
      repeat split; lra. }
    congruence.
Qed.

Lemma hasChildren_childrenOf (cm : ChildrenMap) (id : string) :
  hasChildren cm id = true <-> childrenOf cm id <> [].
Proof.
  unfold hasChildren, childrenOf. destruct (StrMap.get id cm) as [[|c a]|]; simpl.
  - split; [discriminate | intros H; now contradiction H].
  - split; [discriminate | reflexivity].
  - split; [discriminate | intros H; now contradiction H].
Qed.

(** X22: only parents have a toggle.  A toggle hit for an id means that the
    id has children in the index and is the id of a laid-out node, and that
    the point lies in the 14 by 14 square set 6 in from the top right corner
    of that node's card. *)
Theorem isToggleHit_means_parent (v : Visual) (nodeId : string) (wx wy : Q) :
  isToggleHit (renderTree v) nodeId wx wy = true ->
  childrenOf (childrenMap v) nodeId <> [] /\
  exists n,
    In n (nodes v) /\ LayoutNode.id n = nodeId /\
    cardRight (settings v) n - (20#1) <= wx /\ wx <= cardRight (settings v) n - (6#1) /\
    cardTop (settings v) n + (6#1) <= wy /\ wy <= cardTop (settings v) n + (20#1).
Proof.
  unfold isToggleHit. rewrite renderTree_toggleRects. intros Hex.
  apply existsb_exists in Hex. destruct Hex as (t & Hin & Ht).
  apply in_rev, in_flat_map in Hin. destruct Hin as (n & Hn & Htn).
  destruct (hasChildren (childrenMap v) (LayoutNode.id n)) eqn:Hkids; [|contradiction].
  destruct Htn as [<-|[]]. cbn [toggleNodeId toggleX toggleY toggleW toggleH] in Ht.
  apply andb_true_iff in Ht. destruct Ht as [Hid Hrect].
  apply String.eqb_eq in Hid. apply inRect_spec in Hrect.
  destruct Hrect as (H1 & H2 & H3 & H4). split.
  - rewrite <- Hid. now apply hasChildren_childrenOf.
  - exists n. unfold cardRight. repeat split; auto; lra.
Qed.



Local Close Scope Q_scope.

(** ** Keyboard focus *)

Lemma findIndex_Some {A} (p : A -> bool) (l : list A) (i : nat) :
  findIndex p l = Some i -> i < List.length l.
Proof.
  revert i. induction l as [|a l IH]; intros i; simpl; [discriminate|].
  destruct (p a); [intros [= <-]; lia|].
  destruct (findIndex p l) as [j|]; [|discriminate].
  intros [= <-]. specialize (IH j eq_refl). lia.
Qed.

Lemma focusAt_in_range (l : list LayoutNode.t) (idx : nat) (i : Interaction) :
  idx < List.length l ->
  exists n, nth_error l idx = Some n /\
            focusAt l idx i =
            Ok {| focusedNodeId := Some (LayoutNode.id n); focusedIndex := idx;
                  selectedIds := selectedIds i |}.
Proof.
  intros Hlt. unfold focusAt. destruct (nth_error l idx) as [n|] eqn:Hn.
  - eauto.
  - apply nth_error_None in Hn. lia.
Qed.

Lemma focus_index_in_range (l : list LayoutNode.t) (focus : option string) :
  Nat.eqb (List.length l) 0 = false ->
  match findIndex (isFocused focus) l with Some idx => idx | None => 0 end < List.length l.
Proof.
  intros Hl. apply Nat.eqb_neq in Hl.
  destruct (findIndex _ l) as [idx|] eqn:Hf; [now apply findIndex_Some in Hf | lia].
Qed.

Section KeyboardProperties.

Variable treeLayout : Q -> Q -> D3.HierarchyNode -> NodeRow.t -> Q * Q.

(** X24: the keyboard never reads past the list.  Whatever the focus, the
    list and the key, neither [ensureFocus] nor [onKeyDown] ends in a
    [TypeError]: every index they read is inside the list. *)
Theorem keyboard_never_throws (this : Visual) (i : Interaction) (key : string) :
  ensureFocus this i <> TypeError /\
  onKeyDown treeLayout this i key <> TypeError.
Proof.
  split.
  - unfold ensureFocus. destruct (Nat.eqb _ 0) eqn:Hl; [discriminate|].
    destruct (focusAt_in_range _ _ i (focus_index_in_range _ (focusedNodeId i) Hl))
      as (n & _ & ->). discriminate.
  - unfold onKeyDown. destruct (Nat.eqb _ 0) eqn:Hl; [discriminate|].
    pose proof (focus_index_in_range _ (focusedNodeId i) Hl) as Hidx.
    set (idx := match findIndex _ _ with Some idx => idx | None => 0 end) in *.
    assert (Hmove : forall j, j < List.length (focusList this) ->
              match focusAt (focusList this) j i with
              | Ok i' => Ok (this, i')
              | TypeError => TypeError
              | NoReturn => NoReturn
              end <> TypeError).
    { intros j Hj. destruct (focusAt_in_range _ _ i Hj) as (n & _ & ->). discriminate. }
    destruct (nth_error (focusList this) idx) as [n|] eqn:Hn;
      [|apply nth_error_None in Hn; lia].
    destruct (keyIn key ["ArrowDown"; "ArrowRight"]); [apply Hmove; lia|].
    destruct (keyIn key ["ArrowUp"; "ArrowLeft"]); [apply Hmove; lia|].
    destruct (String.eqb key "Home"); [apply Hmove; lia|].
    destruct (String.eqb key "End"); [apply Hmove; lia|].
    destruct (keyIn key ["Enter"; " "]); [destruct (negb _); discriminate|].
    destruct (keyIn key ["+"; "="]).
    { destruct (StrSet.has _ _); [|discriminate].
      destruct (toggleCollapse _ _ _); discriminate. }
    destruct (keyIn key ["-"; "_"]); [|discriminate].
    destruct (negb _); [|discriminate].
    destruct (toggleCollapse _ _ _); discriminate.
Qed.

Lemma findIndex_unique (l : list LayoutNode.t) (k : nat) (n : LayoutNode.t) :
  NoDup (map LayoutNode.id l) -> nth_error l k = Some n ->
  findIndex (isFocused (Some (LayoutNode.id n))) l = Some k.
Proof.
  revert k. induction l as [|a l IH]; intros k Hnd Hn; [destruct k; discriminate|].
  simpl in Hnd. inversion Hnd as [|? ? Hnot Hnd']; subst.
  destruct k as [|k]; simpl in Hn |- *.
  - injection Hn as ->. now rewrite String.eqb_refl.
  - destruct (String.eqb_spec (LayoutNode.id a) (LayoutNode.id n)) as [Heq|_].
    + exfalso. apply Hnot. rewrite Heq. apply in_map. eapply nth_error_In; eassumption.
    + now rewrite (IH k Hnd' Hn).
Qed.

(** X25: arrow keys undo each other.  On a list with distinct ids, with the
    focus on the element at index [k] and another element after it,
    ArrowDown moves the focus to index [k + 1] and ArrowUp brings it back. *)
Theorem arrow_down_then_up (this : Visual) (i : Interaction) (k : nat)
    (n next : LayoutNode.t) :
  NoDup (map LayoutNode.id (focusList this)) ->
  nth_error (focusList this) k = Some n ->
  nth_error (focusList this) (S k) = Some next ->
  focusedNodeId i = Some (LayoutNode.id n) ->
  exists i1 i2,
    onKeyDown treeLayout this i "ArrowDown" = Ok (this, i1) /\
    focusedNodeId i1 = Some (LayoutNode.id next) /\
    onKeyDown treeLayout this i1 "ArrowUp" = Ok (this, i2) /\
    focusedNodeId i2 = Some (LayoutNode.id n) /\ focusedIndex i2 = k.
Proof.
  intros Hnd Hn Hnext Hfocus.
  assert (Hlen : S k < List.length (focusList this))
    by (apply nth_error_Some; congruence).
  assert (Hl : Nat.eqb (List.length (focusList this)) 0 = false)
    by (apply Nat.eqb_neq; lia).
  eexists _, _. unfold onKeyDown. rewrite Hl, Hfocus.
  rewrite (findIndex_unique _ k n Hnd Hn). cbn [keyIn existsb String.eqb Ascii.eqb Bool.eqb orb].
  replace (Nat.min (List.length (focusList this) - 1) (k + 1)) with (S k) by lia.
  unfold focusAt at 1. rewrite Hnext. split; [reflexivity|]. split; [reflexivity|].
  cbn [focusedNodeId]. rewrite (findIndex_unique _ (S k) next Hnd Hnext).
  replace (Nat.max 0 (S k - 1)) with k by lia.
  unfold focusAt. rewrite Hn. repeat split; reflexivity.
Qed.

Lemma toggleCollapse_collapsed (this v' : Visual) (nodeId : string) :
  toggleCollapse treeLayout this nodeId = Some v' ->
  collapsedIds v' = collapsedIds this \/
  collapsedIds v' = toggled nodeId (collapsedIds this).
Proof.
  unfold toggleCollapse. destruct (negb _); [intros [= <-]; now left|].
  destruct (computeLayoutFromState _ _ _ _) as [r|] eqn:Hr; cbn [bind]; [|discriminate].
  intros [= <-]. right. apply computeLayoutFromState_frame in Hr. destruct Hr as [_ ->].
  unfold toggled. destruct (StrSet.has nodeId (collapsedIds this)); reflexivity.
Qed.

(** X26: the plus key only expands and the minus key only collapses.  After
    "+" (or "=") no id is collapsed that was not collapsed before; after
    "-" (or "_") every id that was collapsed still is. *)
Theorem plus_expands_minus_collapses (this v' : Visual) (i i' : Interaction) (key : string) :
  onKeyDown treeLayout this i key = Ok (v', i') ->
  (keyIn key ["+"; "="] = true ->
   forall x, In x (collapsedIds v') -> In x (collapsedIds this)) /\
  (keyIn key ["-"; "_"] = true ->
   forall x, In x (collapsedIds this) -> In x (collapsedIds v')).
Proof.
  unfold onKeyDown. destruct (Nat.eqb _ 0); [intros [= <- <-]; split; auto|].
  set (idx := match findIndex _ _ with Some idx => idx | None => 0 end).
  assert (Hmove : forall j,
            match focusAt (focusList this) j i with
            | Ok i' => Ok (this, i')
            | TypeError => TypeError
            | NoReturn => NoReturn
            end = Ok (v', i') -> v' = this).
  { intros j. destruct (focusAt _ j i); [|discriminate|discriminate]. now intros [= <- _]. }
  destruct (keyIn key ["ArrowDown"; "ArrowRight"]);
    [intros H; apply Hmove in H; subst; split; auto|].
  destruct (keyIn key ["ArrowUp"; "ArrowLeft"]);
    [intros H; apply Hmove in H; subst; split; auto|].
  destruct (String.eqb key "Home"); [intros H; apply Hmove in H; subst; split; auto|].
  destruct (String.eqb key "End"); [intros H; apply Hmove in H; subst; split; auto|].
  destruct (keyIn key ["Enter"; " "]).
  { destruct (negb _); [intros [= <- <-]; split; auto|].
    destruct (nth_error _ _); [|discriminate]. intros [= <- <-]. split; auto. }
  destruct (keyIn key ["+"; "="]) eqn:Hplus.
  { destruct (nth_error _ _) as [n|]; [|discriminate].
    destruct (StrSet.has (LayoutNode.id n) (collapsedIds this)) eqn:Hc.
    - destruct (toggleCollapse _ _ _) as [v1|] eqn:Ht; [|discriminate].
      intros [= <- <-]. apply toggleCollapse_collapsed in Ht. split.
      + intros _ x Hx. destruct Ht as [Ht|Ht]; rewrite Ht in Hx; [assumption|].
        unfold toggled in Hx. rewrite Hc in Hx. apply has_In in Hx.
        rewrite has_delete in Hx. apply andb_true_iff in Hx. now apply has_In.
      + destruct (keyIn key ["-"; "_"]) eqn:Hminus; [|discriminate].
        exfalso. clear -Hplus Hminus. unfold keyIn in *. simpl in *.
        rewrite !orb_false_r in *. apply orb_true_iff in Hplus, Hminus.
        destruct Hplus as [H|H], Hminus as [H'|H']; apply String.eqb_eq in H, H';
          subst; discriminate.
    - intros [= <- <-]. split; auto. }
  destruct (keyIn key ["-"; "_"]) eqn:Hminus; [|intros [= <- <-]; split; auto].
  destruct (nth_error _ _) as [n|]; [|discriminate].
  destruct (StrSet.has (LayoutNode.id n) (collapsedIds this)) eqn:Hc; cbn [negb].
  - intros [= <- <-]. split; auto.
  - destruct (toggleCollapse _ _ _) as [v1|] eqn:Ht; [|discriminate].
    intros [= <- <-]. apply toggleCollapse_collapsed in Ht. split; [discriminate|].
    intros _ x Hx. destruct Ht as [Ht|Ht]; rewrite Ht; [assumption|].
    unfold toggled. rewrite Hc. apply add_In. now right.
Qed.

End KeyboardProperties.

(** ** The cache of [update] *)

Lemma get_fold_set (l : list DataRow) (m : StrMap.t DataRow) (k : string) :
  StrMap.get k (fold_left (fun m r => StrMap.set (rowId r) r m) l m) =
  match find (fun r => String.eqb k (rowId r)) (rev l) with
  | Some r => Some r
  | None => StrMap.get k m
  end.
Proof.
  revert m. induction l as [|r l IH]; intros m; simpl; [reflexivity|].
  rewrite IH, find_over_app. destruct (find _ (rev l)); [reflexivity|]. simpl.
  rewrite get_set. destruct (String.eqb k (rowId r)); reflexivity.
Qed.

Lemma find_last_unique (l : list DataRow) (f : DataRow) :
  NoDup (map rowId l) -> In f l ->
  find (fun r => String.eqb (rowId f) (rowId r)) (rev l) = Some f.
Proof.
  intros Hnd Hin.
  destruct (find _ (rev l)) as [g|] eqn:Hf.
  - apply find_some in Hf. destruct Hf as [Hg Heq]. apply in_rev in Hg.
    apply String.eqb_eq in Heq. f_equal.
    clear -Hnd Hin Hg Heq. induction l as [|a l IH]; [contradiction|].
    simpl in Hnd. inversion Hnd as [|? ? Hnot Hnd']; subst.
    destruct Hin as [->|Hin], Hg as [->|Hg]; auto.
    + exfalso. apply Hnot. rewrite Heq. now apply in_map.
    + exfalso. apply Hnot. rewrite <- Heq. now apply in_map.
  - exfalso. apply in_rev in Hin. apply (find_none _ _ Hf) in Hin.
    now rewrite String.eqb_refl in Hin.
Qed.

Lemma hasAllIds_spec (base subset : list DataRow) :
  hasAllIds base subset = true <->
  forall r, In r subset -> In (rowId r) (map rowId base).
Proof.
  unfold hasAllIds. rewrite forallb_forall. unfold rowId.
  split; intros H r Hr; specialize (H r Hr).
  - apply has_idSetOf in H. now rewrite map_map in H.
  - apply has_idSetOf. now rewrite map_map.
Qed.

Lemma expandRoots_acc (full : list NodeRow.t) (l : list DataRow) :
  forall (acc s : StrSet.t),
    fold_left
      (fun acc r =>
         s <- acc ;;
         top <- climbToRoot (climbFuel full) (indexById full) (rowId r) ;;
         Some (StrSet.add top s))
      l (Some acc) = Some s ->
    (forall x, In x acc -> In x s) /\
    (forall r, In r l ->
       exists top, climbToRoot (climbFuel full) (indexById full) (rowId r) = Some top /\
                   In top s) /\
    (forall x, In x s ->
       In x acc \/
       exists r, In r l /\ climbToRoot (climbFuel full) (indexById full) (rowId r) = Some x).
Proof.
  induction l as [|r l IH]; intros acc s Hf; cbn [fold_left bind] in Hf.
  - injection Hf as <-. repeat split; auto. intros r [].
  - destruct (climbToRoot _ _ _) as [top|] eqn:Hc; cbn [bind] in Hf.
    + apply IH in Hf. destruct Hf as (Hmono & Hall & Hback). repeat split.
      * intros x Hx. apply Hmono, add_In. now right.
      * intros r' [<-|Hr']; [|now apply Hall].
        exists top. split; [assumption|]. apply Hmono, add_In. now left.
      * intros x Hx. destruct (Hback x Hx) as [Hx'|(r' & Hr' & Hc')].
        -- apply add_In in Hx'. destruct Hx' as [->|Hx']; [|now left].
           right. exists r. split; [now left | assumption].
        -- right. exists r'. split; [now right | assumption].
    + exfalso. clear -Hf. induction l as [|r' l IH]; cbn [fold_left bind] in Hf;
        [discriminate | auto].
Qed.

Lemma climb_top_is_root (byId : StrMap.t NodeRow.t) :
  forall fuel cur top, climbToRoot fuel byId cur = Some top -> stepUp byId top = None.
Proof.
  induction fuel as [|fuel IH]; intros cur top Hc; simpl in Hc; [discriminate|].
  destruct (stepUp byId cur) as [p|] eqn:Hs; [now apply (IH p)|].
  now injection Hc as <-.
Qed.

Lemma walk_no_index (fuel : nat) (collapsed : StrSet.t) (stack : list string)
    (out : StrSet.t) :
  walk fuel [] collapsed stack StrSet.empty = Some out ->
  forall x, In x out -> In x stack.
Proof.
  intros Hw x Hx. apply (walk_exact _ _ _ _ _ Hw) in Hx.
  induction Hx as [y Hy|u y Hu IH Hcol Hy]; [assumption | contradiction].
Qed.

Lemma buildChildrenMap_nonempty (rows : list NodeRow.t) (r : NodeRow.t) (p : string) :
  In r rows -> NodeRow.parentKey r = Some p ->
  Nat.ltb 0 (List.length (buildChildrenMap rows)) = true.
Proof.
  intros Hr Hk.
  assert (Hin : In (NodeRow.id r) (childrenOf (buildChildrenMap rows) p)).
  { apply buildChildrenMap_spec. exists r. auto. }
  destruct (buildChildrenMap rows); [contradiction | reflexivity].
Qed.

(** X27: a cached expansion keeps what the filter delivered.  When [update]
    serves a filtered data view from the cache built by the previous update,
    every delivered row is among the stored rows, in the cached row's place
    and with the delivered row's measures and selection id.  Delivered ids
    are distinct. *)
Theorem cached_update_keeps_filtered_rows (s0 s1 s2 : DataStore.t)
    (model sub : list DataRow) (f : DataRow) :
  model <> [] ->
  DataStore.updateData s0 false model = Some s1 ->
  List.length sub < List.length model ->
  hasAllIds model sub = true ->
  NoDup (map rowId sub) ->
  DataStore.updateData s1 true sub = Some s2 ->
  In f sub ->
  DataStore.fullRows s2 = model /\
  exists c,
    In c model /\ rowId c = rowId f /\
    In {| row := row c; value := value f; sparkline := sparkline f;
          tooltip := tooltip f; selectionId := selectionId f |}
       (DataStore.allRows s2).
Proof.
  intros Hmodel H1 Hlen Hall Hnd H2 Hf.
  assert (Hm0 : Nat.eqb (List.length model) 0 = false).
  { destruct model; [congruence | reflexivity]. }
  assert (Hs0 : Nat.eqb (List.length sub) 0 = false).
  { destruct sub; [contradiction | reflexivity]. }
  unfold DataStore.updateData in H1. rewrite Hm0 in H1. cbn [andb bind] in H1.
  injection H1 as <-.
  unfold DataStore.updateData in H2. rewrite Hs0 in H2.
  cbn [DataStore.fullRows DataStore.fullChildrenMap] in H2.
  assert (Hcache : Nat.ltb 0 (List.length model) = true).
  { destruct model; [congruence | reflexivity]. }
  apply Nat.ltb_lt in Hlen. rewrite Hcache, Hlen, Hall in H2. cbn [andb] in H2.
  destruct (expandRowsForFilter _ sub model) as [rows|] eqn:He; cbn [bind] in H2;
    [|discriminate].
  injection H2 as <-. cbn [DataStore.fullRows DataStore.allRows]. split; [reflexivity|].
  unfold expandRowsForFilter in He. rewrite Hs0 in He.
  destruct (fold_left _ sub (Some StrSet.empty)) as [roots|] eqn:Hr; cbn [bind] in He;
    [|discriminate].
  destruct (walk _ _ _ _ _) as [include|] eqn:Hw; cbn [bind] in He; [|discriminate].
  injection He as <-.
  apply expandRoots_acc in Hr. destruct Hr as (_ & Hroots & _).
  destruct (Hroots f Hf) as (top & Hc & Htop).
  assert (Hinc : In (rowId f) include).
  { apply (walk_exact _ _ _ _ _ Hw). apply climbToRoot_ClimbsIn in Hc.
    destruct Hc as [n Hn].
    apply (climb_reachable (map row model) (map row model) _ (incl_refl _) n _ top Hn).
    constructor. now apply -> in_rev. }
  pose proof (proj1 (hasAllIds_spec _ _) Hall f Hf) as Hbase.
  apply in_map_iff in Hbase. destruct Hbase as (c & Hid & Hcin).
  exists c. repeat split; auto.
  apply in_map_iff. exists c. split.
  - rewrite Hid, get_fold_set, (find_last_unique sub f Hnd Hf). reflexivity.
  - apply filter_In. split; [assumption|]. apply has_In. now rewrite Hid.
Qed.

(** X28: an empty data view empties the shared index.  After an update
    that stored rows with at least one parent reference, [this.childrenMap]
    is the very map held by [this.fullChildrenMap]; an update with an empty
    data view clears it and keeps the cached rows, and a filtered update
    served from that cache then stores only rows that have no parent among
    the cached rows: every delivered row with a parent in the cache is
    dropped. *)
Theorem empty_update_strips_cached_index (s0 s1 s2 s3 : DataStore.t)
    (model sub : list DataRow) (isFiltered : bool) (r : NodeRow.t) (p : string) :
  In r (map row model) -> NodeRow.parentKey r = Some p ->
  DataStore.updateData s0 false model = Some s1 ->
  DataStore.updateData s1 isFiltered [] = Some s2 ->
  sub <> [] ->
  List.length sub < List.length model ->
  hasAllIds model sub = true ->
  DataStore.updateData s2 true sub = Some s3 ->
  DataStore.fullRows s2 = model /\
  DataStore.fullChildrenMap s2 = [] /\
  DataStore.fullRows s3 = model /\
  forall c, In c (DataStore.allRows s3) ->
            stepUp (indexById (map row model)) (rowId c) = None.
Proof.
  intros Hr Hk H1 H2 Hsub Hlen Hall H3.
  assert (Hmodel : model <> []) by (destruct model; [contradiction | discriminate]).
  assert (Hm0 : Nat.eqb (List.length model) 0 = false).
  { destruct model; [congruence | reflexivity]. }
  assert (Hs0 : Nat.eqb (List.length sub) 0 = false).
  { destruct sub; [congruence | reflexivity]. }
  unfold DataStore.updateData in H1. rewrite Hm0 in H1. cbn [andb bind] in H1.
  rewrite (buildChildrenMap_nonempty _ r p Hr Hk) in H1. injection H1 as <-.
  unfold DataStore.updateData in H2. cbn in H2. injection H2 as <-.
  cbn [DataStore.fullRows DataStore.fullChildrenMap]. split; [reflexivity|].
  split; [reflexivity|].
  unfold DataStore.updateData in H3. rewrite Hs0 in H3.
  cbn [DataStore.fullRows DataStore.fullChildrenMap] in H3.
  assert (Hcache : Nat.ltb 0 (List.length model) = true).
  { destruct model; [congruence | reflexivity]. }
  apply Nat.ltb_lt in Hlen. rewrite Hcache, Hlen, Hall in H3. cbn [andb] in H3.
  destruct (expandRowsForFilter _ sub model) as [rows|] eqn:He; cbn [bind] in H3;
    [|discriminate].
  injection H3 as <-. cbn [DataStore.fullRows DataStore.allRows]. split; [reflexivity|].
  unfold expandRowsForFilter in He. rewrite Hs0 in He.
  destruct (fold_left _ sub (Some StrSet.empty)) as [roots|] eqn:Hroots; cbn [bind] in He;
    [|discriminate].
  destruct (walk _ _ _ _ _) as [include|] eqn:Hw; cbn [bind] in He; [|discriminate].
  injection He as <-. intros c Hc.
  apply in_map_iff in Hc. destruct Hc as (c0 & <- & Hc0).
  apply filter_In in Hc0. destruct Hc0 as [_ Hinc]. apply has_In in Hinc.
  apply (walk_no_index _ _ _ _ Hw), in_rev in Hinc.
  apply expandRoots_acc in Hroots. destruct Hroots as (_ & _ & Hback).
  destruct (Hback _ Hinc) as [[]|(f & _ & Hclimb)].
  assert (Hid : rowId (match StrMap.get (rowId c0)
                               (fold_left (fun m r => StrMap.set (rowId r) r m) sub []) with
                       | Some filtered =>
                           {| row := row c0; value := value filtered;
                              sparkline := sparkline filtered; tooltip := tooltip filtered;
                              selectionId := selectionId filtered |}
                       | None =>
                           {| row := row c0; value := None; sparkline := None;
                              tooltip := None; selectionId := selectionId c0 |}
                       end) = rowId c0).
  { destruct (StrMap.get _ _); reflexivity. }
  rewrite Hid. now apply (climb_top_is_root _ _ _ _ Hclimb).
Qed.

(** ** The sparkline range *)

Local Open Scope Q_scope.

Lemma sparkline_values (rows : list DataRow) (acc : list Q) (q : Q) :
  In q (fold_left
          (fun values r =>
             match finiteNumber (sparkline r) with
             | Some q => values ++ [q]
             | None => values
             end) rows acc) <->
  In q acc \/ exists r, In r rows /\ sparkline r = Some (Num q).
Proof.
  revert acc. induction rows as [|r rows IH]; intros acc; simpl.
  - split; [now left | intros [H|(r & [] & _)]; exact H].
  - rewrite IH. clear IH. split.
    + intros [H|(r' & Hr' & Hs)]; [|right; exists r'; auto].
      destruct (sparkline r) as [[q'|s]|] eqn:Hsp; simpl in H; auto.
      apply in_app_iff in H. destruct H as [H|[<-|[]]]; [now left|].
      right. exists r. auto.
    + intros [H|(r' & [<-|Hr'] & Hs)].
      * left. destruct (finiteNumber (sparkline r)); [apply in_app_iff|]; auto.
      * left. rewrite Hs. simpl. apply in_app_iff. right. now left.
      * right. exists r'. auto.
Qed.

Lemma fold_Qmin_le (vs : list Q) (v : Q) :
  fold_left Qmin vs v <= v /\ forall q, In q vs -> fold_left Qmin vs v <= q.
Proof.
  revert v. induction vs as [|a vs IH]; intros v; simpl.
  - split; [apply Qle_refl | intros q []].
  - destruct (IH (Qmin v a)) as [H1 H2]. split.
    + eapply Qle_trans; [exact H1 | apply Q.le_min_l].
    + intros q [<-|Hq]; [|now apply H2].
      eapply Qle_trans; [exact H1 | apply Q.le_min_r].
Qed.

Lemma fold_Qmax_ge (vs : list Q) (v : Q) :
  v <= fold_left Qmax vs v /\ forall q, In q vs -> q <= fold_left Qmax vs v.
Proof.
  revert v. induction vs as [|a vs IH]; intros v; simpl.
  - split; [apply Qle_refl | intros q []].
  - destruct (IH (Qmax v a)) as [H1 H2]. split.
    + eapply Qle_trans; [apply Q.le_max_l | exact H1].
    + intros q [<-|Hq]; [|now apply H2].
      eapply Qle_trans; [apply Q.le_max_r | exact H1].
Qed.

(** X29: the sparkline range brackets every numeric sparkline.  For a row
    with a numeric sparkline [q], [setSparklineRange] yields a minimum and a
    maximum with [min <= q <= max], and the fraction of the indicator line
    drawn for [q] lies in [0, 1], so that its clamp never cuts. *)
Theorem sparkline_range_brackets (rows : list DataRow) (r : DataRow) (q : Q) :
  In r rows -> sparkline r = Some (Num q) ->
  exists lo hi t,
    setSparklineRange rows = (Some lo, Some hi) /\
    lo <= q /\ q <= hi /\
    sparklineFraction (setSparklineRange rows) q = Some t /\
    0 <= t /\ t <= 1.
Proof.
  intros Hr Hs. unfold setSparklineRange.
  assert (Hq : In q (fold_left
                       (fun values r =>
                          match finiteNumber (sparkline r) with
                          | Some q => values ++ [q]
                          | None => values
                          end) rows [])).
  { apply sparkline_values. right. exists r. auto. }
  destruct (fold_left _ rows []) as [|v vs]; [contradiction|].
  cbn [List.length Nat.eqb mathMin mathMax].
  destruct (fold_Qmin_le vs v) as [Hmin0 Hmin]. destruct (fold_Qmax_ge vs v) as [Hmax0 Hmax].
  assert (Hlo : fold_left Qmin vs v <= q).
  { destruct Hq as [<-|Hq]; [assumption | now apply Hmin]. }
  assert (Hhi : q <= fold_left Qmax vs v).
  { destruct Hq as [<-|Hq]; [assumption | now apply Hmax]. }
  set (lo := fold_left Qmin vs v) in *. set (hi := fold_left Qmax vs v) in *.
  unfold sparklineFraction. cbn [fst snd].
  destruct (Qeq_bool (hi - lo) 0) eqn:Hz.
  - exists lo, hi, 1. repeat split; auto; discriminate.
  - apply Qeq_bool_neq in Hz.
    assert (Hpos : 0 < hi - lo).
    { destruct (Qlt_le_dec 0 (hi - lo)) as [H|H]; [assumption|].
      exfalso. apply Hz. lra. }
    exists lo, hi, ((q - lo) / (hi - lo)). repeat split; auto.
    + apply Qle_shift_div_l; [assumption | lra].
    + apply Qle_shift_div_r; [assumption | lra].
Qed.

Local Close Scope Q_scope.

(** ** Setting and clearing a filter *)

Lemma sameOpt_true (a b : option string) : sameOpt a b = true -> a = b.
Proof.
  destruct a as [x|], b as [y|]; simpl; try discriminate; [|reflexivity].
  intros H. apply String.eqb_eq in H. now subst.
Qed.

Lemma visible_same_inputs (a b : Visual) :
  inputsWith (searchQuery a) (hierarchyFilterValue a) (parentFilterValue a)
             (dropdownFilterValue a) a b ->
  computeVisibleRows b (allRows b) (collapsedIds b) =
  computeVisibleRows a (allRows a) (collapsedIds a).
Proof.
  intros (H1 & H2 & H3 & H4 & H5 & H6 & H7). rewrite H1, H3.
  apply computeVisibleRows_inputs; [repeat split; assumption | intros x; reflexivity].
Qed.

Section FilterSetters.

Variable treeLayout : Q -> Q -> D3.HierarchyNode -> NodeRow.t -> Q * Q.

Lemma refilter_inputs (v v' : Visual) :
  refilter treeLayout v = Some v' ->
  inputsWith (searchQuery v) (hierarchyFilterValue v) (parentFilterValue v)
             (dropdownFilterValue v) v v'.
Proof.
  unfold refilter.
  destruct (computeLayoutFromState _ _ _ _) as [r|] eqn:Hr; cbn [bind]; [|discriminate].
  intros [= <-]. apply computeLayoutFromState_frame in Hr.
  destruct Hr as [(H1 & H2 & H3 & H4 & H5 & H6) Hc]. repeat split; assumption.
Qed.

Lemma setSearchQuery_inputs (v v' : Visual) (value : string) :
  setSearchQuery treeLayout v value = Some v' ->
  inputsWith (Js.trim value) (hierarchyFilterValue v) (parentFilterValue v)
             (dropdownFilterValue v) v v'.
Proof.
  unfold setSearchQuery. destruct (String.eqb_spec (searchQuery v) (Js.trim value)) as [He|_].
  - intros [= <-]. repeat split; auto.
  - intros H. apply refilter_inputs in H. exact H.
Qed.

Lemma setHierarchyFilter_inputs (v v' : Visual) (value : string) :
  setHierarchyFilter treeLayout v value = Some v' ->
  inputsWith (searchQuery v) (orNull value) (parentFilterValue v)
             (dropdownFilterValue v) v v'.
Proof.
  unfold setHierarchyFilter. destruct (sameOpt _ _) eqn:He.
  - apply sameOpt_true in He. intros [= <-]. repeat split; auto.
  - intros H. apply refilter_inputs in H. exact H.
Qed.

Lemma setParentFilter_inputs (v v' : Visual) (value : string) :
  setParentFilter treeLayout v value = Some v' ->
  inputsWith (searchQuery v) (hierarchyFilterValue v) (orNull value)
             (dropdownFilterValue v) v v'.
Proof.
  unfold setParentFilter. destruct (sameOpt _ _) eqn:He.
  - apply sameOpt_true in He. intros [= <-]. repeat split; auto.
  - intros H. apply refilter_inputs in H. exact H.
Qed.

Lemma setDropdownFilter_inputs (v v' : Visual) (value : string) :
  setDropdownFilter treeLayout v value = Some v' ->
  inputsWith (searchQuery v) (hierarchyFilterValue v) (parentFilterValue v)
             (orNull value) v v'.
Proof.
  unfold setDropdownFilter. destruct (sameOpt _ _) eqn:He.
  - apply sameOpt_true in He. intros [= <-]. repeat split; auto.
  - intros H. apply refilter_inputs in H. exact H.
Qed.

Ltac restore_inputs H1 H2 :=
  apply visible_same_inputs;
  destruct H1 as (A1 & A2 & A3 & A4 & A5 & A6 & A7);
  destruct H2 as (B1 & B2 & B3 & B4 & B5 & B6 & B7);
  repeat split; congruence.

(** X30: a filter set and then cleared leaves no trace.  From a state in
    which a filter input is empty, setting that input to any value and then
    clearing it gives back the visible rows of the state before, for each of
    the four inputs; the data and the collapse set are never touched. *)
Theorem filter_set_then_cleared (this : Visual) (value : string) (v1 v2 : Visual) :
  (searchQuery this = "" ->
   setSearchQuery treeLayout this value = Some v1 ->
   setSearchQuery treeLayout v1 "" = Some v2 ->
   computeVisibleRows v2 (allRows v2) (collapsedIds v2) =
   computeVisibleRows this (allRows this) (collapsedIds this)) /\
  (hierarchyFilterValue this = None ->
   setHierarchyFilter treeLayout this value = Some v1 ->
   setHierarchyFilter treeLayout v1 "" = Some v2 ->
   computeVisibleRows v2 (allRows v2) (collapsedIds v2) =
   computeVisibleRows this (allRows this) (collapsedIds this)) /\
  (parentFilterValue this = None ->
   setParentFilter treeLayout this value = Some v1 ->
   setParentFilter treeLayout v1 "" = Some v2 ->
   computeVisibleRows v2 (allRows v2) (collapsedIds v2) =
   computeVisibleRows this (allRows this) (collapsedIds this)) /\
  (dropdownFilterValue this = None ->
   setDropdownFilter treeLayout this value = Some v1 ->
   setDropdownFilter treeLayout v1 "" = Some v2 ->
   computeVisibleRows v2 (allRows v2) (collapsedIds v2) =
   computeVisibleRows this (allRows this) (collapsedIds this)).
Proof.
  repeat split; intros H0 H1 H2.
  - apply setSearchQuery_inputs in H1, H2. change (Js.trim "") with "" in H2.
    restore_inputs H1 H2.
  - apply setHierarchyFilter_inputs in H1, H2. change (orNull "") with (@None string) in H2.
    restore_inputs H1 H2.
  - apply setParentFilter_inputs in H1, H2. change (orNull "") with (@None string) in H2.
    restore_inputs H1 H2.
  - apply setDropdownFilter_inputs in H1, H2. change (orNull "") with (@None string) in H2.
    restore_inputs H1 H2.
Qed.

End FilterSetters.

(** ** The further properties at concrete inputs *)

Lemma parseDataView_wellformed_witness :
  NodeRow.id (NodeRow.mk "B" None "x / y" None) <> "" /\
  NodeRow.label (NodeRow.mk "B" None "x / y" None) <> "" /\
  NodeRow.parentId (NodeRow.mk "B" None "x / y" None) <> Some "".
Proof.
  apply (parseDataView_wellformed [paddedRaw]). vm_compute. left. reflexivity.
Defined.

Lemma computeVisibleRows_keeps_order_witness :
  exists keep,
    [plainRow "A" None; plainRow "B" (Some "A"); plainRow "C" (Some "A")] =
    filter keep exampleRows.
Proof.
  apply (computeVisibleRows_keeps_order exampleVisual exampleRows _ ["B"]). reflexivity.
Defined.

Lemma visible_iff_reachable_witness :
  In (plainRow "C" (Some "A"))
     [plainRow "A" None; plainRow "B" (Some "A"); plainRow "C" (Some "A")] <->
  In (plainRow "C" (Some "A")) exampleRows /\
  Reachable (childrenMap exampleVisual) ["B"] (map NodeRow.id (rootsOf exampleRows))
            (NodeRow.id (plainRow "C" (Some "A"))).
Proof.
  apply (visible_iff_reachable exampleVisual exampleRows exampleRows
           [plainRow "A" None; plainRow "B" (Some "A"); plainRow "C" (Some "A")] ["B"]);
    reflexivity.
Defined.

Lemma collapse_monotone_witness :
  In (plainRow "C" (Some "A")) exampleRows.
Proof.
  apply (collapse_monotone exampleVisual exampleRows exampleRows
           [plainRow "A" None; plainRow "B" (Some "A"); plainRow "C" (Some "A")]
           StrSet.empty ["B"]).
  - intros x [].
  - reflexivity.
  - reflexivity.
  - simpl. right. right. left. reflexivity.
Defined.

Lemma collapseAll_shows_roots_witness :
  [plainRow "A" None] = rootsOf exampleRows.
Proof.
  apply (collapseAll_shows_roots exampleVisual exampleRows exampleRows
           [plainRow "A" None] example_ids_unique); reflexivity.
Defined.

Lemma expanded_shows_all_witness :
  computeVisibleRows exampleVisual exampleRows StrSet.empty = Some exampleRows.
Proof.
  apply (expanded_shows_all exampleVisual exampleRows exampleRows exampleRows
           exampleRows_ranked).
  - apply incl_refl.
  - reflexivity.
  - reflexivity.
Defined.

Lemma search_keeps_matches_witness :
  In (plainRow "D" (Some "B")) exampleRows.
Proof.
  apply (search_keeps_matches exampleRows exampleRows exampleRows "D"
           (plainRow "D" (Some "B"))).
  - apply incl_refl.
  - reflexivity.
  - simpl. right. right. right. left. reflexivity.
  - reflexivity.
Defined.

Lemma search_keeps_children_witness :
  In (plainRow "C" (Some "A")) exampleRows.
Proof.
  apply (search_keeps_children exampleRows exampleRows exampleRows "D"
           (plainRow "A" None) (plainRow "C" (Some "A"))).
  - apply incl_refl.
  - reflexivity.
  - simpl. left. reflexivity.
  - simpl. right. right. left. reflexivity.
  - reflexivity.
Defined.

Lemma search_without_match_is_empty_witness :
  applySearchFilter [] [plainRow "C" (Some "D"); plainRow "D" (Some "C")] "z" = Some [].
Proof.
  apply (search_without_match_is_empty [] [plainRow "C" (Some "D"); plainRow "D" (Some "C")]
           "z").
  - reflexivity.
  - intros r [<-|[<-|[]]]; reflexivity.
Defined.

Lemma search_exact_witness :
  In (plainRow "C" (Some "A")) exampleRows <->
  In (plainRow "C" (Some "A")) exampleRows /\
  exists m n top,
    In m exampleRows /\ searchMatches "D" m = true /\
    ClimbsIn (indexById exampleRows) n (NodeRow.id m) top /\
    Below (buildChildrenMap exampleRows) top (NodeRow.id (plainRow "C" (Some "A"))).
Proof.
  apply (search_exact (buildChildrenMap exampleRows) exampleRows exampleRows "D"
           (plainRow "C" (Some "A"))); reflexivity.
Defined.

Lemma hierarchy_filter_exact_witness :
  In (plainRow "D" (Some "B"))
     [plainRow "A" None; plainRow "B" (Some "A"); plainRow "D" (Some "B")] <->
  In (plainRow "D" (Some "B")) exampleRows /\
  (Above (indexById exampleRows) "B" (NodeRow.id (plainRow "D" (Some "B"))) \/
   Below (buildChildrenMap exampleRows) "B" (NodeRow.id (plainRow "D" (Some "B")))).
Proof.
  apply (hierarchy_filter_exact exampleRows exampleRows
           [plainRow "A" None; plainRow "B" (Some "A"); plainRow "D" (Some "B")] "B"
           exampleRows_ranked).
  - apply incl_refl.
  - discriminate.
  - simpl. right. left. reflexivity.
  - reflexivity.
Defined.

Lemma parent_filter_keeps_family_witness :
  In (plainRow "B" (Some "A")) exampleRows.
Proof.
  apply (parent_filter_keeps_family (buildChildrenMap exampleRows) exampleRows exampleRows
           "A" (plainRow "B" (Some "A"))).
  - discriminate.
  - reflexivity.
  - simpl. right. left. reflexivity.
  - right. reflexivity.
Defined.

Lemma dropdown_filter_keeps_matches_witness :
  In (plainRow "D" (Some "B"))
     [plainRow "A" None; plainRow "B" (Some "A"); plainRow "D" (Some "B")].
Proof.
  apply (dropdown_filter_keeps_matches exampleRows exampleRows
           [plainRow "A" None; plainRow "B" (Some "A"); plainRow "D" (Some "B")] "D"
           (plainRow "D" (Some "B"))).
  - apply incl_refl.
  - reflexivity.
  - simpl. right. right. right. left. reflexivity.
  - discriminate.
  - reflexivity.
Defined.

Lemma dropdown_filter_keeps_siblings_witness :
  In (plainRow "C" (Some "A")) exampleRows.
Proof.
  apply (dropdown_filter_keeps_siblings exampleRows exampleRows exampleRows "B" "A"
           (plainRow "B" (Some "A")) (plainRow "C" (Some "A"))).
  - apply incl_refl.
  - reflexivity.
  - simpl. right. left. reflexivity.
  - reflexivity.
  - reflexivity.
  - simpl. left. reflexivity.
  - simpl. right. right. left. reflexivity.
  - right. reflexivity.
Defined.

Local Open Scope Q_scope.

Lemma fit_shows_every_card_witness :
  (24#1) <= toScreenX (fitToViewport twoCards)
              (cardLeft (settings twoCards)
                        (LayoutNode.mk "B" "B" (138#1) (0#1) 0%Z)) /\
  toScreenX (fitToViewport twoCards)
            (cardRight (settings twoCards) (LayoutNode.mk "B" "B" (138#1) (0#1) 0%Z))
    <= lastViewportW twoCards - (24#1) /\
  (24#1) <= toScreenY (fitToViewport twoCards)
              (cardTop (settings twoCards)
                       (LayoutNode.mk "B" "B" (138#1) (0#1) 0%Z)) /\
  toScreenY (fitToViewport twoCards)
            (cardBottom (settings twoCards) (LayoutNode.mk "B" "B" (138#1) (0#1) 0%Z))
    <= lastViewportH twoCards - (24#1).
Proof.
  apply (fit_shows_every_card twoCards (LayoutNode.mk "B" "B" (138#1) (0#1) 0%Z)).
  - vm_compute. discriminate.
  - vm_compute. discriminate.
  - simpl. right. left. reflexivity.
  - vm_compute. reflexivity.
Defined.





Lemma hitTest_at_node_witness :
  exists h,
    hitTest twoCards (renderTree twoCards)
            (fst ((138#1) * scale twoCards + tx twoCards,
                  (0#1) * scale twoCards + ty twoCards))
            (snd ((138#1) * scale twoCards + tx twoCards,
                  (0#1) * scale twoCards + ty twoCards)) = Some h /\
    cardLeft (settings twoCards) (hitNode h)
      <= LayoutNode.x (LayoutNode.mk "B" "B" (138#1) (0#1) 0%Z) /\
    LayoutNode.x (LayoutNode.mk "B" "B" (138#1) (0#1) 0%Z)
      <= cardRight (settings twoCards) (hitNode h) /\
    cardTop (settings twoCards) (hitNode h)
      <= LayoutNode.y (LayoutNode.mk "B" "B" (138#1) (0#1) 0%Z) /\
    LayoutNode.y (LayoutNode.mk "B" "B" (138#1) (0#1) 0%Z)
      <= cardBottom (settings twoCards) (hitNode h).
Proof.
  apply (hitTest_at_node twoCards "B" (LayoutNode.mk "B" "B" (138#1) (0#1) 0%Z)).
  - vm_compute. discriminate.
  - vm_compute. discriminate.
  - vm_compute. discriminate.
  - reflexivity.
  - reflexivity.
Defined.

Lemma isToggleHit_means_parent_witness :
  childrenOf (childrenMap laidOutExample) "A" <> [] /\
  exists n,
    In n (nodes laidOutExample) /\ LayoutNode.id n = "A"%string /\
    cardRight (settings laidOutExample) n - (20#1) <= (45#1) /\
    (45#1) <= cardRight (settings laidOutExample) n - (6#1) /\
    cardTop (settings laidOutExample) n + (6#1) <= (-5#1) /\
    (-5#1) <= cardTop (settings laidOutExample) n + (20#1).
Proof.
  apply (isToggleHit_means_parent laidOutExample "A" (45#1) (-5#1)).
  vm_compute. reflexivity.
Defined.


Local Close Scope Q_scope.

Lemma arrow_down_then_up_witness :
  exists i1 i2,
    onKeyDown originLayout laidOutExample
      {| focusedNodeId := Some "A"; focusedIndex := 0; selectedIds := StrSet.empty |}
      "ArrowDown" = Ok (laidOutExample, i1) /\
    focusedNodeId i1 = Some (LayoutNode.id (LayoutNode.mk "B" "B" (0#1)%Q (0#1)%Q 1%Z)) /\
    onKeyDown originLayout laidOutExample i1 "ArrowUp" = Ok (laidOutExample, i2) /\
    focusedNodeId i2 = Some (LayoutNode.id (LayoutNode.mk "A" "A" (0#1)%Q (0#1)%Q 0%Z)) /\
    focusedIndex i2 = 0.
Proof.
  apply (arrow_down_then_up originLayout laidOutExample
           {| focusedNodeId := Some "A"; focusedIndex := 0; selectedIds := StrSet.empty |}
           0 (LayoutNode.mk "A" "A" (0#1)%Q (0#1)%Q 0%Z)
           (LayoutNode.mk "B" "B" (0#1)%Q (0#1)%Q 1%Z)).
  - vm_compute. repeat constructor; simpl; intuition discriminate.
  - reflexivity.
  - reflexivity.
  - reflexivity.
Defined.

Lemma plus_expands_minus_collapses_witness :
  exists v' i',
    onKeyDown originLayout (setCollapsedIds ["B"] laidOutExample)
      {| focusedNodeId := Some "A"; focusedIndex := 0; selectedIds := StrSet.empty |}
      "-" = Ok (v', i') /\
    In "B" (collapsedIds v').
Proof.
  destruct (onKeyDown originLayout (setCollapsedIds ["B"] laidOutExample)
              {| focusedNodeId := Some "A"; focusedIndex := 0; selectedIds := StrSet.empty |}
              "-") as [[v' i']| |] eqn:Hk;
    [|vm_compute in Hk; discriminate Hk|vm_compute in Hk; discriminate Hk].
  exists v', i'. split; [reflexivity|].
  apply (proj2 (plus_expands_minus_collapses originLayout _ v' _ i' "-" Hk) eq_refl).
  simpl. left. reflexivity.
Defined.

Lemma cached_update_keeps_filtered_rows_witness :
  exists s1 s2 c,
    DataStore.updateData DataStore.init false exampleData = Some s1 /\
    DataStore.updateData s1 true filteredData = Some s2 /\
    DataStore.fullRows s2 = exampleData /\
    In c exampleData /\ rowId c = "D" /\
    In {| row := row c; value := Some (Num (7#1)%Q); sparkline := None;
          tooltip := None; selectionId := 0 |}
       (DataStore.allRows s2).
Proof.
  destruct (DataStore.updateData DataStore.init false exampleData) as [s1|] eqn:H1;
    [|vm_compute in H1; discriminate H1].
  destruct (DataStore.updateData s1 true filteredData) as [s2|] eqn:H2;
    [|vm_compute in H1; injection H1 as <-; vm_compute in H2; discriminate H2].
  assert (Hmodel : exampleData <> []) by discriminate.
  assert (Hnd : NoDup (map rowId filteredData)).
  { simpl. repeat constructor. simpl. intuition. }
  destruct (cached_update_keeps_filtered_rows DataStore.init s1 s2 exampleData filteredData
              {| row := plainRow "D" (Some "B"); value := Some (Num (7#1)%Q);
                 sparkline := None; tooltip := None; selectionId := 0 |}
              Hmodel H1 (le_S _ _ (le_S _ _ (le_n 2))) eq_refl Hnd H2 (or_introl eq_refl))
    as (Hfull & c & Hc & Hid & Hin).
  exists s1, s2, c. repeat split; assumption.
Defined.

Lemma empty_update_strips_cached_index_witness :
  exists s1 s2 s3,
    DataStore.updateData DataStore.init false exampleData = Some s1 /\
    DataStore.updateData s1 true [] = Some s2 /\
    DataStore.updateData s2 true filteredData = Some s3 /\
    DataStore.fullRows s2 = exampleData /\
    DataStore.fullChildrenMap s2 = [] /\
    DataStore.fullRows s3 = exampleData.
Proof.
  destruct (DataStore.updateData DataStore.init false exampleData) as [s1|] eqn:H1;
    [|vm_compute in H1; discriminate H1].
  destruct (DataStore.updateData s1 true []) as [s2|] eqn:H2;
    [|vm_compute in H2; discriminate H2].
  destruct (DataStore.updateData s2 true filteredData) as [s3|] eqn:H3;
    [|vm_compute in H1; injection H1 as <-; vm_compute in H2; injection H2 as <-;
      vm_compute in H3; discriminate H3].
  assert (Hsub : filteredData <> []) by discriminate.
  destruct (empty_update_strips_cached_index DataStore.init s1 s2 s3 exampleData filteredData
              true (plainRow "B" (Some "A")) "A"
              (or_intror (or_introl eq_refl)) eq_refl H1 H2 Hsub
              (le_S _ _ (le_S _ _ (le_n 2))) eq_refl H3)
    as (F2 & M2 & F3 & _).
  exists s1, s2, s3. repeat split; assumption.
Defined.

Lemma sparkline_range_brackets_witness :
  exists lo hi t,
    setSparklineRange sparkRows = (Some lo, Some hi) /\
    (lo <= (3#1))%Q /\ ((3#1) <= hi)%Q /\
    sparklineFraction (setSparklineRange sparkRows) (3#1)%Q = Some t /\
    (0 <= t)%Q /\ (t <= 1)%Q.
Proof.
  apply (sparkline_range_brackets sparkRows
           {| row := plainRow "A" None; value := None; sparkline := Some (Num (3#1)%Q);
              tooltip := None; selectionId := 0 |} (3#1)%Q).
  - simpl. left. reflexivity.
  - reflexivity.
Defined.

Lemma filter_set_then_cleared_witness :
  exists v1 v2,
    setSearchQuery originLayout exampleVisual "D" = Some v1 /\
    setSearchQuery originLayout v1 "" = Some v2 /\
    computeVisibleRows v2 (allRows v2) (collapsedIds v2) =
    computeVisibleRows exampleVisual (allRows exampleVisual) (collapsedIds exampleVisual).
Proof.
  destruct (setSearchQuery originLayout exampleVisual "D") as [v1|] eqn:H1;
    [|vm_compute in H1; discriminate H1].
  destruct (setSearchQuery originLayout v1 "") as [v2|] eqn:H2;
    [|vm_compute in H1; injection H1 as <-; vm_compute in H2; discriminate H2].
  exists v1, v2. split; [reflexivity|]. split; [exact H2|].
  exact (proj1 (filter_set_then_cleared originLayout exampleVisual "D" v1 v2) eq_refl H1 H2).
Defined.
